(** * The graph-ingestion core of the 5G supply-chain ETL client

    A shallow embedding of [python-etl/src/neo4j_client.py]: the entity
    model, the Cypher statements the client sends (read with the
    semantics of [MERGE], [MATCH], [UNWIND], [SET] and [CASE] on a
    property graph), the asynchronous query and transaction wrappers with
    their exception handling, and the four ingestion methods built on
    them.

    The module leans on three things that are not its own: the Cypher
    clauses, which are given their documented meaning on a store of nodes
    and edges; the driver's [session.run] and [session.execute_write],
    which run a statement or run a function as a managed transaction,
    committed, or rolled back and tried again; and the decorator of the
    [retry] package, whose loop is transcribed.  The server is a
    parameter: it decides, statement by statement, whether the statement
    runs or raises, what [datetime()] reads, and what time the client's
    timer shows when a transaction has failed. *)

From Stdlib Require Import ZArith QArith Qminmax Ascii String List Lia.
From stdpp Require Import base option list gmap strings.

Local Open Scope string_scope.
Local Open Scope list_scope.
Local Open Scope Z_scope.

(** ** Property values *)

(** The scalar values a node or relationship property, a query parameter
    or a returned field can hold.  A Python [float] that is finite is the
    rational it denotes; [None] is Cypher's [null]. *)
Inductive value : Type :=
| VNull
| VBool (b : bool)
| VInt (z : Z)
| VFloat (q : Q)
| VStr (s : string)
| VDateTime (t : Z).

#[global] Instance Q_eq_dec : EqDecision Q.
Proof. solve_decision. Defined.

#[global] Instance value_eq_dec : EqDecision value.
Proof. solve_decision. Defined.

Definition Qlt_bool (x y : Q) : bool := negb (Qle_bool y x).

Definition num_of (v : value) : option Q :=
  match v with
  | VInt z => Some (inject_Z z)
  | VFloat q => Some q
  | _ => None
  end.

(** Cypher's [a = b]: [None] stands for [null]. *)
Definition cypher_eq (a b : value) : option bool :=
  match a, b with
  | VNull, _ | _, VNull => None
  | VBool x, VBool y => Some (Bool.eqb x y)
  | VStr x, VStr y => Some (String.eqb x y)
  | VDateTime x, VDateTime y => Some (x =? y)
  | _, _ =>
      match num_of a, num_of b with
      | Some x, Some y => Some (Qeq_bool x y)
      | _, _ => Some false
      end
  end.

(** Cypher's [a > b]: numbers compare across integer and float, values of
    one other type among themselves, and anything else gives [null]. *)
Definition cypher_gt (a b : value) : option bool :=
  match a, b with
  | VBool x, VBool y => Some (x && negb y)
  | VStr x, VStr y => Some (String.ltb y x)
  | VDateTime x, VDateTime y => Some (y <? x)
  | _, _ =>
      match num_of a, num_of b with
      | Some x, Some y => Some (Qlt_bool y x)
      | _, _ => None
      end
  end.

(** [CASE WHEN c THEN a ELSE b END]: a [null] condition takes the [ELSE]
    branch. *)
Definition case_when (c : option bool) (a b : value) : value :=
  match c with
  | Some true => a
  | _ => b
  end.

(** ** The property graph *)

Record node : Type := {
  node_id : nat;
  node_labels : list string;
  node_props : gmap string value
}.

Record edge : Type := {
  edge_id : nat;
  edge_src : nat;
  edge_tgt : nat;
  edge_type : string;
  edge_props : gmap string value
}.

Record store : Type := {
  nodes : list node;
  edges : list edge;
  next_id : nat
}.

Definition empty_store : store := {| nodes := []; edges := []; next_id := 0 |}.

(** Reading a property that is not set gives [null]. *)
Definition prop (ps : gmap string value) (k : string) : value :=
  default VNull (ps !! k).

(** [SET x.k = v]: setting [null] removes the property. *)
Definition set_prop (k : string) (v : value) (ps : gmap string value)
  : gmap string value :=
  match v with
  | VNull => delete k ps
  | _ => <[k := v]> ps
  end.

(** [SET x += m]: every key of [m] is set, [null] values removing theirs. *)
Definition add_props (m ps : gmap string value) : gmap string value :=
  map_fold set_prop ps m.

(** A property of a pattern, [{k: v}], matches when [x.k = v] is true. *)
Definition prop_matches (ps : gmap string value) (k : string) (v : value) : bool :=
  match cypher_eq (prop ps k) v with
  | Some true => true
  | _ => false
  end.

Definition has_label (l : string) (n : node) : bool :=
  existsb (String.eqb l) (node_labels n).

(** ** Exceptions *)

Inductive exn_class : Type :=
| ServiceUnavailable
| TransientError
| Neo4jError          (* any other error the server reports *)
| KeyError
| TypeError
| OtherException.

Record exn : Type := { exn_kind : exn_class; exn_msg : string }.

(** ** The entity model *)

(** [@dataclass class CompanyEntity]. *)
Record CompanyEntity : Type := {
  permid : Z;
  name : string;
  is_final_assembler : bool;
  match_score : Q;
  industry_sector : option string;
  country : option string;
  market_cap : option Z;
  revenue : option Z
}.

(** The [__init__] that [@dataclass] generates: it stores its arguments and
    runs no check (the class has no [__post_init__]). *)
Definition CompanyEntity_init (permid : Z) (name : string)
    (is_final_assembler : bool) (match_score : Q)
    (industry_sector country : option string) (market_cap revenue : option Z)
  : exn + CompanyEntity :=
  inr {| permid := permid; name := name;
         is_final_assembler := is_final_assembler;
         match_score := match_score;
         industry_sector := industry_sector; country := country;
         market_cap := market_cap; revenue := revenue |}.

(** [@dataclass class RelationshipData]. *)
Record RelationshipData : Type := {
  source_name : string;
  target_name : string;
  relationship_type : string;
  properties : gmap string value
}.

Definition opt_str (o : option string) : value :=
  match o with Some s => VStr s | None => VNull end.

Definition opt_int (o : option Z) : value :=
  match o with Some z => VInt z | None => VNull end.

(** The [parameters] dictionary of [ingest_company_entity], which is also
    one element of [entities_data] in [batch_ingest_companies]. *)
Definition company_parameters (c : CompanyEntity) : gmap string value :=
  {[ "permid" := VInt (permid c);
     "name" := VStr (name c);
     "is_final_assembler" := VBool (is_final_assembler c);
     "match_score" := VFloat (match_score c);
     "industry_sector" := opt_str (industry_sector c);
     "country" := opt_str (country c);
     "market_cap" := opt_int (market_cap c);
     "revenue" := opt_int (revenue c) ]}.

(** ** The company upsert statement *)

(** [(c:Company {permid: p})] *)
Definition is_company (p : value) (n : node) : bool :=
  has_label "Company" n && prop_matches (node_props n) "permid" p.

(** [ON CREATE SET ...], applied to the node [MERGE] has just created with
    its label and [permid]. *)
Definition on_create (created_by : string) (now : Z) (ent : gmap string value)
    (ps : gmap string value) : gmap string value :=
  set_prop "created_by" (VStr created_by)
  (set_prop "ingestion_date" (VDateTime now)
  (set_prop "revenue" (prop ent "revenue")
  (set_prop "market_cap" (prop ent "market_cap")
  (set_prop "country" (prop ent "country")
  (set_prop "industry_sector" (prop ent "industry_sector")
  (set_prop "match_score" (prop ent "match_score")
  (set_prop "is_final_assembler" (prop ent "is_final_assembler")
  (set_prop "name" (prop ent "name") ps)))))))).

(** [ON MATCH SET c.match_score = CASE WHEN $match_score > c.match_score
    THEN $match_score ELSE c.match_score END, c.last_updated = datetime()]. *)
Definition on_match (now : Z) (ent : gmap string value)
    (ps : gmap string value) : gmap string value :=
  set_prop "last_updated" (VDateTime now)
  (set_prop "match_score"
     (case_when (cypher_gt (prop ent "match_score") (prop ps "match_score"))
                (prop ent "match_score") (prop ps "match_score"))
     ps).

Definition with_props (f : gmap string value → gmap string value) (n : node) : node :=
  {| node_id := node_id n; node_labels := node_labels n;
     node_props := f (node_props n) |}.

(** [MERGE (c:Company {permid: p}) ON CREATE SET ... ON MATCH SET ...] for
    one row of input and a key [p] that is not [null]: every node the
    pattern matches is updated; when there is none, one node is created.
    The result holds the store and the nodes bound to [c], one per row that
    leaves the clause. *)
Definition merge_node (p : value) (created_by : string) (now : Z)
    (ent : gmap string value) (s : store) : store * list node :=
  if existsb (is_company p) (nodes s) then
    let upd n := if is_company p n then with_props (on_match now ent) n else n in
    let ns := map upd (nodes s) in
    ({| nodes := ns; edges := edges s; next_id := next_id s |},
     filter (λ n, is_company p n = true) ns)
  else
    let n := {| node_id := next_id s; node_labels := ["Company"];
                node_props := on_create created_by now ent {[ "permid" := p ]} |} in
    ({| nodes := nodes s ++ [n]; edges := edges s; next_id := S (next_id s) |},
     [n]).

(** The server refuses to merge on a [null] key. *)
Definition merge_company (created_by : string) (now : Z)
    (ent : gmap string value) (s : store) : exn + (store * list node) :=
  match prop ent "permid" with
  | VNull =>
      inl {| exn_kind := Neo4jError;
             exn_msg := "Cannot merge node using null property value for permid" |}
  | p => inr (merge_node p created_by now ent s)
  end.

Abbreviation dict := (gmap string value).

(** A statement is a query text with its parameters bound: given the
    instant [datetime()] evaluates to while it runs, it either fails or
    updates the store and returns records. *)
Definition statement : Type := Z → store → exn + (store * list dict).

(** The query of [ingest_company_entity], ending in
    [RETURN c.permid AS permid, c.name AS name, 'SUCCESS' AS status]. *)
Definition ingest_query (parameters : dict) : statement := λ now s,
  match merge_company "python_etl" now parameters s with
  | inl e => inl e
  | inr (s', cs) =>
      inr (s', map (λ c, {[ "permid" := prop (node_props c) "permid";
                            "name" := prop (node_props c) "name";
                            "status" := VStr "SUCCESS" ]}) cs)
  end.

(** [UNWIND $entities AS entity MERGE ...]: the rows are merged one after
    the other, each seeing what the rows before it wrote. *)
Fixpoint unwind_merge (created_by : string) (now : Z) (entities : list dict)
    (s : store) : exn + (store * list node) :=
  match entities with
  | [] => inr (s, [])
  | entity :: rest =>
      match merge_company created_by now entity s with
      | inl e => inl e
      | inr (s1, cs) =>
          match unwind_merge created_by now rest s1 with
          | inl e => inl e
          | inr (s2, cs') => inr (s2, cs ++ cs')
          end
      end
  end.

(** The query of [batch_ingest_companies], ending in
    [RETURN count(c) AS ingested_count]. *)
Definition batch_query (entities : list dict) : statement := λ now s,
  match unwind_merge "python_etl_batch" now entities s with
  | inl e => inl e
  | inr (s', cs) => inr (s', [ {[ "ingested_count" := VInt (Z.of_nat (length cs)) ]} ])
  end.

(** ** The relationship statements *)

(** [(x:Company {name: nm})] *)
Definition named (nm : value) (n : node) : bool :=
  has_label "Company" n && prop_matches (node_props n) "name" nm.

(** [(a)-[:ty]->(b)] *)
Definition links (ty : string) (a b : node) (e : edge) : bool :=
  Nat.eqb (edge_src e) (node_id a) && Nat.eqb (edge_tgt e) (node_id b)
  && String.eqb (edge_type e) ty.

(** The rows two [MATCH] clauses in a row produce: every pair of a node
    matching the first and a node matching the second. *)
Definition match_pairs (src tgt : value) (s : store) : list (node * node) :=
  a ← filter (λ n, named src n = true) (nodes s);
  b ← filter (λ n, named tgt n = true) (nodes s);
  [(a, b)].

Definition edge_with_props (f : dict → dict) (e : edge) : edge :=
  {| edge_id := edge_id e; edge_src := edge_src e; edge_tgt := edge_tgt e;
     edge_type := edge_type e; edge_props := f (edge_props e) |}.

(** [MERGE (source)-[r:ty]->(target)
     ON CREATE SET r += $properties, r.created_date = datetime()
     ON MATCH SET r += $properties, r.last_updated = datetime()]
    for one row. *)
Definition merge_relationship (ty : string) (props : dict) (now : Z)
    (ab : node * node) (s : store) : store * list edge :=
  let (a, b) := ab in
  if existsb (links ty a b) (edges s) then
    let upd e :=
      if links ty a b e
      then edge_with_props (λ ps, set_prop "last_updated" (VDateTime now) (add_props props ps)) e
      else e in
    let es := map upd (edges s) in
    ({| nodes := nodes s; edges := es; next_id := next_id s |},
     filter (λ e, links ty a b e = true) es)
  else
    let e := {| edge_id := next_id s; edge_src := node_id a; edge_tgt := node_id b;
                edge_type := ty;
                edge_props := set_prop "created_date" (VDateTime now) (add_props props ∅) |} in
    ({| nodes := nodes s; edges := edges s ++ [e]; next_id := S (next_id s) |}, [e]).

(** A writing clause run for every row in turn. *)
Fixpoint for_rows {R X : Type} (step : R → store → store * list X)
    (rows : list R) (s : store) : store * list (R * X) :=
  match rows with
  | [] => (s, [])
  | r :: rest =>
      let (s1, xs) := step r s in
      let (s2, ys) := for_rows step rest s1 in
      (s2, map (pair r) xs ++ ys)
  end.

(** The query of [create_relationship].  [relationship.relationship_type]
    is spliced into the query text; it is read here as the name of the
    relationship type, which is what it is whenever it is an identifier. *)
Definition relationship_query (ty : string) (source_name target_name : value)
    (props : dict) : statement := λ now s,
  let (s', out) := for_rows (merge_relationship ty props now)
                            (match_pairs source_name target_name s) s in
  inr (s', map (λ r : node * node * edge,
                  {[ "source" := prop (node_props r.1.1) "name";
                     "target" := prop (node_props r.1.2) "name";
                     "relationship_type" := VStr (edge_type r.2) ]}) out).

(** The property map of the [MERGE] pattern in
    [create_supply_chain_relationships]. *)
Definition supply_pattern (now : Z) : list (string * value) :=
  [ ("created_date", VDateTime now);
    ("confidence", VFloat (9 # 10));
    ("relationship_source", VStr "etl_pipeline") ].

Definition matches_pattern (pat : list (string * value)) (ps : dict) : bool :=
  forallb (λ kv, prop_matches ps kv.1 kv.2) pat.

(** [MERGE (supplier)-[:SUPPLY_COMPONENTS {created_date: datetime(),
     confidence: 0.9, relationship_source: 'etl_pipeline'}]->(customer)]
    for one row: an edge matches only if it carries all three properties
    with these values; otherwise one is created with them. *)
Definition merge_supply (now : Z) (ab : node * node) (s : store) : store * list edge :=
  let (a, b) := ab in
  let hit e := links "SUPPLY_COMPONENTS" a b e
               && matches_pattern (supply_pattern now) (edge_props e) in
  if existsb hit (edges s) then (s, filter (λ e, hit e = true) (edges s))
  else
    let e := {| edge_id := next_id s; edge_src := node_id a; edge_tgt := node_id b;
                edge_type := "SUPPLY_COMPONENTS";
                edge_props := list_to_map (supply_pattern now) |} in
    ({| nodes := nodes s; edges := edges s ++ [e]; next_id := S (next_id s) |}, [e]).

(** One query of [create_supply_chain_relationships]; it has no [RETURN]. *)
Definition supply_query (supplier_name customer_name : value) : statement := λ now s,
  inr ((for_rows (merge_supply now) (match_pairs supplier_name customer_name s) s).1, []).

(** The [queries] list [create_supply_chain_relationships] builds, one
    statement for each pair. *)
Definition supply_queries (pairs : list (string * string)) : list statement :=
  map (λ sc : string * string, supply_query (VStr sc.1) (VStr sc.2)) pairs.

(** ** The client: state, exceptions, coroutines *)

(** What the server does to the [n]-th statement the client submits: with
    [faults n = Some e] the statement raises [e] and has no effect,
    otherwise it is run, [datetime()] reading [clock n].  [timer n] is what
    the client's [perf_counter()] reads, in seconds, when an attempt of a
    transaction has failed and [n] statements have been submitted. *)
Record server : Type := {
  faults : nat → option exn;
  clock : nat → Z;
  timer : nat → Q
}.

(** The store, the number of statements submitted so far, the delays the
    process has slept in [time.sleep], and the client's [query_count]. *)
Record world : Type := {
  w_store : store;
  w_tick : nat;
  w_slept : list Z;
  w_query_count : nat
}.

Definition M (A : Type) : Type := world → (exn + A) * world.

#[global] Instance M_ret : MRet M := λ A a w, (inr a, w).

#[global] Instance M_bind : MBind M := λ A B f m w,
  match m w with
  | (inl e, w') => (inl e, w')
  | (inr a, w') => f a w'
  end.

#[global] Instance M_fmap : FMap M := λ A B g m w,
  match m w with
  | (inl e, w') => (inl e, w')
  | (inr a, w') => (inr (g a), w')
  end.

Definition raise {A : Type} (e : exn) : M A := λ w, (inl e, w).

(** [try: m  except Exception as e: h e] *)
Definition try_except {A : Type} (m : M A) (h : exn → M A) : M A := λ w,
  match m w with
  | (inl e, w') => h e w'
  | (inr a, w') => (inr a, w')
  end.

(** Calling an [async def] function runs none of its body: it returns a
    coroutine, and the body runs when the coroutine is awaited. *)
Definition coroutine (A : Type) : Type := M A.

Definition call_async {A : Type} (body : M A) : M (coroutine A) := mret body.

Definition await {A : Type} (c : coroutine A) : M A := c.

Definition sleep (delay : Z) : M unit := λ w,
  (inr (), {| w_store := w_store w; w_tick := w_tick w;
              w_slept := w_slept w ++ [delay];
              w_query_count := w_query_count w |}).

(** [retry.api.__retry_internal] with [jitter=0] and no [max_delay]:
<<
    _tries, _delay = tries, delay
    while _tries:
        try:
            return f()
        except exceptions as e:
            _tries -= 1
            if not _tries:
                raise
            time.sleep(_delay)
            _delay *= backoff
>>
    A loop that is left without [return] gives [None]. *)
Fixpoint retry_internal {A : Type} (f : M A) (exceptions : exn → bool)
    (tries : nat) (delay backoff : Z) : M (option A) :=
  match tries with
  | O => mret None
  | S tries' =>
      try_except (Some <$> f)
        (λ e, if exceptions e then
                match tries' with
                | O => raise e
                | S _ => sleep delay ;;
                         retry_internal f exceptions tries' (delay * backoff) backoff
                end
              else raise e)
  end.

Definition is_neo4j_error (e : exn) : bool :=
  match exn_kind e with
  | TransientError | Neo4jError => true
  | _ => false
  end.

(** [exceptions=(ServiceUnavailable, TransientError)] of the decorator;
    these are also the errors of which the driver's [is_retryable()]
    holds. *)
Definition retryable (e : exn) : bool :=
  match exn_kind e with
  | ServiceUnavailable | TransientError => true
  | _ => false
  end.

Definition set_store (s : store) (w : world) : world :=
  {| w_store := s; w_tick := w_tick w; w_slept := w_slept w;
     w_query_count := w_query_count w |}.

Definition next_tick (w : world) : world :=
  {| w_store := w_store w; w_tick := S (w_tick w); w_slept := w_slept w;
     w_query_count := w_query_count w |}.

Definition counted (w : world) : world :=
  {| w_store := w_store w; w_tick := w_tick w; w_slept := w_slept w;
     w_query_count := S (w_query_count w) |}.

(** [self.query_count += 1] *)
Definition count_query : M unit := λ w, (inr (), counted w).

(** [d[k]] *)
Definition dict_get (d : dict) (k : string) : M value :=
  match d !! k with
  | Some v => mret v
  | None => raise {| exn_kind := KeyError; exn_msg := k |}
  end.

Definition status_failed : dict := {[ "status" := VStr "FAILED" ]}.

(** [{'status': 'ERROR', 'error': str(e)}] *)
Definition status_error (e : exn) : dict :=
  {[ "status" := VStr "ERROR"; "error" := VStr (exn_msg e) ]}.

Section Client.

Variable srv : server.

(** [session.run(query, parameters)] and the reading of its records, and
    likewise [tx.run] inside a transaction function. *)
Definition run (query : statement) : M (list dict) := λ w,
  match faults srv (w_tick w) with
  | Some e => (inl e, next_tick w)
  | None =>
      match query (clock srv (w_tick w)) (w_store w) with
      | inl e => (inl e, next_tick w)
      | inr (s', records) => (inr records, next_tick (set_store s' w))
      end
  end.

(** The body of [execute_query].  Its two [except] clauses, for
    [Neo4jError] and for any other [Exception], log and re-raise. *)
Definition execute_query_body (query : statement) : M (list dict) :=
  try_except
    (records ← run query;
     count_query ;;
     mret records)
    (λ e, if is_neo4j_error e then raise e else raise e).

(** [execute_query] as the module defines it:
    [@retry(exceptions=(ServiceUnavailable, TransientError), tries=3,
    delay=2, backoff=2)] around an [async def].  The [f()] that
    [__retry_internal] guards is the call of the coroutine function. *)
Definition execute_query (query : statement) : M (option (coroutine (list dict))) :=
  retry_internal (call_async (execute_query_body query)) retryable 3 2 2.

(** [await self.execute_query(...)]; awaiting [None] is a [TypeError]. *)
Definition await_execute_query (query : statement) : M (list dict) :=
  c ← execute_query query;
  match c with
  | Some co => await co
  | None => raise {| exn_kind := TypeError;
                     exn_msg := "object NoneType can't be used in 'await' expression" |}
  end.

(** [tx_function] of [execute_write_transaction]. *)
Fixpoint tx_function (queries : list statement) : M (list (list dict)) :=
  match queries with
  | [] => mret []
  | query :: rest =>
      records ← run query;
      results ← tx_function rest;
      mret (records :: results)
  end.

(** [max_transaction_retry_time=30], as [connect] configures the driver. *)
Definition max_transaction_retry_time : Q := 30.

(** The loop of the driver's managed transaction.  [f] is run in a
    transaction, which is committed when [f] returns.  When [f] raises,
    the transaction is rolled back; an error that is not retryable
    ([is_retryable()] holds of [ServiceUnavailable] and [TransientError])
    is raised at once.  After a retryable error the driver reads its
    timer: [t0] is the reading at the failure of the first attempt and
    [t1] the reading now, and when [t1 - t0 > max_transaction_retry_time]
    the error is raised; otherwise the driver pauses and runs [f] again.
    The pauses start at 1 second and double, each taken at random within a
    fifth of its length, so after six of them more than 30 seconds have
    passed and a seventh attempt that fails is the last: [retries] counts
    the pauses that are left.  The pauses, made with [asyncio.sleep], are
    not recorded in [w_slept]. *)
Fixpoint run_transaction {A : Type} (retries : nat) (t0 : option Q) (f : M A)
  : M A := λ w,
  match f w with
  | (inr a, w') => (inr a, w')
  | (inl e, w') =>
      let rolled_back := set_store (w_store w) w' in
      if retryable e then
        let t1 := timer srv (w_tick w') in
        let t0 := default t1 t0 in
        if Qlt_bool max_transaction_retry_time (t1 - t0) then (inl e, rolled_back)
        else match retries with
             | O => (inl e, rolled_back)
             | S retries' => run_transaction retries' (Some t0) f rolled_back
             end
      else (inl e, rolled_back)
  end.

(** [session.execute_write(f)] *)
Definition execute_write {A : Type} (f : M A) : M A := run_transaction 6 None f.

(** [execute_write_transaction]: its [except Neo4jError] clause logs and
    re-raises, and any other exception passes through. *)
Definition execute_write_transaction (queries : list statement)
  : M (list (list dict)) :=
  try_except (execute_write (tx_function queries))
    (λ e, if is_neo4j_error e then raise e else raise e).

(** *** Entity ingestion *)

Definition ingest_company_entity (company : CompanyEntity) : M dict :=
  let parameters := company_parameters company in
  try_except
    (results ← await_execute_query (ingest_query parameters);
     mret (match results with r :: _ => r | [] => status_failed end))
    (λ e, mret (status_error e)).

Definition batch_ingest_companies (companies : list CompanyEntity) : M dict :=
  match companies with
  | [] => mret {[ "success_count" := VInt 0; "error_count" := VInt 0;
                  "total" := VInt 0 ]}
  | _ =>
      let entities_data := map company_parameters companies in
      try_except
        (results ← await_execute_query (batch_query entities_data);
         success_count ← match results with
                         | r :: _ => dict_get r "ingested_count"
                         | [] => mret (VInt 0)
                         end;
         mret {[ "success_count" := success_count;
                 "error_count" := VInt 0;
                 "total" := VInt (Z.of_nat (length companies));
                 "status" := VStr "SUCCESS" ]})
        (λ e, mret {[ "success_count" := VInt 0;
                      "error_count" := VInt (Z.of_nat (length companies));
                      "total" := VInt (Z.of_nat (length companies));
                      "status" := VStr "ERROR";
                      "error" := VStr (exn_msg e) ]})
  end.

(** *** Relationship creation *)

Definition create_relationship (relationship : RelationshipData) : M dict :=
  let query := relationship_query (relationship_type relationship)
                 (VStr (source_name relationship))
                 (VStr (target_name relationship))
                 (properties relationship) in
  try_except
    (results ← await_execute_query query;
     mret (match results with r :: _ => r | [] => status_failed end))
    (λ e, mret (status_error e)).

Definition create_supply_chain_relationships
    (supplier_customer_pairs : list (string * string)) : M dict :=
  let queries := supply_queries supplier_customer_pairs in
  try_except
    (execute_write_transaction queries ;;
     mret {[ "relationships_created" := VInt (Z.of_nat (length supplier_customer_pairs));
             "status" := VStr "SUCCESS" ]})
    (λ e, mret (status_error e)).

End Client.

(** ** Observations on the store *)

(** The [Company] nodes carrying a given [permid], and their scores. *)
Definition company_nodes (p : Z) (s : store) : list node :=
  filter (λ n, is_company (VInt p) n = true) (nodes s).

Definition company_scores (p : Z) (s : store) : list value :=
  map (λ n, prop (node_props n) "match_score") (company_nodes p s).

(** The scores a batch supplies for one [permid], in the order given. *)
Definition batch_scores (p : Z) (companies : list CompanyEntity) : list Q :=
  map match_score (filter (λ c, permid c = p) companies).

(** What one upsert with score [sc] does to the scores stored for its
    [permid]: it raises each of them to [sc] when [sc] is larger, and
    starts the list when it is empty. *)
Definition absorb (es : list Q) (sc : Q) : list Q :=
  match es with
  | [] => [sc]
  | _ => map (λ e, Qmax e sc) es
  end.

(** The highest of a score and the scores after it. *)
Definition highest (q : Q) (qs : list Q) : Q := fold_left Qmax qs q.

(** The store a run of upserts leaves, one after the other. *)
Definition upsert_all (created_by : string) (now : Z)
    (companies : list CompanyEntity) (s : store) : store :=
  fold_left (λ s c, (merge_node (VInt (permid c)) created_by now
                                (company_parameters c) s).1) companies s.

(** The world and the outcome a client call leaves. *)
Definition after {A : Type} (m : M A) (w : world) : world := (m w).2.

Definition outcome {A : Type} (m : M A) (w : world) : exn + A := (m w).1.

(** The edges of one type between the companies of two names. *)
Definition edges_between (ty src tgt : string) (s : store) : list edge :=
  filter (λ e, existsb (λ ab : node * node, links ty ab.1 ab.2 e)
                       (match_pairs (VStr src) (VStr tgt) s) = true)
         (edges s).

(** [e] is a [SUPPLY_COMPONENTS] edge from the first node to the second. *)
Definition supply_link (ab : node * node) (e : edge) : bool :=
  links "SUPPLY_COMPONENTS" ab.1 ab.2 e.

(** A pair is supplied when some supplier node of the first name is linked
    by [SUPPLY_COMPONENTS] to some customer node of the second. *)
Definition supplied (s : store) (pair : string * string) : bool :=
  existsb (λ ab : node * node, existsb (supply_link ab) (edges s))
          (match_pairs (VStr pair.1) (VStr pair.2) s).

(** Every requested pair is supplied, or none is. *)
Definition all_or_nothing (pairs : list (string * string)) (s : store) : Prop :=
  forallb (supplied s) pairs = true ∨ existsb (supplied s) pairs = false.

(** Every attribute the entity supplies, other than the score, is what the
    nodes of its [permid] now hold. *)
Definition attributes_overwritten (c : CompanyEntity) (s : store) : bool :=
  forallb (λ n,
    forallb (λ k, match prop (company_parameters c) k with
                  | VNull => true
                  | v => bool_decide (prop (node_props n) k = v)
                  end)
            ["name"; "is_final_assembler"; "industry_sector"; "country";
             "market_cap"; "revenue"])
    (company_nodes (permid c) s).

(** The one node of a [permid] carries the highest score the batch holds
    for it. *)
Definition carries_highest_of_batch (p : Z) (companies : list CompanyEntity)
    (s : store) : Prop :=
  match batch_scores p companies with
  | [] => True
  | q :: qs => company_scores p s = [VFloat (highest q qs)]
  end.

(** An optional Python value as a list. *)
Definition stored (o : option Q) : list Q :=
  match o with Some e => [e] | None => [] end.

(** Between [s] and [s'] the nodes of [permid] [p] kept every property
    other than [match_score] and [last_updated], and [last_updated] now
    reads [now]. *)
Definition only_score_touched (p : Z) (now : Z) (s s' : store) : Prop :=
  (∀ k, k ≠ "match_score" → k ≠ "last_updated" →
     map (λ n, prop (node_props n) k) (company_nodes p s')
     = map (λ n, prop (node_props n) k) (company_nodes p s))
  ∧ Forall (λ n, prop (node_props n) "last_updated" = VDateTime now)
           (company_nodes p s').

(** The store a list of statements leaves when they are run in order, the
    first at statement number [n]. *)
Fixpoint run_all (srv : server) (n : nat) (queries : list statement) (s : store)
  : store :=
  match queries with
  | [] => s
  | query :: rest =>
      match query (clock srv n) s with
      | inr (s', _) => run_all srv (S n) rest s'
      | inl _ => s
      end
  end.

(** ** Sample data *)

(** A server that runs every statement, its clock advancing with each. *)
Definition steady : server :=
  {| faults := λ _, None; clock := λ n, 1700000000 + Z.of_nat n;
     timer := λ n, inject_Z (Z.of_nat n) |}.

(** A server that is busy for the first two statements. *)
Definition busy_twice : server :=
  {| faults := λ n, if Nat.ltb n 2
                    then Some {| exn_kind := TransientError; exn_msg := "busy" |}
                    else None;
     clock := λ n, 1700000000 + Z.of_nat n;
     timer := λ n, inject_Z (Z.of_nat n) |}.

(** A server that is never available. *)
Definition down : server :=
  {| faults := λ _, Some {| exn_kind := ServiceUnavailable; exn_msg := "down" |};
     clock := λ _, 0;
     timer := λ n, inject_Z (10 * Z.of_nat n) |}.

Definition fresh : world :=
  {| w_store := empty_store; w_tick := 0; w_slept := []; w_query_count := 0 |}.

Definition company (p : Z) (nm : string) (sc : Q) : CompanyEntity :=
  {| permid := p; name := nm; is_final_assembler := false; match_score := sc;
     industry_sector := Some "Technology"; country := None;
     market_cap := None; revenue := None |}.

(** [permid=7] ingested once with score 0.7. *)
Definition seven : world :=
  after (ingest_company_entity steady (company 7 "ARM Holdings" (7 # 10))) fresh.

(** [permid=7] ingested once with score 0.95. *)
Definition seven_high : world :=
  after (ingest_company_entity steady (company 7 "ARM Holdings" (95 # 100))) fresh.

(** Two of the sample companies. *)
Definition two_companies : world :=
  after (batch_ingest_companies steady
           [company 4295908001 "ARM Holdings" (89 # 100);
            company 4295908002 "MediaTek" (87 # 100)]) fresh.

(** ** Shape of the store *)

(** The triple that identifies a relationship. *)
Definition edge_key (e : edge) : nat * nat * string :=
  (edge_src e, edge_tgt e, edge_type e).

(** No two edges share source, target and type. *)
Definition one_edge_per_triple (s : store) : Prop :=
  NoDup (map edge_key (edges s)).

Definition node_ids (s : store) : list nat := map node_id (nodes s).

(** Identifiers are distinct and below the next one to be given out, and
    every edge starts and ends at a node of the store. *)
Definition well_formed (s : store) : Prop :=
  NoDup (node_ids s)
  ∧ NoDup (map edge_id (edges s))
  ∧ Forall (λ n, (node_id n < next_id s)%nat) (nodes s)
  ∧ Forall (λ e, (edge_id e < next_id s)%nat) (edges s)
  ∧ Forall (λ e, edge_src e ∈ node_ids s ∧ edge_tgt e ∈ node_ids s) (edges s).

(** At most one [Company] node for each [permid]. *)
Definition permid_unique (s : store) : Prop :=
  ∀ p : Z, (length (company_nodes p s) ≤ 1)%nat.


(** The node at a position of a world's store (an empty node when there
    is none). *)
Definition node_at (w : world) (i : nat) : node :=
  default {| node_id := 0; node_labels := []; node_props := ∅ |}
          (nodes (w_store w) !! i).

(** The edge at a position of a world's store (an empty edge when there
    is none). *)
Definition edge_at (w : world) (i : nat) : edge :=
  default {| edge_id := 0; edge_src := 0; edge_tgt := 0; edge_type := "";
             edge_props := ∅ |}
          (edges (w_store w) !! i).

(** A competition between the two sample companies. *)
Definition competes : RelationshipData :=
  {| source_name := "ARM Holdings"; target_name := "MediaTek";
     relationship_type := "COMPETES_WITH";
     properties := {[ "strength" := VFloat (8 # 10);
                      "created_date" := VStr "2020-01-01" ]} |}.

(** The two sample companies, once linked by [competes]. *)
Definition two_rivals : world := after (create_relationship steady competes) two_companies.


(** ** The consistency checks *)

Definition is_null (v : value) : bool :=
  match v with VNull => true | _ => false end.

Definition labelled_company (n : node) : bool := has_label "Company" n.

(** [MATCH (c:Company) WHERE c.permid IS NULL RETURN count(c)] *)
Definition companies_without_permid (s : store) : nat :=
  length (filter (λ n, labelled_company n
                       && is_null (prop (node_props n) "permid") = true) (nodes s)).

(** [MATCH (c:Company) WHERE c.name IS NULL OR c.name = '' RETURN count(c)] *)
Definition companies_without_names (s : store) : nat :=
  length (filter (λ n, labelled_company n
                       && (is_null (prop (node_props n) "name")
                           || prop_matches (node_props n) "name" (VStr "")) = true)
                 (nodes s)).

(** Two keys fall in one group of an aggregation when they are equal, or
    both [null]. *)
Definition same_group (a b : value) : bool :=
  match a, b with
  | VNull, VNull => true
  | _, _ => match cypher_eq a b with Some true => true | _ => false end
  end.

(** The number of groups of more than one key, the group of [null] left
    out: a key counts where it occurs first, if it occurs again. *)
Fixpoint duplicate_groups (seen keys : list value) : nat :=
  match keys with
  | [] => 0
  | k :: rest =>
      ((if negb (is_null k) && negb (existsb (same_group k) seen)
           && existsb (same_group k) rest
        then 1 else 0)
       + duplicate_groups (k :: seen) rest)%nat
  end.

(** [MATCH (c:Company) WITH c.permid AS permid, collect(c) AS companies
     WHERE size(companies) > 1 RETURN count(permid)] *)
Definition duplicate_permids (s : store) : nat :=
  duplicate_groups []
    (map (λ n, prop (node_props n) "permid")
         (filter (λ n, labelled_company n = true) (nodes s))).

(** [MATCH (c:Company) WHERE NOT (c)-[]-() RETURN count(c)] *)
Definition orphaned_companies (s : store) : nat :=
  length (filter (λ n, labelled_company n
                       && negb (existsb (λ e, Nat.eqb (edge_src e) (node_id n)
                                              || Nat.eqb (edge_tgt e) (node_id n))
                                        (edges s)) = true)
                 (nodes s)).

(** [MATCH ()-[r]-() WHERE r.created_date IS NULL RETURN count(r)]: the
    pattern has no direction, so an edge between two nodes is found from
    either end, and a loop once. *)
Definition relationships_without_dates (s : store) : nat :=
  sum_list (map (λ e, if Nat.eqb (edge_src e) (edge_tgt e) then 1%nat else 2%nat)
                (filter (λ e, is_null (prop (edge_props e) "created_date") = true)
                        (edges s))).

(** A query that reads the store and returns one record, [count]. *)
Definition count_query_of (count : store → nat) : statement := λ _ s,
  inr (s, [ {[ "count" := VInt (Z.of_nat (count s)) ]} ]).

(** [validation_queries], in the order of the dictionary. *)
Definition validation_counts : list (string * (store → nat)) :=
  [ ("companies_without_permid", companies_without_permid);
    ("companies_without_names", companies_without_names);
    ("duplicate_permids", duplicate_permids);
    ("orphaned_companies", orphaned_companies);
    ("relationships_without_dates", relationships_without_dates) ].

(** One round of the loop of [validate_graph_consistency]: each check has
    its own [try], and a failure is recorded as the string
    [f"ERROR: {e}"]. *)
Definition run_check (srv : server) (count : store → nat) : M value :=
  try_except
    (results ← await_execute_query srv (count_query_of count);
     match results with
     | r :: _ => dict_get r "count"
     | [] => mret (VInt 0)
     end)
    (λ e, mret (VStr ("ERROR: " ++ exn_msg e))).

Fixpoint run_checks (srv : server) (checks : list (string * (store → nat)))
    (validation_results : dict) : M dict :=
  match checks with
  | [] => mret validation_results
  | (check_name, count) :: rest =>
      v ← run_check srv count;
      run_checks srv rest (<[check_name := v]> validation_results)
  end.

Definition validate_graph_consistency (srv : server) : M dict :=
  run_checks srv validation_counts ∅.

(** Every relationship carries a [created_date]. *)
Definition all_dated (s : store) : Prop :=
  Forall (λ e, prop (edge_props e) "created_date" ≠ VNull) (edges s).

(** Every [Company] node carries an integer [permid]. *)
Definition integer_permids (s : store) : Prop :=
  Forall (λ n, labelled_company n = true → ∃ z, prop (node_props n) "permid" = VInt z)
         (nodes s).


(** The integer a node carries as [permid] (0 when it carries none). *)
Definition int_permid (n : node) : Z :=
  match prop (node_props n) "permid" with VInt z => z | _ => 0 end.

(** The three checks of the graph's structure that the client's own writes
    bear on. *)
Definition passes_checks (s : store) : Prop :=
  companies_without_permid s = 0%nat
  ∧ duplicate_permids s = 0%nat
  ∧ relationships_without_dates s = 0%nat.


(** What the client's writes keep: integer keys, one node for a key, a
    date on every relationship. *)
Definition clean (s : store) : Prop :=
  integer_permids s ∧ permid_unique s ∧ all_dated s.


(** * The WIKIDATA ingester

    The parts of [python-etl/src/ingest_wikidata.py] that turn query
    results into entities and hand them to the client.  A text is a row
    of characters with code points below 256, on which [\d] accepts the
    ten digits only and [str.lower] moves the letters A-Z and the accented
    capitals 32 places up. *)

Module Wikidata.

(** [@dataclass class WikidataEntity]. *)
Record WikidataEntity : Type := {
  wikidata_id : string;
  label : string;
  description : option string;
  industry : option string;
  country : option string;
  founded : option string;
  headquarters : option string;
  revenue : option string;
  employees : option string;
  website : option string;
  stock_symbol : option string
}.

(** The truth value of an optional text: [None] and [''] are false. *)
Definition truthy (o : option string) : bool :=
  match o with
  | Some s => negb (String.eqb s "")
  | None => false
  end.

(** [needle in hay] *)
Fixpoint contains (needle hay : string) : bool :=
  String.prefix needle hay
  || match hay with
     | EmptyString => false
     | String _ rest => contains needle rest
     end.

(** [s.split(sep)] for a separator of one character. *)
Fixpoint split_on (sep : ascii) (s : string) : list string :=
  match s with
  | EmptyString => [""]
  | String c rest =>
      if Ascii.eqb c sep then "" :: split_on sep rest
      else match split_on sep rest with
           | piece :: pieces => String c piece :: pieces
           | [] => [String c ""]
           end
  end.

(** [_extract_wikidata_id] *)
Definition extract_wikidata_id (uri_data : gmap string string) : string :=
  let uri := default "" (uri_data !! "value") in
  if contains "wikidata.org/entity/" uri
  then List.last (split_on "/"%char uri) ""
  else "".

Definition is_digit (c : ascii) : bool :=
  Nat.leb 48 (nat_of_ascii c) && Nat.leb (nat_of_ascii c) 57.

Definition is_comma (c : ascii) : bool := Ascii.eqb c ","%char.

(** [s.replace(',', '')] *)
Fixpoint remove_commas (s : string) : string :=
  match s with
  | EmptyString => ""
  | String c rest =>
      if is_comma c then remove_commas rest else String c (remove_commas rest)
  end.

(** The longest run of characters of a class at the start of a text. *)
Fixpoint leading (cls : ascii → bool) (s : string) : string :=
  match s with
  | EmptyString => ""
  | String c rest => if cls c then String c (leading cls rest) else ""
  end.

(** [re.search(r'[\d,]+', s)]: the first run of digits and commas, if
    there is one. *)
Fixpoint search_digits (s : string) : option string :=
  match s with
  | EmptyString => None
  | String c rest =>
      if is_digit c || is_comma c
      then Some (leading (λ c, is_digit c || is_comma c) s)
      else search_digits rest
  end.

Fixpoint value_of_digits (acc : Z) (s : string) : option Z :=
  match s with
  | EmptyString => Some acc
  | String c rest =>
      if is_digit c
      then value_of_digits (10 * acc + Z.of_nat (nat_of_ascii c - 48)) rest
      else None
  end.

(** [int(s)] for a text of digits and commas: [None] stands for the
    [ValueError] that a comma, an empty text or a text of more than 4300
    digits (the interpreter's limit for such conversions) gives. *)
Definition py_int (s : string) : option Z :=
  match s with
  | EmptyString => None
  | _ => if Nat.ltb 4300 (String.length s) then None else value_of_digits 0 s
  end.

(** The revenue that [to_company_entity] reads from the text. *)
Definition revenue_value (self : WikidataEntity) : option Z :=
  if truthy (revenue self) then
    match search_digits (remove_commas (default "" (revenue self))) with
    | Some m =>
        match py_int m with
        | Some v => Some (v * 1000000)
        | None => None
        end
    | None => None
    end
  else None.

Definition lower_char (c : ascii) : ascii :=
  let n := nat_of_ascii c in
  if Nat.leb 65 n && Nat.leb n 90
     || Nat.leb 192 n && Nat.leb n 222 && negb (Nat.eqb n 215)
  then ascii_of_nat (n + 32)
  else c.

(** [s.lower()] *)
Fixpoint lower (s : string) : string :=
  match s with
  | EmptyString => ""
  | String c rest => String (lower_char c) (lower rest)
  end.

Definition final_assembler_keywords : list string :=
  [ "smartphone"; "mobile phone"; "electronics manufacturer";
    "consumer electronics"; "device manufacturer" ].

(** [_is_final_assembler] *)
Definition is_final_assembler (self : WikidataEntity) : bool :=
  let description_text := lower (default "" (description self)) in
  let industry_text := lower (default "" (industry self)) in
  let combined_text := description_text +:+ " " +:+ industry_text in
  existsb (λ keyword, contains keyword combined_text) final_assembler_keywords.

(** [to_company_entity] *)
Definition to_company_entity (self : WikidataEntity) (permid : Z) (match_score : Q)
  : CompanyEntity :=
  Build_CompanyEntity permid (label self) (is_final_assembler self) match_score
    (industry self) (country self) None (revenue_value self).

(** [_calculate_match_score], its decimal sums taken exactly. *)
Definition calculate_match_score (entity : WikidataEntity) : Q :=
  let add (o : option string) (d : Q) (score : Q) : Q :=
    if truthy o then (score + d)%Q else score in
  let score := (5 # 10)%Q in
  let score := add (description entity) (1 # 10)%Q score in
  let score := add (industry entity) (1 # 10)%Q score in
  let score := add (country entity) (1 # 10)%Q score in
  let score := add (founded entity) (5 # 100)%Q score in
  let score := add (headquarters entity) (5 # 100)%Q score in
  let score := add (revenue entity) (1 # 10)%Q score in
  let score := add (employees entity) (5 # 100)%Q score in
  let score := add (website entity) (5 # 100)%Q score in
  let score := add (stock_symbol entity) (5 # 100)%Q score in
  Qmin score 1.

(** The loop of [run_wikidata_ingestion_pipeline] that keeps the first
    entity of each label. *)
Definition dedup_step (state : list WikidataEntity * gset string)
    (entity : WikidataEntity) : list WikidataEntity * gset string :=
  let (unique_entities, seen_labels) := state in
  if decide (label entity ∈ seen_labels) then state
  else (unique_entities ++ [entity], seen_labels ∪ {[ label entity ]}).

Definition unique_entities (all_entities : list WikidataEntity) : list WikidataEntity :=
  (fold_left dedup_step all_entities ([], ∅)).1.

(** The companies [ingest_to_neo4j] builds, the entity at position [i]
    under [base_permid + i]. *)
Definition companies_of (entities : list WikidataEntity) (base_permid : Z)
  : list CompanyEntity :=
  imap (λ i entity, to_company_entity entity (base_permid + Z.of_nat i)
                      (calculate_match_score entity)) entities.

(** [ingest_to_neo4j]; the ingester holds a client or [None]. *)
Definition ingest_to_neo4j (neo4j_client : option server)
    (entities : list WikidataEntity) (base_permid : Z) : M dict :=
  match neo4j_client with
  | None => raise {| exn_kind := OtherException;
                     exn_msg := "Neo4j client not configured for ingestion" |}
  | Some client =>
      let companies := companies_of entities base_permid in
      try_except
        (result ← batch_ingest_companies client companies;
         mret {[ "source" := VStr "WIKIDATA";
                 "entities_processed" := VInt (Z.of_nat (length entities));
                 "companies_ingested" := default (VInt 0) (result !! "success_count");
                 "errors" := default (VInt 0) (result !! "error_count");
                 "status" := default (VStr "UNKNOWN") (result !! "status") ]})
        (λ e, mret {[ "source" := VStr "WIKIDATA";
                      "entities_processed" := VInt (Z.of_nat (length entities));
                      "companies_ingested" := VInt 0;
                      "errors" := VInt (Z.of_nat (length entities));
                      "status" := VStr "ERROR";
                      "error_message" := VStr (exn_msg e) ]})
  end.

(** What the loop over the rest adds once the labels [seen] are taken. *)
Fixpoint fresh_labels (seen : gset string) (entities : list WikidataEntity)
  : list WikidataEntity :=
  match entities with
  | [] => []
  | entity :: rest =>
      if decide (label entity ∈ seen) then fresh_labels seen rest
      else entity :: fresh_labels (seen ∪ {[ label entity ]}) rest
  end.

(** Every character of a text is of a class. *)
Fixpoint all_chars (cls : ascii → bool) (s : string) : bool :=
  match s with
  | EmptyString => true
  | String c rest => cls c && all_chars cls rest
  end.

Definition is_slash (c : ascii) : bool := Ascii.eqb c "/"%char.

Definition digit_value (c : ascii) : Z := Z.of_nat (nat_of_ascii c) - 48.

(** The number a row of decimal digits writes, the last digit first. *)
Fixpoint number_from_last (digits : list ascii) : Z :=
  match digits with
  | [] => 0
  | c :: more => digit_value c + 10 * number_from_last more
  end.

Definition number (digits : string) : Z :=
  number_from_last (rev (list_ascii_of_string digits)).

(** An entity with a description and an industry and nothing else. *)
Definition described (label_text description_text industry_text : string)
  : WikidataEntity :=
  {| wikidata_id := ""; label := label_text;
     description := Some description_text; industry := Some industry_text;
     country := None; founded := None; headquarters := None; revenue := None;
     employees := None; website := None; stock_symbol := None |}.

Definition apple_record : WikidataEntity :=
  {| wikidata_id := "Q312"; label := "Apple Inc";
     description := Some "American technology company";
     industry := Some "Consumer Electronics";
     country := Some "United States of America"; founded := Some "1976";
     headquarters := None; revenue := Some "394,328 million USD";
     employees := None; website := None; stock_symbol := Some "AAPL" |}.

Definition samsung_record : WikidataEntity :=
  {| wikidata_id := "Q20718"; label := "Samsung Electronics";
     description := None; industry := None; country := None; founded := None;
     headquarters := None; revenue := None; employees := None; website := None;
     stock_symbol := None |}.

Definition private_record : WikidataEntity :=
  {| wikidata_id := "Q1"; label := "Private Devices";
     description := Some "Maker of Mobile Phones"; industry := None;
     country := None; founded := None; headquarters := None;
     revenue := Some "not disclosed"; employees := None; website := None;
     stock_symbol := None |}.

End Wikidata.


(** The node [MERGE] creates, under an identifier, for a company that has
    none. *)
Definition created_node (created_by : string) (now : Z) (id : nat)
    (c : CompanyEntity) : node :=
  {| node_id := id; node_labels := ["Company"];
     node_props := on_create created_by now (company_parameters c)
                     {[ "permid" := VInt (permid c) ]} |}.


(** ** Attempts of a transaction *)

(** One attempt of a transaction on the statements [queries], the first
    of them submitted as statement number [n], on the store [s]: the store
    the statements build and the records of each, or the error of the
    first statement that fails and its position in the list. *)
Fixpoint attempt (srv : server) (n : nat) (queries : list statement) (s : store)
  : exn * nat + store * list (list dict) :=
  match queries with
  | [] => inr (s, [])
  | query :: rest =>
      match faults srv n with
      | Some e => inl (e, 0%nat)
      | None =>
          match query (clock srv n) s with
          | inl e => inl (e, 0%nat)
          | inr (s', records) =>
              match attempt srv (S n) rest s' with
              | inl (e, i) => inl (e, S i)
              | inr (s'', results) => inr (s'', records :: results)
              end
          end
      end
  end.

(** The world once [k] more statements have been submitted. *)
Definition advance (k : nat) (w : world) : world :=
  {| w_store := w_store w; w_tick := (w_tick w + k)%nat; w_slept := w_slept w;
     w_query_count := w_query_count w |}.

(** A server that is busy for one statement, the one numbered [k]. *)
Definition busy_at (k : nat) : server :=
  {| faults := λ n, if Nat.eqb n k
                    then Some {| exn_kind := TransientError; exn_msg := "busy" |}
                    else None;
     clock := λ n, 1700000000 + Z.of_nat n;
     timer := λ n, inject_Z (Z.of_nat n) |}.

(** * Properties *)

(** Unfolds the operations of [M] in a client call. *)
Ltac unfold_client :=
  unfold try_except, mbind, M_bind, mret, M_ret, raise.

(** ** Values and property maps *)

Lemma Qlt_bool_iff (x y : Q) : Qlt_bool x y = true ↔ (x < y)%Q.
Proof.
  unfold Qlt_bool. rewrite negb_true_iff. split.
  - intros H. apply Qnot_le_lt. intros Hle.
    apply Qle_bool_iff in Hle. congruence.
  - intros H. destruct (Qle_bool y x) eqn:E; [|reflexivity].
    apply Qle_bool_iff in E. exfalso. exact (Qlt_not_le _ _ H E).
Qed.

(** The [CASE] of the upsert computes a maximum. *)
Lemma case_score_max (e q : Q) :
  case_when (cypher_gt (VFloat q) (VFloat e)) (VFloat q) (VFloat e)
  = VFloat (Qmax e q).
Proof.
  unfold Qmax, GenericMinMax.gmax. cbn [cypher_gt num_of case_when].
  destruct (Qlt_bool e q) eqn:E.
  - apply Qlt_bool_iff in E. by rewrite (proj1 (Qlt_alt e q) E).
  - destruct (e ?= q)%Q eqn:C; try reflexivity.
    apply (proj2 (Qlt_alt e q)) in C. apply Qlt_bool_iff in C. congruence.
Qed.

Lemma Qmax_cases (e q : Q) :
  ((e < q)%Q → Qmax e q = q) ∧ (¬ (e < q)%Q → Qmax e q = e) ∧ (e <= Qmax e q)%Q.
Proof.
  unfold Qmax, GenericMinMax.gmax. repeat split.
  - intros H. by rewrite (proj1 (Qlt_alt e q) H).
  - intros H. destruct (e ?= q)%Q eqn:C; try reflexivity.
    apply (proj2 (Qlt_alt e q)) in C. contradiction.
  - destruct (e ?= q)%Q eqn:C; try apply Qle_refl.
    apply (proj2 (Qlt_alt e q)) in C. by apply Qlt_le_weak.
Qed.

Lemma prop_set_prop_eq k v (ps : gmap string value) : prop (set_prop k v ps) k = v.
Proof.
  unfold prop, set_prop.
  destruct v; rewrite ?lookup_delete_eq, ?lookup_insert_eq; reflexivity.
Qed.

Lemma prop_set_prop_ne k k' v (ps : gmap string value) :
  k ≠ k' → prop (set_prop k v ps) k' = prop ps k'.
Proof.
  intros Hne. unfold prop, set_prop.
  destruct v; rewrite ?lookup_delete_ne, ?lookup_insert_ne; done.
Qed.

Lemma cypher_eq_int (p q : Z) :
  cypher_eq (VInt p) (VInt q) = Some (bool_decide (p = q)).
Proof.
  cbn. f_equal. case_bool_decide as H.
  - subst. apply Qeq_bool_iff. reflexivity.
  - destruct (Qeq_bool (inject_Z p) (inject_Z q)) eqn:E; [|reflexivity].
    apply Qeq_bool_iff in E. apply (proj1 (inject_Z_injective p q)) in E.
    contradiction.
Qed.

(** A property equal to two integers makes them the same integer. *)
Lemma prop_matches_int_inj (ps : gmap string value) k (p q : Z) :
  prop_matches ps k (VInt p) = true → prop_matches ps k (VInt q) = true → p = q.
Proof.
  unfold prop_matches. destruct (prop ps k) as [| | z | x | |]; cbn; try discriminate.
  - destruct (Qeq_bool (inject_Z z) (inject_Z p)) eqn:E1; [|discriminate].
    destruct (Qeq_bool (inject_Z z) (inject_Z q)) eqn:E2; [|discriminate].
    intros _ _. apply Qeq_bool_iff in E1, E2.
    apply (proj1 (inject_Z_injective z p)) in E1.
    apply (proj1 (inject_Z_injective z q)) in E2. congruence.
  - destruct (Qeq_bool x (inject_Z p)) eqn:E1; [|discriminate].
    destruct (Qeq_bool x (inject_Z q)) eqn:E2; [|discriminate].
    intros _ _. apply Qeq_bool_iff in E1, E2.
    apply (proj1 (inject_Z_injective p q)). by rewrite <- E1, <- E2.
Qed.

(** ** The company upsert *)

Lemma prop_on_match_other now ent (ps : gmap string value) k :
  k ≠ "match_score" → k ≠ "last_updated" →
  prop (on_match now ent ps) k = prop ps k.
Proof.
  intros H1 H2. unfold on_match.
  rewrite !prop_set_prop_ne; done.
Qed.

Lemma prop_on_match_last_updated now ent (ps : gmap string value) :
  prop (on_match now ent ps) "last_updated" = VDateTime now.
Proof. unfold on_match. apply prop_set_prop_eq. Qed.

Lemma prop_on_match_score now ent (ps : gmap string value) :
  prop (on_match now ent ps) "match_score"
  = case_when (cypher_gt (prop ent "match_score") (prop ps "match_score"))
              (prop ent "match_score") (prop ps "match_score").
Proof.
  unfold on_match. rewrite prop_set_prop_ne by done. apply prop_set_prop_eq.
Qed.

Lemma is_company_on_match q now ent n :
  is_company q (with_props (on_match now ent) n) = is_company q n.
Proof.
  unfold is_company, has_label, prop_matches. cbn [node_labels node_props with_props].
  rewrite prop_on_match_other; done.
Qed.

Lemma existsb_filter_nil {A} (f : A → bool) (l : list A) :
  existsb f l = false ↔ filter (λ x, f x = true) l = [].
Proof.
  induction l as [|x l IH]; [done|].
  cbn [existsb]. rewrite filter_cons. destruct (f x) eqn:E.
  - rewrite decide_True by done. split; discriminate.
  - rewrite decide_False by (by intros ?). exact IH.
Qed.

Lemma filter_map_commute {A} (P : A → Prop) `{!∀ x, Decision (P x)}
    (f : A → A) (l : list A) :
  (∀ x, P (f x) ↔ P x) → filter P (map f l) = map f (filter P l).
Proof.
  intros Hf. induction l as [|x l IH]; [done|].
  cbn [map]. rewrite !filter_cons. destruct (decide (P x)) as [Hx|Hx].
  - rewrite decide_True by (by apply Hf). cbn [map]. by rewrite IH.
  - rewrite decide_False by (by rewrite Hf). exact IH.
Qed.

Lemma map_filter_agree {A B} (P : A → Prop) `{!∀ x, Decision (P x)}
    (f g : A → B) (l : list A) :
  (∀ x, P x → f x = g x) → map f (filter P l) = map g (filter P l).
Proof.
  intros Hfg. induction l as [|x l IH]; [done|].
  rewrite filter_cons. destruct (decide (P x)); [|done].
  cbn [map]. by rewrite Hfg, IH.
Qed.

(** The entity's parameters as the statement reads them. *)
Lemma merge_company_entity created_by now c s :
  merge_company created_by now (company_parameters c) s
  = inr (merge_node (VInt (permid c)) created_by now (company_parameters c) s).
Proof. reflexivity. Qed.

Lemma merge_node_length p created_by now ent s :
  length (nodes (merge_node p created_by now ent s).1)
  = (length (nodes s) + (if existsb (is_company p) (nodes s) then 0 else 1))%nat.
Proof.
  unfold merge_node. destruct (existsb (is_company p) (nodes s)); cbn.
  - rewrite length_map. lia.
  - by rewrite length_app.
Qed.

Lemma merge_node_edges p created_by now ent s :
  edges (merge_node p created_by now ent s).1 = edges s.
Proof. unfold merge_node. by destruct (existsb (is_company p) (nodes s)). Qed.

(** The node [MERGE] creates is found by its own pattern, and by the
    pattern of no other integer key. *)
Lemma is_company_created (p q : Z) created_by now ent i :
  is_company (VInt q)
    {| node_id := i; node_labels := ["Company"];
       node_props := on_create created_by now ent {[ "permid" := VInt p ]} |}
  = bool_decide (p = q).
Proof.
  unfold is_company, has_label, prop_matches, on_create.
  cbn [node_labels node_props existsb].
  rewrite !prop_set_prop_ne by done.
  replace (prop {[ "permid" := VInt p ]} "permid") with (VInt p)
    by (unfold prop; by rewrite lookup_singleton_eq).
  rewrite cypher_eq_int. by case_bool_decide.
Qed.

(** An upsert keeps every node that already carries the key, and adds
    exactly one when there is none. *)
Lemma merge_node_company_nodes (p : Z) created_by now ent s :
  company_nodes p (merge_node (VInt p) created_by now ent s).1
  = match company_nodes p s with
    | [] => [ {| node_id := next_id s; node_labels := ["Company"];
                 node_props := on_create created_by now ent {[ "permid" := VInt p ]} |} ]
    | ns => map (with_props (on_match now ent)) ns
    end.
Proof.
  unfold company_nodes, merge_node.
  destruct (existsb (is_company (VInt p)) (nodes s)) eqn:E.
  - cbn [fst nodes].
    destruct (filter _ (nodes s)) as [|n0 ns] eqn:F.
    { apply existsb_filter_nil in F. congruence. }
    rewrite <- F.
    rewrite filter_map_commute.
    + apply map_filter_agree. by intros x ->.
    + intros x. destruct (is_company (VInt p) x) eqn:Ex; [|by rewrite Ex].
      by rewrite is_company_on_match, Ex.
  - cbn [fst nodes]. apply existsb_filter_nil in E. rewrite E.
    rewrite filter_app, E, filter_cons, filter_nil.
    rewrite decide_True; [done|].
    rewrite is_company_created. by apply bool_decide_eq_true.
Qed.

(** An upsert for one key leaves the nodes of every other key as they
    are. *)
Lemma merge_node_other (p q : Z) created_by now ent s :
  p ≠ q →
  company_nodes q (merge_node (VInt p) created_by now ent s).1 = company_nodes q s.
Proof.
  intros Hne. unfold company_nodes, merge_node.
  destruct (existsb (is_company (VInt p)) (nodes s)) eqn:E; cbn [fst nodes].
  - rewrite filter_map_commute.
    + rewrite <- (map_id (filter _ (nodes s))) at 2.
      apply map_filter_agree. intros x Hx.
      destruct (is_company (VInt p) x) eqn:Ex; [|done].
      exfalso. apply Hne.
      unfold is_company in Hx, Ex.
      apply andb_true_iff in Hx as [_ Hx]. apply andb_true_iff in Ex as [_ Ex].
      eapply prop_matches_int_inj; eauto.
    + intros x. destruct (is_company (VInt p) x) eqn:Ex; [|done].
      by rewrite is_company_on_match.
  - rewrite filter_app, filter_cons, filter_nil.
    rewrite decide_False; [by rewrite app_nil_r|].
    rewrite is_company_created. rewrite bool_decide_eq_false_2; done.
Qed.

Lemma map_VFloat_rel {A} (f g : A → value) (h : Q → Q) (l : list A) (es : list Q) :
  (∀ x e, f x = VFloat e → g x = VFloat (h e)) →
  map f l = map VFloat es → map g l = map VFloat (map h es).
Proof.
  intros Hfg. revert es. induction l as [|x l IH]; intros [|e es]; try done.
  cbn [map]. intros [= Hx Hl]. f_equal; [by apply Hfg | by apply IH].
Qed.

(** What one upsert does to the scores stored under its key. *)
Lemma merge_node_scores c created_by now s es :
  company_scores (permid c) s = map VFloat es →
  company_scores (permid c)
    (merge_node (VInt (permid c)) created_by now (company_parameters c) s).1
  = map VFloat (absorb es (match_score c)).
Proof.
  unfold company_scores. rewrite merge_node_company_nodes.
  destruct (company_nodes (permid c) s) as [|n0 ns] eqn:E.
  - destruct es as [|e es]; [|discriminate]. intros _.
    cbn [map absorb node_props]. f_equal.
    unfold on_create. rewrite !prop_set_prop_ne by done.
    by rewrite prop_set_prop_eq.
  - intros H. destruct es as [|e es]; [discriminate|].
    rewrite map_map.
    apply (map_VFloat_rel (λ n, prop (node_props n) "match_score")); [|exact H].
    intros x e' Hx. cbn [node_props with_props].
    rewrite prop_on_match_score, Hx.
    change (prop (company_parameters c) "match_score") with (VFloat (match_score c)).
    apply case_score_max.
Qed.

Lemma merge_node_scores_other c (q : Z) created_by now s :
  permid c ≠ q →
  company_scores q
    (merge_node (VInt (permid c)) created_by now (company_parameters c) s).1
  = company_scores q s.
Proof. intros H. unfold company_scores. by rewrite merge_node_other. Qed.

(** The batch statement on entity dictionaries is a run of upserts. *)
Lemma unwind_merge_entities created_by now companies s :
  ∃ rows, unwind_merge created_by now (map company_parameters companies) s
          = inr (upsert_all created_by now companies s, rows).
Proof.
  revert s. induction companies as [|c cs IH]; intros s.
  - by exists [].
  - cbn [map unwind_merge]. rewrite merge_company_entity.
    destruct (merge_node _ _ _ _ s) as [s1 r1] eqn:E.
    destruct (IH s1) as [rows Hrows]. rewrite Hrows.
    exists (r1 ++ rows). cbn [upsert_all fold_left]. by rewrite E.
Qed.

Lemma upsert_all_scores (p : Z) created_by now companies s es :
  company_scores p s = map VFloat es →
  company_scores p (upsert_all created_by now companies s)
  = map VFloat (fold_left absorb (batch_scores p companies) es).
Proof.
  revert s es. induction companies as [|c cs IH]; intros s es H; [done|].
  cbn [upsert_all fold_left]. unfold batch_scores. rewrite filter_cons.
  destruct (decide (permid c = p)) as [<-|Hne].
  - cbn [map fold_left]. apply IH. by apply merge_node_scores.
  - apply IH. by rewrite merge_node_scores_other.
Qed.

Lemma fold_absorb_one qs e : fold_left absorb qs [e] = [highest e qs].
Proof.
  revert e. induction qs as [|q qs IH]; intros e; [done|].
  cbn [fold_left absorb map]. apply IH.
Qed.

Lemma fold_absorb_nil q qs : fold_left absorb (q :: qs) [] = [highest q qs].
Proof. cbn [fold_left absorb]. apply fold_absorb_one. Qed.

Lemma highest_ge q qs x : x ∈ q :: qs → (x <= highest q qs)%Q.
Proof.
  revert q x. induction qs as [|y qs IH]; intros q x Hx.
  - apply list_elem_of_singleton in Hx. subst x. apply Qle_refl.
  - unfold highest. cbn [fold_left]. fold (highest (Qmax q y) qs).
    apply elem_of_cons in Hx as [Hx|Hx].
    + subst x. apply Qle_trans with (Qmax q y); [apply Q.le_max_l|].
      apply (IH (Qmax q y)). left.
    + apply elem_of_cons in Hx as [Hx|Hx].
      * subst x. apply Qle_trans with (Qmax q y); [apply Q.le_max_r|].
        apply (IH (Qmax q y)). left.
      * apply (IH (Qmax q y)). by right.
Qed.

Lemma highest_elem q qs : highest q qs ∈ q :: qs.
Proof.
  revert q. induction qs as [|y qs IH]; intros q; [left|].
  unfold highest. cbn [fold_left]. fold (highest (Qmax q y) qs).
  specialize (IH (Qmax q y)). apply elem_of_cons in IH as [->|IH].
  - destruct (Qlt_le_dec q y) as [Hlt|Hle].
    + rewrite (proj1 (Qmax_cases q y) Hlt). right; left.
    + rewrite (proj1 (proj2 (Qmax_cases q y))); [left|].
      by apply Qle_not_lt.
  - by do 2 right.
Qed.

(** ** The query wrapper *)

Section ClientFacts.

Variable srv : server.

(** Awaiting the decorated [execute_query] runs its body once: the call
    that [__retry_internal] guards only builds the coroutine. *)
Lemma await_execute_query_body query w :
  await_execute_query srv query w = execute_query_body srv query w.
Proof. reflexivity. Qed.

Lemma execute_query_body_spec query w :
  execute_query_body srv query w
  = match faults srv (w_tick w) with
    | Some e => (inl e, next_tick w)
    | None =>
        match query (clock srv (w_tick w)) (w_store w) with
        | inl e => (inl e, next_tick w)
        | inr (s', records) => (inr records, counted (next_tick (set_store s' w)))
        end
    end.
Proof.
  unfold execute_query_body, run. unfold_client.
  destruct (faults srv (w_tick w)) as [e|]; [by destruct (is_neo4j_error e)|].
  destruct (query _ _) as [e|[s' records]]; [by destruct (is_neo4j_error e)|done].
Qed.

Lemma ingest_company_entity_spec company w :
  ingest_company_entity srv company w
  = match faults srv (w_tick w) with
    | Some e => (inr (status_error e), next_tick w)
    | None =>
        let sc := merge_node (VInt (permid company)) "python_etl"
                    (clock srv (w_tick w)) (company_parameters company) (w_store w) in
        (inr (match ingest_query (company_parameters company)
                      (clock srv (w_tick w)) (w_store w) with
              | inr (_, r :: _) => r
              | _ => status_failed
              end),
         counted (next_tick (set_store sc.1 w)))
    end.
Proof.
  unfold ingest_company_entity. unfold_client.
  rewrite await_execute_query_body, execute_query_body_spec.
  destruct (faults srv (w_tick w)); [done|].
  unfold ingest_query. rewrite merge_company_entity.
  destruct (merge_node _ _ _ _ _) as [s' cs]. by destruct cs.
Qed.

Lemma batch_ingest_companies_spec c companies w :
  batch_ingest_companies srv (c :: companies) w
  = match faults srv (w_tick w) with
    | Some e =>
        (inr {[ "success_count" := VInt 0;
                "error_count" := VInt (Z.of_nat (length (c :: companies)));
                "total" := VInt (Z.of_nat (length (c :: companies)));
                "status" := VStr "ERROR";
                "error" := VStr (exn_msg e) ]}, next_tick w)
    | None =>
        (inr (match batch_query (map company_parameters (c :: companies))
                      (clock srv (w_tick w)) (w_store w) with
              | inr (_, r :: _) =>
                  {[ "success_count" := prop r "ingested_count";
                     "error_count" := VInt 0;
                     "total" := VInt (Z.of_nat (length (c :: companies)));
                     "status" := VStr "SUCCESS" ]}
              | _ => status_failed
              end),
         counted (next_tick (set_store
           (upsert_all "python_etl_batch" (clock srv (w_tick w)) (c :: companies)
                       (w_store w)) w)))
    end.
Proof.
  unfold batch_ingest_companies. unfold_client.
  rewrite await_execute_query_body, execute_query_body_spec.
  destruct (faults srv (w_tick w)); [done|].
  unfold batch_query.
  destruct (unwind_merge_entities "python_etl_batch" (clock srv (w_tick w))
              (c :: companies) (w_store w)) as [rows ->].
  unfold dict_get. rewrite lookup_singleton_eq.
  do 3 f_equal.
Qed.

End ClientFacts.

(** ** Monotonic score *)

Lemma fold_absorb_nonempty qs es :
  es ≠ [] → fold_left absorb qs es = map (λ e, highest e qs) es.
Proof.
  revert es. induction qs as [|q qs IH]; intros es Hes.
  - cbn. by rewrite map_id.
  - cbn [fold_left]. destruct es as [|e es]; [done|].
    rewrite IH by done. cbn [absorb]. by rewrite map_map.
Qed.

Lemma ingest_store srv company w :
  faults srv (w_tick w) = None →
  w_store (after (ingest_company_entity srv company) w)
  = (merge_node (VInt (permid company)) "python_etl" (clock srv (w_tick w))
                (company_parameters company) (w_store w)).1.
Proof.
  intros H. unfold after. by rewrite ingest_company_entity_spec, H.
Qed.

Lemma batch_store srv companies w :
  faults srv (w_tick w) = None →
  w_store (after (batch_ingest_companies srv companies) w)
  = upsert_all "python_etl_batch" (clock srv (w_tick w)) companies (w_store w).
Proof.
  intros H. unfold after. destruct companies as [|c cs]; [done|].
  by rewrite batch_ingest_companies_spec, H.
Qed.

(** C1. When the server runs the statement and the [permid] already has
    nodes with scores [es], an upsert through [ingest_company_entity]
    leaves each score at the maximum of it and the supplied score, and a
    batch through [batch_ingest_companies] leaves each at the highest of it
    and the scores the batch supplies for that [permid]; the maximum is the
    supplied score exactly when that is strictly greater, and is never
    below the stored one. *)
Theorem upsert_score_is_max srv w (p : Z) (es : list Q) :
  faults srv (w_tick w) = None →
  es ≠ [] →
  company_scores p (w_store w) = map VFloat es →
  (∀ c, permid c = p →
     company_scores p (w_store (after (ingest_company_entity srv c) w))
     = map (λ e, VFloat (Qmax e (match_score c))) es)
  ∧ (∀ companies,
       company_scores p (w_store (after (batch_ingest_companies srv companies) w))
       = map (λ e, VFloat (highest e (batch_scores p companies))) es)
  ∧ (∀ e sc : Q, ((e < sc)%Q → Qmax e sc = sc)
                 ∧ (¬ (e < sc)%Q → Qmax e sc = e)
                 ∧ (e <= Qmax e sc)%Q).
Proof.
  intros Hok Hes Hs. split; [|split].
  - intros c <-. rewrite ingest_store by done.
    rewrite (merge_node_scores c _ _ _ es) by done.
    destruct es as [|e es]; [done|]. cbn [absorb]. by rewrite map_map.
  - intros companies. rewrite batch_store by done.
    rewrite (upsert_all_scores p _ _ _ _ es) by done.
    rewrite fold_absorb_nonempty by done. by rewrite map_map.
  - apply Qmax_cases.
Qed.

Lemma upsert_score_is_max_witness :
  company_scores 7
    (w_store (after (ingest_company_entity steady (company 7 "ARM" (5 # 10))) seven))
  = [VFloat (7 # 10)].
Proof.
  exact (proj1 (upsert_score_is_max steady seven 7 [7 # 10]
                  eq_refl ltac:(discriminate) ltac:(vm_compute; reflexivity))
               (company 7 "ARM" (5 # 10)) eq_refl).
Defined.

(** The scores stored after upserting [permid=7] with 0.7, then 0.5, then
    0.9. *)
Example monotonic_score_sequence :
  let w1 := after (ingest_company_entity steady (company 7 "ARM" (7 # 10))) fresh in
  let w2 := after (ingest_company_entity steady (company 7 "ARM" (5 # 10))) w1 in
  let w3 := after (ingest_company_entity steady (company 7 "ARM" (9 # 10))) w2 in
  company_scores 7 (w_store w1) = [VFloat (7 # 10)]
  ∧ company_scores 7 (w_store w2) = [VFloat (7 # 10)]
  ∧ company_scores 7 (w_store w3) = [VFloat (9 # 10)].
Proof. vm_compute. done. Qed.

(** ** Idempotent upsert *)


Lemma merge_node_count (p : Z) created_by now ent s :
  length (company_nodes p (merge_node (VInt p) created_by now ent s).1)
  = Nat.max 1 (length (company_nodes p s)).
Proof.
  rewrite merge_node_company_nodes.
  destruct (company_nodes p s) as [|n ns]; [done|].
  rewrite length_map. cbn [length]. lia.
Qed.




(** Every store the client builds holds at most one node for a [permid]:
    an upsert keeps the nodes of each [permid] at most one. *)
Lemma merge_node_keeps_unique (p : Z) created_by now ent s :
  (∀ q, (length (company_nodes q s) ≤ 1)%nat) →
  ∀ q, (length (company_nodes q (merge_node (VInt p) created_by now ent s).1) ≤ 1)%nat.
Proof.
  intros H q. destruct (decide (p = q)) as [<-|Hne].
  - rewrite merge_node_count. specialize (H p). lia.
  - by rewrite merge_node_other.
Qed.

Lemma upsert_all_keeps_unique created_by now companies s :
  (∀ q, (length (company_nodes q s) ≤ 1)%nat) →
  ∀ q, (length (company_nodes q (upsert_all created_by now companies s)) ≤ 1)%nat.
Proof.
  revert s. induction companies as [|c cs IH]; intros s H; [done|].
  apply IH. by apply merge_node_keeps_unique.
Qed.

(** ** What an upsert leaves untouched *)

Lemma merge_node_hit (p : Z) created_by now ent s :
  company_nodes p s ≠ [] →
  company_nodes p (merge_node (VInt p) created_by now ent s).1
  = map (with_props (on_match now ent)) (company_nodes p s).
Proof.
  intros H. rewrite merge_node_company_nodes.
  by destruct (company_nodes p s).
Qed.

Lemma upsert_all_cons created_by now c cs s :
  upsert_all created_by now (c :: cs) s
  = upsert_all created_by now cs
      (merge_node (VInt (permid c)) created_by now (company_parameters c) s).1.
Proof. reflexivity. Qed.

Lemma upsert_all_keeps (p : Z) created_by now companies s :
  company_nodes p s ≠ [] →
  company_nodes p (upsert_all created_by now companies s) ≠ []
  ∧ (∀ k, k ≠ "match_score" → k ≠ "last_updated" →
       map (λ n, prop (node_props n) k) (company_nodes p (upsert_all created_by now companies s))
       = map (λ n, prop (node_props n) k) (company_nodes p s))
  ∧ ((Forall (λ n, prop (node_props n) "last_updated" = VDateTime now) (company_nodes p s)
      ∨ batch_scores p companies ≠ []) →
     Forall (λ n, prop (node_props n) "last_updated" = VDateTime now)
            (company_nodes p (upsert_all created_by now companies s))).
Proof.
  revert s. induction companies as [|c cs IH]; intros s Hne.
  - cbn [upsert_all fold_left]. split; [done|]. split; [done|].
    intros [H|H]; [done|]. by destruct H.
  - rewrite upsert_all_cons.
    set (s1 := (merge_node (VInt (permid c)) created_by now (company_parameters c) s).1).
    destruct (decide (permid c = p)) as [Hp|Hp].
    + assert (E : company_nodes p s1
                  = map (with_props (on_match now (company_parameters c)))
                        (company_nodes p s)).
      { unfold s1. rewrite Hp. by apply merge_node_hit. }
      assert (Hne1 : company_nodes p s1 ≠ []).
      { rewrite E. by destruct (company_nodes p s). }
      destruct (IH s1 Hne1) as (IH1 & IH2 & IH3).
      split; [exact IH1|]. split.
      * intros k Hk1 Hk2. rewrite (IH2 k Hk1 Hk2), E, map_map.
        apply map_ext. intros n. cbn [node_props with_props].
        by apply prop_on_match_other.
      * intros _. apply IH3. left. rewrite E. apply Forall_forall.
        intros n Hn. apply list_elem_of_In, in_map_iff in Hn as (m & <- & _).
        cbn [node_props with_props]. apply prop_on_match_last_updated.
    + assert (E : company_nodes p s1 = company_nodes p s).
      { unfold s1. by apply merge_node_other. }
      assert (Hne1 : company_nodes p s1 ≠ []) by (by rewrite E).
      destruct (IH s1 Hne1) as (IH1 & IH2 & IH3).
      split; [exact IH1|]. split.
      * intros k Hk1 Hk2. by rewrite (IH2 k Hk1 Hk2), E.
      * intros H. apply IH3. rewrite E. destruct H as [H|H]; [by left|right].
        unfold batch_scores in *. rewrite filter_cons in H.
        by rewrite decide_False in H.
Qed.

(** C7, as the code has it.  When the server runs the statement and the
    [permid] already has a node, an upsert (through [ingest_company_entity],
    or in a batch of [batch_ingest_companies] that holds the [permid])
    leaves every property of that node other than [match_score] and
    [last_updated] as it was stored, [name], [is_final_assembler],
    [industry_sector], [country], [market_cap] and [revenue] among them,
    whatever the entity supplies; [last_updated] is set to the instant of
    the statement. *)
Theorem upsert_keeps_attributes srv w (p : Z) :
  faults srv (w_tick w) = None →
  company_nodes p (w_store w) ≠ [] →
  (∀ c, permid c = p →
     only_score_touched p (clock srv (w_tick w)) (w_store w)
       (w_store (after (ingest_company_entity srv c) w)))
  ∧ (∀ companies, batch_scores p companies ≠ [] →
       only_score_touched p (clock srv (w_tick w)) (w_store w)
         (w_store (after (batch_ingest_companies srv companies) w))).
Proof.
  intros Hok Hne. split.
  - intros c Hc. rewrite ingest_store by done.
    destruct (upsert_all_keeps p "python_etl" (clock srv (w_tick w)) [c] (w_store w) Hne)
      as (_ & H2 & H3).
    split; [exact H2|]. apply H3. right.
    unfold batch_scores. rewrite filter_cons, decide_True by done. done.
  - intros companies Hin. rewrite batch_store by done.
    destruct (upsert_all_keeps p "python_etl_batch" (clock srv (w_tick w)) companies
                (w_store w) Hne) as (_ & H2 & H3).
    split; [exact H2|]. apply H3. by right.
Qed.

Lemma upsert_keeps_attributes_witness :
  map (λ n, prop (node_props n) "name")
      (company_nodes 7
         (w_store (after (ingest_company_entity steady (company 7 "Arm Ltd" (9 # 10)))
                         seven)))
  = [VStr "ARM Holdings"].
Proof.
  exact (proj1 (proj1 (upsert_keeps_attributes steady seven 7 eq_refl
                         ltac:(vm_compute; discriminate))
                      (company 7 "Arm Ltd" (9 # 10)) eq_refl)
               "name" ltac:(discriminate) ltac:(discriminate)).
Defined.

(** C7, as stated, fails: an upsert of [permid=7] under a new name leaves
    the stored name. *)
Lemma upsert_overwrites_counterexample :
  map (λ n, prop (node_props n) "name") (company_nodes 7 (w_store seven))
  = [VStr "ARM Holdings"]
  ∧ attributes_overwritten (company 7 "Arm Ltd" (9 # 10))
      (w_store (after (ingest_company_entity steady (company 7 "Arm Ltd" (9 # 10)))
                      seven))
    = false.
Proof. vm_compute. done. Qed.

(** ** Duplicates in a batch *)

(** C8, as the code has it.  When the server runs the statement and the
    store holds at most one node for the [permid], with score [old] if it
    holds one, then after [batch_ingest_companies] on a batch that holds the
    [permid] exactly one node for it exists, and it carries the highest of
    the stored score and the scores the batch supplies for it: with no node
    stored before, the highest score among the duplicates. *)
Theorem batch_dedup srv companies w (p : Z) (old : option Q) (q : Q) (qs : list Q) :
  faults srv (w_tick w) = None →
  company_scores p (w_store w) = map VFloat (stored old) →
  stored old ++ batch_scores p companies = q :: qs →
  let s' := w_store (after (batch_ingest_companies srv companies) w) in
  length (company_nodes p s') = 1%nat
  ∧ company_scores p s' = [VFloat (highest q qs)]
  ∧ highest q qs ∈ q :: qs
  ∧ (∀ x, x ∈ q :: qs → (x <= highest q qs)%Q).
Proof.
  intros Hok Hs Hq s'.
  assert (E : company_scores p s' = [VFloat (highest q qs)]).
  { unfold s'. rewrite batch_store by done.
    rewrite (upsert_all_scores p _ _ _ _ (stored old)) by done.
    destruct old as [e|]; cbn [stored app] in Hq.
    - injection Hq as <- <-. cbn [stored]. by rewrite fold_absorb_one.
    - rewrite Hq. cbn [stored]. by rewrite fold_absorb_nil. }
  split; [|split; [exact E|split; [apply highest_elem|apply highest_ge]]].
  unfold company_scores in E.
  apply (f_equal length) in E. by rewrite length_map in E.
Qed.

Lemma batch_dedup_witness :
  let s' := w_store (after (batch_ingest_companies steady
                              [company 7 "ARM Holdings" (6 # 10);
                               company 7 "ARM Holdings" (8 # 10)]) fresh) in
  length (company_nodes 7 s') = 1%nat
  ∧ company_scores 7 s' = [VFloat (8 # 10)]
  ∧ (8 # 10) ∈ [6 # 10; 8 # 10]
  ∧ (∀ x, x ∈ [6 # 10; 8 # 10] → (x <= 8 # 10)%Q).
Proof.
  exact (batch_dedup steady
           [company 7 "ARM Holdings" (6 # 10); company 7 "ARM Holdings" (8 # 10)]
           fresh 7 None (6 # 10) [8 # 10] eq_refl eq_refl eq_refl).
Defined.

(** C8, as stated, fails: with [permid=7] stored at 0.95, a batch holding it
    at 0.6 and 0.8 leaves 0.95, not the highest score of the batch. *)
Lemma batch_dedup_counterexample :
  ¬ carries_highest_of_batch 7
      [company 7 "ARM Holdings" (6 # 10); company 7 "ARM Holdings" (8 # 10)]
      (w_store (after (batch_ingest_companies steady
                         [company 7 "ARM Holdings" (6 # 10);
                          company 7 "ARM Holdings" (8 # 10)]) seven_high)).
Proof. intros H. vm_compute in H. discriminate H. Qed.

(** ** Failures become results *)

(** C10. Whatever the server does, [ingest_company_entity] and
    [batch_ingest_companies] return a dictionary and raise nothing; when
    the query raises [e], the dictionary has status [ERROR] and carries the
    message of [e], and for a batch also [success_count] 0 and
    [error_count] the size of the batch. *)
Theorem ingestion_never_raises srv w :
  (∀ company,
     match outcome (await_execute_query srv (ingest_query (company_parameters company))) w with
     | inl e =>
         outcome (ingest_company_entity srv company) w
         = inr {[ "status" := VStr "ERROR"; "error" := VStr (exn_msg e) ]}
     | inr _ => ∃ d, outcome (ingest_company_entity srv company) w = inr d
     end)
  ∧ outcome (batch_ingest_companies srv []) w
    = inr {[ "success_count" := VInt 0; "error_count" := VInt 0; "total" := VInt 0 ]}
  ∧ (∀ c companies,
       match outcome (await_execute_query srv
                        (batch_query (map company_parameters (c :: companies)))) w with
       | inl e =>
           outcome (batch_ingest_companies srv (c :: companies)) w
           = inr {[ "success_count" := VInt 0;
                    "error_count" := VInt (Z.of_nat (length (c :: companies)));
                    "total" := VInt (Z.of_nat (length (c :: companies)));
                    "status" := VStr "ERROR";
                    "error" := VStr (exn_msg e) ]}
       | inr _ => ∃ d, outcome (batch_ingest_companies srv (c :: companies)) w = inr d
       end).
Proof.
  split; [|split; [reflexivity|]].
  - intros company.
    unfold outcome, ingest_company_entity. unfold_client.
    destruct (await_execute_query srv _ w) as [[e|results] w']; cbn; eauto.
  - intros c companies.
    unfold outcome, batch_ingest_companies. unfold_client.
    destruct (await_execute_query srv _ w) as [[e|results] w']; cbn [fst]; [done|].
    destruct results as [|r results]; [cbn; eauto|].
    unfold dict_get. destruct (r !! "ingested_count"); cbn; eauto.
Qed.

(** A server that is down: both calls return their [ERROR] dictionary. *)
Example ingestion_when_down :
  outcome (ingest_company_entity down (company 7 "ARM Holdings" (7 # 10))) fresh
  = inr {[ "status" := VStr "ERROR"; "error" := VStr "down" ]}
  ∧ outcome (batch_ingest_companies down
               [company 7 "ARM Holdings" (7 # 10); company 8 "MediaTek" (8 # 10)]) fresh
    = inr {[ "success_count" := VInt 0; "error_count" := VInt 2; "total" := VInt 2;
             "status" := VStr "ERROR"; "error" := VStr "down" ]}.
Proof. split; vm_compute; reflexivity. Qed.

(** ** Construction of entities *)

(** C2 against the code: the constructor returns an entity for every
    argument list, and [CompanyEntity(permid=0, name="", ...,
    match_score=1.5)] in particular is constructed without error and
    written to the store as it is by [ingest_company_entity]. *)
Theorem malformed_entity_is_accepted :
  (∀ p n f sc ind co mc rev,
     ∃ c, CompanyEntity_init p n f sc ind co mc rev = inr c
          ∧ permid c = p ∧ name c = n ∧ match_score c = sc)
  ∧ ∃ c, CompanyEntity_init 0 "" true (3 # 2) None None None None = inr c
         ∧ map (λ n, (prop (node_props n) "permid", prop (node_props n) "name",
                      prop (node_props n) "match_score"))
               (nodes (w_store (after (ingest_company_entity steady c) fresh)))
           = [(VInt 0, VStr "", VFloat (3 # 2))].
Proof.
  split.
  - intros. by eexists.
  - eexists. split; [reflexivity|]. vm_compute. reflexivity.
Qed.

(** ** Retry *)

Section RetryFacts.

Variable srv : server.

(** A statement that fails is not submitted again, whatever the error. *)
Lemma execute_query_single_attempt query w e :
  faults srv (w_tick w) = Some e →
  await_execute_query srv query w = (inl e, next_tick w).
Proof.
  intros H. by rewrite await_execute_query_body, execute_query_body_spec, H.
Qed.

(** The decorator's call never raises and never sleeps. *)
Lemma execute_query_returns_coroutine query w :
  execute_query srv query w = (inr (Some (execute_query_body srv query)), w).
Proof. reflexivity. Qed.

End RetryFacts.

(** C9 against the code: whatever error the server raises for a statement,
    transient or not, the awaited [execute_query] raises it after that
    single attempt; on a server that is busy for two statements and then
    available, it raises the first transient error, with no sleep and
    nothing written. *)
Theorem transient_error_is_not_retried :
  (∀ srv query w e,
     faults srv (w_tick w) = Some e →
     await_execute_query srv query w = (inl e, next_tick w))
  ∧ let query := ingest_query (company_parameters (company 7 "ARM Holdings" (7 # 10))) in
    let w := after (await_execute_query busy_twice query) fresh in
    outcome (await_execute_query busy_twice query) fresh
    = inl {| exn_kind := TransientError; exn_msg := "busy" |}
    ∧ w_tick w = 1%nat ∧ w_slept w = [] ∧ nodes (w_store w) = [].
Proof.
  split.
  - intros. by apply execute_query_single_attempt.
  - vm_compute. done.
Qed.

(** What [__retry_internal] does with a function that raises when it is
    called, here the body of [execute_query] run directly: the third
    attempt succeeds after sleeping 2 and 4, and on a server that is down
    the third failure is raised. *)
Example retry_internal_on_direct_body :
  let query := ingest_query (company_parameters (company 7 "ARM Holdings" (7 # 10))) in
  let attempt srv := retry_internal (execute_query_body srv query) retryable 3 2 2 in
  (w_tick (after (attempt busy_twice) fresh) = 3%nat
   ∧ w_slept (after (attempt busy_twice) fresh) = [2; 4]
   ∧ length (nodes (w_store (after (attempt busy_twice) fresh))) = 1%nat)
  ∧ (outcome (attempt down) fresh
     = inl {| exn_kind := ServiceUnavailable; exn_msg := "down" |}
     ∧ w_tick (after (attempt down) fresh) = 3%nat).
Proof. vm_compute. done. Qed.

(** ** Relationships: missing endpoints *)

Lemma match_pairs_nil src tgt s :
  filter (λ n, named src n = true) (nodes s) = []
  ∨ filter (λ n, named tgt n = true) (nodes s) = [] →
  match_pairs src tgt s = [].
Proof.
  unfold match_pairs. intros [->| ->]; [done|].
  induction (filter _ (nodes s)) as [|a l IH]; [done|].
  cbn. exact IH.
Qed.

Lemma match_pairs_nodes src tgt s s' :
  nodes s = nodes s' → match_pairs src tgt s = match_pairs src tgt s'.
Proof. unfold match_pairs. by intros ->. Qed.

Lemma relationship_query_no_rows ty src tgt props now s :
  match_pairs src tgt s = [] →
  relationship_query ty src tgt props now s = inr (s, []).
Proof. intros H. unfold relationship_query. by rewrite H. Qed.

Lemma supply_query_no_rows src tgt now s :
  match_pairs src tgt s = [] → supply_query src tgt now s = inr (s, []).
Proof. intros H. unfold supply_query. by rewrite H. Qed.

(** C5. When no node matches the source name, or none matches the target
    name, [create_relationship] leaves the store as it was (no edge, no
    node) and returns a failure: the dictionary [{'status': 'FAILED'}]
    when the server runs the statement, and [{'status': 'ERROR', 'error':
    message}] when the server raises. *)
Theorem create_relationship_missing_endpoint srv rel w :
  filter (λ n, named (VStr (source_name rel)) n = true) (nodes (w_store w)) = []
  ∨ filter (λ n, named (VStr (target_name rel)) n = true) (nodes (w_store w)) = [] →
  w_store (after (create_relationship srv rel) w) = w_store w
  ∧ (faults srv (w_tick w) = None →
     outcome (create_relationship srv rel) w = inr {[ "status" := VStr "FAILED" ]})
  ∧ (∀ e, faults srv (w_tick w) = Some e →
     outcome (create_relationship srv rel) w
     = inr {[ "status" := VStr "ERROR"; "error" := VStr (exn_msg e) ]}).
Proof.
  intros H. apply match_pairs_nil in H.
  unfold after, outcome, create_relationship. unfold_client.
  rewrite await_execute_query_body, execute_query_body_spec.
  rewrite relationship_query_no_rows by done.
  destruct (faults srv (w_tick w)) as [e|]; cbn.
  - split; [done|]. split; [done|]. by intros e' [= ->].
  - done.
Qed.

Lemma create_relationship_missing_endpoint_witness :
  let rel := {| source_name := "ARM Holdings"; target_name := "Qualcomm Inc";
                relationship_type := "COMPETES_WITH";
                properties := {[ "strength" := VFloat (8 # 10) ]} |} in
  w_store (after (create_relationship steady rel) two_companies) = w_store two_companies
  ∧ (faults steady (w_tick two_companies) = None →
     outcome (create_relationship steady rel) two_companies
     = inr {[ "status" := VStr "FAILED" ]})
  ∧ (∀ e, faults steady (w_tick two_companies) = Some e →
     outcome (create_relationship steady rel) two_companies
     = inr {[ "status" := VStr "ERROR"; "error" := VStr (exn_msg e) ]}).
Proof.
  exact (create_relationship_missing_endpoint steady
           {| source_name := "ARM Holdings"; target_name := "Qualcomm Inc";
              relationship_type := "COMPETES_WITH";
              properties := {[ "strength" := VFloat (8 # 10) ]} |}
           two_companies ltac:(right; vm_compute; reflexivity)).
Defined.

(** With both endpoints present the statement returns a record, so
    [{'status': 'FAILED'}] is what [create_relationship] returns exactly
    for a missing endpoint. *)
Lemma merge_relationship_binds ty props now ab s :
  (merge_relationship ty props now ab s).2 ≠ [].
Proof.
  unfold merge_relationship. destruct ab as [a b].
  destruct (existsb (links ty a b) (edges s)) eqn:E; cbn [snd]; [|done].
  apply existsb_exists in E as (e & He & Hl).
  intros Hnil.
  eapply (filter_nil_not_elem_of _ _ (edge_with_props _ e)) in Hnil.
  - apply Hnil. apply list_elem_of_In, in_map_iff. exists e. by rewrite Hl.
  - exact Hl.
Qed.

Lemma for_rows_binds {R X} (step : R → store → store * list X) rows s :
  (∀ r s, (step r s).2 ≠ []) → rows ≠ [] → (for_rows step rows s).2 ≠ [].
Proof.
  intros Hstep Hrows. destruct rows as [|r rows]; [done|].
  cbn [for_rows]. specialize (Hstep r s).
  destruct (step r s) as [s1 xs]. destruct (for_rows step rows s1) as [s2 ys].
  cbn [snd] in *. by destruct xs.
Qed.

Lemma create_relationship_found srv rel w :
  faults srv (w_tick w) = None →
  match_pairs (VStr (source_name rel)) (VStr (target_name rel)) (w_store w) ≠ [] →
  ∃ r, outcome (create_relationship srv rel) w = inr r ∧ r !! "status" = None.
Proof.
  intros Hok Hrows.
  unfold outcome, create_relationship. unfold_client.
  rewrite await_execute_query_body, execute_query_body_spec, Hok.
  unfold relationship_query.
  pose proof (for_rows_binds
                (merge_relationship (relationship_type rel) (properties rel)
                                    (clock srv (w_tick w)))
                _ (w_store w) (merge_relationship_binds _ _ _) Hrows) as Hout.
  destruct (for_rows _ _ (w_store w)) as [s' out]. cbn [snd] in Hout.
  destruct out as [|o out]; [done|]. cbn.
  eexists. split; [reflexivity|].
  by rewrite !lookup_insert_ne, lookup_singleton_ne.
Qed.

(** ** Relationships: the supply-chain batch *)

Lemma existsb_mono {A} (f : A → bool) (l l' : list A) :
  (∀ x, x ∈ l → x ∈ l') → existsb f l = true → existsb f l' = true.
Proof.
  intros Hsub H. apply existsb_exists in H as (x & Hx & Hf).
  apply existsb_exists. exists x. split; [|done].
  apply list_elem_of_In, Hsub, list_elem_of_In, Hx.
Qed.

Lemma merge_supply_spec now ab s :
  nodes (merge_supply now ab s).1 = nodes s
  ∧ (∀ e, e ∈ edges s → e ∈ edges (merge_supply now ab s).1)
  ∧ existsb (supply_link ab) (edges (merge_supply now ab s).1) = true.
Proof.
  unfold merge_supply, supply_link. destruct ab as [a b].
  destruct (existsb _ (edges s)) eqn:E; cbn [fst nodes edges].
  - split; [done|]. split; [done|].
    apply existsb_exists in E as (e & He & Hhit).
    apply existsb_exists. exists e. split; [done|].
    by apply andb_true_iff in Hhit as [? _].
  - split; [done|]. split.
    + intros e He. apply elem_of_app. by left.
    + rewrite existsb_app. apply orb_true_iff. right.
      cbn [existsb]. unfold links. cbn [edge_src edge_tgt edge_type].
      by rewrite !Nat.eqb_refl.
Qed.

Lemma for_rows_merge_supply now rows s :
  nodes (for_rows (merge_supply now) rows s).1 = nodes s
  ∧ (∀ e, e ∈ edges s → e ∈ edges (for_rows (merge_supply now) rows s).1)
  ∧ (∀ ab, ab ∈ rows →
       existsb (supply_link ab) (edges (for_rows (merge_supply now) rows s).1) = true).
Proof.
  revert s. induction rows as [|r rows IH]; intros s.
  - cbn. split; [done|]. split; [done|]. intros ab Hab. by apply elem_of_nil in Hab.
  - cbn [for_rows].
    destruct (merge_supply_spec now r s) as (N1 & E1 & L1).
    destruct (merge_supply now r s) as [s1 xs]. cbn [fst] in *.
    destruct (IH s1) as (N2 & E2 & L2).
    destruct (for_rows (merge_supply now) rows s1) as [s2 ys]. cbn [fst] in *.
    split; [congruence|]. split; [by auto|].
    intros ab Hab. apply elem_of_cons in Hab as [->|Hab]; [|by auto].
    by apply (existsb_mono _ (edges s1)).
Qed.

Lemma supply_query_spec src tgt now s :
  ∃ s', supply_query src tgt now s = inr (s', [])
        ∧ nodes s' = nodes s
        ∧ (∀ e, e ∈ edges s → e ∈ edges s')
        ∧ (∀ ab, ab ∈ match_pairs src tgt s → existsb (supply_link ab) (edges s') = true).
Proof.
  eexists. split; [reflexivity|]. apply for_rows_merge_supply.
Qed.

(** The statements of a batch, run in order: the nodes stay, edges are
    only added, and every pair of nodes a requested pair of names matches
    is linked at the end. *)
Lemma run_all_supply srv n pairs s :
  nodes (run_all srv n (supply_queries pairs) s) = nodes s
  ∧ (∀ e, e ∈ edges s → e ∈ edges (run_all srv n (supply_queries pairs) s))
  ∧ (∀ pair, pair ∈ pairs →
       ∀ ab, ab ∈ match_pairs (VStr pair.1) (VStr pair.2) s →
         existsb (supply_link ab) (edges (run_all srv n (supply_queries pairs) s)) = true).
Proof.
  revert n s. induction pairs as [|sc pairs IH]; intros n s.
  - cbn. split; [done|]. split; [done|]. intros pair H. by apply elem_of_nil in H.
  - cbn [supply_queries map run_all]. fold (supply_queries pairs).
    destruct (supply_query_spec (VStr sc.1) (VStr sc.2) (clock srv n) s)
      as (s1 & -> & N1 & E1 & L1).
    destruct (IH (S n) s1) as (N2 & E2 & L2).
    split; [congruence|]. split; [by auto|].
    intros pair Hpair ab Hab. apply elem_of_cons in Hpair as [->|Hpair].
    + apply (existsb_mono _ (edges s1)); auto.
    + apply (L2 pair Hpair). by rewrite (match_pairs_nodes _ _ s1 s).
Qed.

Section TransactionFacts.

Variable srv : server.

(** A transaction function that returns has run every statement in
    order. *)
Lemma tx_function_returns queries w results w' :
  tx_function srv queries w = (inr results, w') →
  w_store w' = run_all srv (w_tick w) queries (w_store w).
Proof.
  revert w results w'. induction queries as [|query rest IH]; intros w results w'.
  - cbn. by intros [= _ <-].
  - cbn [tx_function run_all]. unfold run. unfold_client.
    destruct (faults srv (w_tick w)); [done|].
    destruct (query (clock srv (w_tick w)) (w_store w)) as [e|[s1 records]]; [done|].
    destruct (tx_function srv rest _) as [[e|rs] w1] eqn:E; [done|].
    intros [= _ <-]. by apply IH in E.
Qed.

End TransactionFacts.

(** ** Managed transactions *)

Section AttemptFacts.

Variable srv : server.

(** What the transaction function does is one attempt. *)
Lemma tx_function_attempt queries w :
  match attempt srv (w_tick w) queries (w_store w) with
  | inr (s', results) =>
      tx_function srv queries w
      = (inr results, advance (length queries) (set_store s' w))
  | inl (e, i) =>
      (i < length queries)%nat
      ∧ ∃ s1, tx_function srv queries w = (inl e, advance (S i) (set_store s1 w))
  end.
Proof.
  revert w. induction queries as [|query rest IH]; intros w.
  - cbn. f_equal. destruct w. unfold advance, set_store. cbn. by rewrite Nat.add_0_r.
  - cbn [attempt tx_function length]. unfold run. unfold_client.
    destruct (faults srv (w_tick w)) as [e|].
    { split; [lia|]. exists (w_store w). f_equal.
      destruct w. unfold advance, set_store, next_tick. cbn. f_equal. lia. }
    destruct (query (clock srv (w_tick w)) (w_store w)) as [e|[s1 records]].
    { split; [lia|]. exists (w_store w). f_equal.
      destruct w. unfold advance, set_store, next_tick. cbn. f_equal. lia. }
    specialize (IH (next_tick (set_store s1 w))).
    cbn [w_tick w_store next_tick set_store] in IH.
    destruct (attempt srv (S (w_tick w)) rest s1) as [[e i]|[s2 results]].
    + destruct IH as (Hi & s3 & ->). split; [lia|]. exists s3. f_equal.
      unfold advance, set_store. cbn. f_equal. lia.
    + rewrite IH. f_equal. unfold advance, set_store. cbn. f_equal. lia.
Qed.

(** An attempt that runs through has run every statement in order and
    has one list of records for each. *)
Lemma attempt_run_all n queries s s' results :
  attempt srv n queries s = inr (s', results) →
  s' = run_all srv n queries s ∧ length results = length queries.
Proof.
  revert n s results. induction queries as [|query rest IH]; intros n s results.
  - cbn. by intros [= <- <-].
  - cbn [attempt run_all].
    destruct (faults srv n); [done|].
    destruct (query (clock srv n) s) as [e|[s1 records]]; [done|].
    destruct (attempt srv (S n) rest s1) as [[e i]|[s2 rs]] eqn:E; [done|].
    intros [= <- <-]. destruct (IH _ _ _ E) as [-> Hl]. cbn. by rewrite Hl.
Qed.

(** With no fault from the server the supply statements run through. *)
Lemma attempt_supply_ok pairs n s :
  (∀ i, (i < length pairs)%nat → faults srv (n + i) = None) →
  ∃ s' results, attempt srv n (supply_queries pairs) s = inr (s', results).
Proof.
  revert n s. induction pairs as [|sc pairs IH]; intros n s Hok.
  - by eexists _, _.
  - cbn [supply_queries map attempt]. fold (supply_queries pairs).
    pose proof (Hok 0%nat ltac:(cbn; lia)) as H0.
    rewrite Nat.add_0_r in H0. rewrite H0.
    destruct (supply_query_spec (VStr sc.1) (VStr sc.2) (clock srv n) s)
      as (s1 & -> & _).
    destruct (IH (S n) s1) as (s2 & rs & ->).
    { intros i Hi. replace (S n + i)%nat with (n + S i)%nat by lia.
      apply Hok. cbn. lia. }
    by eexists _, _.
Qed.

Lemma retry_time_first (t : Q) :
  Qlt_bool max_transaction_retry_time (t - t) = false.
Proof.
  destruct (Qlt_bool _ _) eqn:E; [|done].
  apply Qlt_bool_iff in E. unfold max_transaction_retry_time in E.
  assert (H : (t - t == 0)%Q) by apply Qplus_opp_r.
  rewrite H in E. by compute in E.
Qed.

(** A managed transaction ends with an attempt made on the store as it
    was: it returns what that attempt returns, or raises what it raises,
    the store rolled back.  When an attempt submits at most [k]
    statements, at most [retries * k] statements come before the last
    attempt. *)
Lemma run_transaction_last {A} (f : M A) (k : nat) retries t0 w :
  (∀ w0 r w1, f w0 = (r, w1) → (w_tick w0 ≤ w_tick w1 ≤ w_tick w0 + k)%nat) →
  ∃ w0, w_store w0 = w_store w
        ∧ (w_tick w ≤ w_tick w0 ≤ w_tick w + retries * k)%nat
        ∧ match f w0 with
          | (inr a, w1) => run_transaction srv retries t0 f w = (inr a, w1)
          | (inl e, w1) =>
              run_transaction srv retries t0 f w = (inl e, set_store (w_store w) w1)
          end.
Proof.
  intros Hmono. revert t0 w. induction retries as [|retries IH]; intros t0 w.
  - exists w. split; [done|]. split; [lia|]. cbn [run_transaction].
    destruct (f w) as [[e|a] w1]; [|done].
    destruct (retryable e); [|done]. by destruct (Qlt_bool _ _).
  - cbn [run_transaction]. destruct (f w) as [[e|a] w1] eqn:E.
    2:{ exists w. rewrite E. split; [done|]. split; [lia|done]. }
    destruct (retryable e).
    2:{ exists w. rewrite E. split; [done|]. split; [lia|done]. }
    destruct (Qlt_bool _ _).
    { exists w. rewrite E. split; [done|]. split; [lia|done]. }
    destruct (IH (Some (default (timer srv (w_tick w1)) t0)) (set_store (w_store w) w1))
      as (w0 & Hs & Ht & H).
    exists w0. split; [done|]. split.
    { apply Hmono in E. cbn [w_tick set_store] in Ht. lia. }
    done.
Qed.

(** The first attempt decides when it returns, or raises an error that is
    not retryable. *)
Lemma execute_write_first {A} (f : M A) w r w1 :
  f w = (r, w1) →
  match r with
  | inr a => True
  | inl e => retryable e = false
  end →
  execute_write srv f w
  = match r with
    | inr a => (inr a, w1)
    | inl e => (inl e, set_store (w_store w) w1)
    end.
Proof.
  intros E H. unfold execute_write. cbn [run_transaction]. rewrite E.
  destruct r as [e|a]; [|done]. by rewrite H.
Qed.

(** A first attempt that fails on a retryable error is followed by a
    second one, whatever the timer reads. *)
Lemma execute_write_second {A} (f : M A) w e w1 r w2 :
  f w = (inl e, w1) → retryable e = true →
  f (set_store (w_store w) w1) = (r, w2) →
  match r with
  | inr a => True
  | inl e' => retryable e' = false
  end →
  execute_write srv f w
  = match r with
    | inr a => (inr a, w2)
    | inl e' => (inl e', set_store (w_store w) w2)
    end.
Proof.
  intros E He E2 H. unfold execute_write. cbn [run_transaction]. rewrite E, He.
  cbn [default from_option id]. rewrite retry_time_first, E2.
  destruct r as [e'|a]; [|done]. by rewrite H.
Qed.

Lemma tx_function_tick queries w r w' :
  tx_function srv queries w = (r, w') →
  (w_tick w ≤ w_tick w' ≤ w_tick w + length queries)%nat.
Proof.
  intros E. pose proof (tx_function_attempt queries w) as H.
  destruct (attempt srv (w_tick w) queries (w_store w)) as [[e i]|[s' rs]].
  - destruct H as (Hi & s1 & H). rewrite H in E. injection E as _ <-. cbn. lia.
  - rewrite H in E. injection E as _ <-. cbn. lia.
Qed.

(** [execute_write_transaction] ends with an attempt made on the store as
    it was before the call, the seventh at the latest. *)
Lemma execute_write_transaction_last queries w :
  ∃ n, (w_tick w ≤ n ≤ w_tick w + 6 * length queries)%nat
       ∧ match attempt srv n queries (w_store w) with
         | inr (s', results) =>
             outcome (execute_write_transaction srv queries) w = inr results
             ∧ w_store (after (execute_write_transaction srv queries) w) = s'
             ∧ w_tick (after (execute_write_transaction srv queries) w)
               = (n + length queries)%nat
         | inl (e, i) =>
             (i < length queries)%nat
             ∧ outcome (execute_write_transaction srv queries) w = inl e
             ∧ w_store (after (execute_write_transaction srv queries) w) = w_store w
             ∧ w_tick (after (execute_write_transaction srv queries) w)
               = (n + S i)%nat
         end.
Proof.
  destruct (run_transaction_last (tx_function srv queries) (length queries) 6 None w
              (tx_function_tick queries)) as (w0 & Hs & Ht & H).
  exists (w_tick w0). split; [done|].
  pose proof (tx_function_attempt queries w0) as Hat. rewrite Hs in Hat.
  unfold outcome, after, execute_write_transaction, execute_write. unfold_client.
  destruct (attempt srv (w_tick w0) queries (w_store w)) as [[e i]|[s' rs]].
  - destruct Hat as (Hi & s1 & Hat). rewrite Hat in H. rewrite H.
    split; [done|]. by destruct (is_neo4j_error e).
  - rewrite Hat in H. by rewrite H.
Qed.

(** What the first attempt, and after a retryable error the second,
    decide. *)
Lemma execute_write_transaction_first queries w :
  match attempt srv (w_tick w) queries (w_store w) with
  | inr (s', results) =>
      outcome (execute_write_transaction srv queries) w = inr results
      ∧ w_store (after (execute_write_transaction srv queries) w) = s'
      ∧ w_tick (after (execute_write_transaction srv queries) w)
        = (w_tick w + length queries)%nat
  | inl (e, i) =>
      if retryable e then
        match attempt srv (w_tick w + S i) queries (w_store w) with
        | inr (s', results) =>
            outcome (execute_write_transaction srv queries) w = inr results
            ∧ w_store (after (execute_write_transaction srv queries) w) = s'
            ∧ w_tick (after (execute_write_transaction srv queries) w)
              = (w_tick w + S i + length queries)%nat
        | inl (e', i') =>
            retryable e' = false →
            outcome (execute_write_transaction srv queries) w = inl e'
            ∧ w_store (after (execute_write_transaction srv queries) w) = w_store w
            ∧ w_tick (after (execute_write_transaction srv queries) w)
              = (w_tick w + S i + S i')%nat
        end
      else
        outcome (execute_write_transaction srv queries) w = inl e
        ∧ w_store (after (execute_write_transaction srv queries) w) = w_store w
        ∧ w_tick (after (execute_write_transaction srv queries) w)
          = (w_tick w + S i)%nat
  end.
Proof.
  pose proof (tx_function_attempt queries w) as Hat.
  unfold outcome, after, execute_write_transaction. unfold_client.
  destruct (attempt srv (w_tick w) queries (w_store w)) as [[e i]|[s' rs]].
  - destruct Hat as (Hi & s1 & Hat).
    destruct (retryable e) eqn:He.
    + pose proof (tx_function_attempt queries
                    (set_store (w_store w) (advance (S i) (set_store s1 w)))) as Hat2.
      cbn [w_tick w_store set_store advance] in Hat2.
      destruct (attempt srv (w_tick w + S i) queries (w_store w)) as [[e' i']|[s' rs]].
      * destruct Hat2 as (Hi' & s2 & Hat2). intros He'.
        rewrite (execute_write_second _ _ _ _ _ _ Hat He Hat2 He').
        by destruct (is_neo4j_error e').
      * by rewrite (execute_write_second _ _ _ _ _ _ Hat He Hat2 I).
    + rewrite (execute_write_first _ _ _ _ Hat He).
      by destruct (is_neo4j_error e).
  - by rewrite (execute_write_first _ _ _ _ Hat I).
Qed.

End AttemptFacts.

(** What [create_supply_chain_relationships] returns and leaves is
    decided by the last attempt of its transaction, and by the first one
    when the server refuses none of its statements. *)
Lemma create_supply_chain_relationships_last srv pairs w :
  ∃ n, (w_tick w ≤ n ≤ w_tick w + 6 * length pairs)%nat
       ∧ match attempt srv n (supply_queries pairs) (w_store w) with
         | inr (s', _) =>
             outcome (create_supply_chain_relationships srv pairs) w
             = inr {[ "relationships_created" := VInt (Z.of_nat (length pairs));
                      "status" := VStr "SUCCESS" ]}
             ∧ w_store (after (create_supply_chain_relationships srv pairs) w) = s'
         | inl (e, _) =>
             outcome (create_supply_chain_relationships srv pairs) w
             = inr {[ "status" := VStr "ERROR"; "error" := VStr (exn_msg e) ]}
             ∧ w_store (after (create_supply_chain_relationships srv pairs) w)
               = w_store w
         end.
Proof.
  destruct (execute_write_transaction_last srv (supply_queries pairs) w)
    as (n & Hn & H).
  exists n. split; [unfold supply_queries in Hn; by rewrite length_map in Hn|].
  unfold outcome, after, create_supply_chain_relationships in *. unfold_client.
  destruct (execute_write_transaction srv (supply_queries pairs) w) as [[e|rs] w1];
    cbn [fst snd] in *;
    destruct (attempt srv n (supply_queries pairs) (w_store w)) as [[e' i]|[s' rs']].
  - destruct H as (_ & [= ->] & Hs & _). done.
  - by destruct H as ([=] & _).
  - by destruct H as (_ & [=] & _).
  - destruct H as (_ & Hs & _). done.
Qed.

Lemma create_supply_chain_relationships_first srv pairs w :
  (∀ i, (i < length pairs)%nat → faults srv (w_tick w + i) = None) →
  outcome (create_supply_chain_relationships srv pairs) w
  = inr {[ "relationships_created" := VInt (Z.of_nat (length pairs));
           "status" := VStr "SUCCESS" ]}
  ∧ w_store (after (create_supply_chain_relationships srv pairs) w)
    = run_all srv (w_tick w) (supply_queries pairs) (w_store w).
Proof.
  intros Hok.
  destruct (attempt_supply_ok srv pairs (w_tick w) (w_store w) Hok) as (s' & rs & E).
  pose proof (execute_write_transaction_first srv (supply_queries pairs) w) as H.
  rewrite E in H. destruct H as (Hr & Hs & _).
  apply attempt_run_all in E as [<- _].
  unfold outcome, after, create_supply_chain_relationships in *. unfold_client.
  destruct (execute_write_transaction srv (supply_queries pairs) w) as [[e|rs'] w1];
    cbn [fst snd] in *; [done|]. done.
Qed.

(** C6, as the code has it.  [create_supply_chain_relationships] runs its
    statements in the order of the pairs inside one transaction, and either
    the transaction is rolled back, the store is as it was and the [ERROR]
    dictionary is returned, or it commits and the status returned is
    [SUCCESS].  On commit the store is what the statements, run in order
    in one attempt, make of the store as it was: every pair whose two names
    match nodes has its edge between them, no node is added and no edge
    removed; a pair with a name that matches no node is a statement without
    effect, which does not fail the batch.  With no fault during the first
    attempt it commits what that attempt did. *)
Theorem supply_chain_batch_commits_or_rolls_back srv pairs w :
  let r := outcome (create_supply_chain_relationships srv pairs) w in
  let s' := w_store (after (create_supply_chain_relationships srv pairs) w) in
  (((∃ e, r = inr {[ "status" := VStr "ERROR"; "error" := VStr (exn_msg e) ]})
    ∧ s' = w_store w)
   ∨ ((∃ d, r = inr d ∧ d !! "status" = Some (VStr "SUCCESS"))
      ∧ (∃ n, (w_tick w ≤ n)%nat
              ∧ s' = run_all srv n (supply_queries pairs) (w_store w))
      ∧ nodes s' = nodes (w_store w)
      ∧ (∀ e, e ∈ edges (w_store w) → e ∈ edges s')
      ∧ (∀ pair, pair ∈ pairs →
           ∀ ab, ab ∈ match_pairs (VStr pair.1) (VStr pair.2) (w_store w) →
             existsb (supply_link ab) (edges s') = true)))
  ∧ ((∀ i, (i < length pairs)%nat → faults srv (w_tick w + i) = None) →
     (∃ d, r = inr d ∧ d !! "status" = Some (VStr "SUCCESS"))
     ∧ s' = run_all srv (w_tick w) (supply_queries pairs) (w_store w))
  ∧ (∀ src tgt now s,
       match_pairs src tgt s = [] → supply_query src tgt now s = inr (s, [])).
Proof.
  intros r s'. subst r s'.
  assert (Hd : ∃ d : dict,
             inr (B:=dict) (A:=exn)
               {[ "relationships_created" := VInt (Z.of_nat (length pairs));
                  "status" := VStr "SUCCESS" ]} = inr d
             ∧ d !! "status" = Some (VStr "SUCCESS")).
  { eexists. split; [reflexivity|]. by rewrite lookup_insert_ne, lookup_singleton_eq. }
  split; [|split].
  - destruct (create_supply_chain_relationships_last srv pairs w) as (n & Hn & H).
    destruct (attempt srv n (supply_queries pairs) (w_store w))
      as [[e i]|[s1 rs]] eqn:E.
    + left. destruct H as [-> ->]. split; [by exists e|done].
    + right. destruct H as [-> ->]. apply attempt_run_all in E as [-> _].
      destruct (run_all_supply srv n pairs (w_store w)) as (N & Ed & L).
      split; [done|]. split; [exists n; split; [lia|done]|]. done.
  - intros Hok.
    destruct (create_supply_chain_relationships_first srv pairs w Hok) as [-> ->].
    done.
  - intros. by apply supply_query_no_rows.
Qed.

(** C6, as stated, fails: of the two pairs requested on a store that holds
    [ARM Holdings] and [MediaTek] but no [Qualcomm Inc], the first is
    supplied after the call and the second is not. *)
Lemma supply_chain_partial_batch :
  ¬ all_or_nothing
      [("ARM Holdings", "MediaTek"); ("ARM Holdings", "Qualcomm Inc")]
      (w_store (after (create_supply_chain_relationships steady
                         [("ARM Holdings", "MediaTek");
                          ("ARM Holdings", "Qualcomm Inc")]) two_companies)).
Proof. intros [H|H]; vm_compute in H; discriminate H. Qed.

(** The same call reports both pairs as created. *)
Example supply_chain_partial_batch_report :
  outcome (create_supply_chain_relationships steady
             [("ARM Holdings", "MediaTek"); ("ARM Holdings", "Qualcomm Inc")])
          two_companies
  = inr {[ "relationships_created" := VInt 2; "status" := VStr "SUCCESS" ]}.
Proof. vm_compute. reflexivity. Qed.

(** ** Relationships: one edge per triple *)

(** At an instant no stored edge carries as [created_date], the [MERGE]
    of the supply statement matches nothing and adds an edge, whatever
    edges the pair already has. *)
Lemma merge_supply_new_instant now ab s :
  Forall (λ e, prop (edge_props e) "created_date" ≠ VDateTime now) (edges s) →
  ∃ e, edges (merge_supply now ab s).1 = edges s ++ [e] ∧ supply_link ab e = true.
Proof.
  intros Hnew. unfold merge_supply. destruct ab as [a b].
  destruct (existsb _ (edges s)) eqn:E; cbn [fst edges].
  - exfalso. apply existsb_exists in E as (e & He & Hhit).
    apply andb_true_iff in Hhit as [_ Hpat].
    unfold matches_pattern, supply_pattern in Hpat. cbn [forallb fst snd] in Hpat.
    apply andb_true_iff in Hpat as [Hdate _].
    rewrite Forall_forall in Hnew. apply list_elem_of_In in He.
    apply (Hnew e He).
    unfold prop_matches in Hdate.
    destruct (prop (edge_props e) "created_date") as [| | | | |t]; try discriminate.
    cbn in Hdate. destruct (t =? now) eqn:Et; [|discriminate].
    apply Z.eqb_eq in Et. by subst.
  - eexists. split; [reflexivity|].
    unfold supply_link, links. cbn [fst snd edge_src edge_tgt edge_type].
    by rewrite !Nat.eqb_refl.
Qed.

(** C4 against the code: at an instant that no stored edge carries as
    [created_date], the statement of [create_supply_chain_relationships]
    adds an edge for a pair of nodes whatever edges they already have; so
    run twice on the same pair, at two instants of the server's clock, it
    leaves two [SUPPLY_COMPONENTS] edges between the pair, the first with
    its properties as created. *)
Theorem supply_chain_rerun_duplicates_edge :
  (∀ now ab s,
     Forall (λ e, prop (edge_props e) "created_date" ≠ VDateTime now) (edges s) →
     ∃ e, edges (merge_supply now ab s).1 = edges s ++ [e] ∧ supply_link ab e = true)
  ∧ let w1 := after (create_supply_chain_relationships steady
                       [("ARM Holdings", "MediaTek")]) two_companies in
    let w2 := after (create_supply_chain_relationships steady
                       [("ARM Holdings", "MediaTek")]) w1 in
    length (edges_between "SUPPLY_COMPONENTS" "ARM Holdings" "MediaTek" (w_store w1))
    = 1%nat
    ∧ length (edges_between "SUPPLY_COMPONENTS" "ARM Holdings" "MediaTek" (w_store w2))
      = 2%nat
    ∧ map (λ e, prop (edge_props e) "created_date")
          (edges_between "SUPPLY_COMPONENTS" "ARM Holdings" "MediaTek" (w_store w2))
      = [VDateTime 1700000001; VDateTime 1700000002].
Proof.
  split.
  - intros. by apply merge_supply_new_instant.
  - vm_compute. done.
Qed.

(** [create_relationship], whose [MERGE] pattern carries no property, run
    twice on the same pair leaves one edge. *)
Example create_relationship_rerun_one_edge :
  let rel := {| source_name := "ARM Holdings"; target_name := "MediaTek";
                relationship_type := "COMPETES_WITH";
                properties := {[ "strength" := VFloat (8 # 10) ]} |} in
  let w1 := after (create_relationship steady rel) two_companies in
  let w2 := after (create_relationship steady rel) w1 in
  length (edges_between "COMPETES_WITH" "ARM Holdings" "MediaTek" (w_store w2)) = 1%nat.
Proof. vm_compute. reflexivity. Qed.

(** * Further properties *)

(** ** Property maps under [+=] *)

Lemma prop_add_props (m ps : gmap string value) k :
  prop (add_props m ps) k
  = match m !! k with Some v => v | None => prop ps k end.
Proof.
  unfold add_props.
  apply (map_fold_weak_ind
           (λ r m', prop r k = match m' !! k with Some v => v | None => prop ps k end)).
  - by rewrite lookup_empty.
  - intros i x m' r Hi IH. destruct (decide (i = k)) as [->|Hne].
    + by rewrite prop_set_prop_eq, lookup_insert_eq.
    + by rewrite prop_set_prop_ne, lookup_insert_ne.
Qed.

Lemma prop_empty k : prop ∅ k = VNull.
Proof. unfold prop. by rewrite lookup_empty. Qed.

(** ** [create_relationship] with both endpoints present *)

Lemma links_key ty a b e :
  links ty a b e = true ↔ edge_key e = (node_id a, node_id b, ty).
Proof.
  unfold links, edge_key. rewrite !andb_true_iff, !Nat.eqb_eq, String.eqb_eq.
  split; [intros [[-> ->] ->]; done | intros [= -> -> ->]; done].
Qed.

Lemma named_name nm n : named (VStr nm) n = true → prop (node_props n) "name" = VStr nm.
Proof.
  unfold named, prop_matches. intros H. apply andb_true_iff in H as [_ H].
  destruct (prop (node_props n) "name") as [| | | |s|]; try discriminate.
  cbn in H. destruct (String.eqb s nm) eqn:E; [|discriminate].
  apply String.eqb_eq in E. by subst.
Qed.

Section RelationshipFacts.

Variable srv : server.

Lemma create_relationship_spec rel w :
  create_relationship srv rel w
  = match faults srv (w_tick w) with
    | Some e => (inr (status_error e), next_tick w)
    | None =>
        let so := for_rows (merge_relationship (relationship_type rel)
                              (properties rel) (clock srv (w_tick w)))
                    (match_pairs (VStr (source_name rel)) (VStr (target_name rel))
                                 (w_store w))
                    (w_store w) in
        (inr (match so.2 with
              | r :: _ => {[ "source" := prop (node_props r.1.1) "name";
                             "target" := prop (node_props r.1.2) "name";
                             "relationship_type" := VStr (edge_type r.2) ]}
              | [] => status_failed
              end),
         counted (next_tick (set_store so.1 w)))
    end.
Proof.
  unfold create_relationship. unfold_client.
  rewrite await_execute_query_body, execute_query_body_spec.
  destruct (faults srv (w_tick w)); [done|].
  unfold relationship_query.
  destruct (for_rows _ _ (w_store w)) as [s' out]. by destruct out.
Qed.

End RelationshipFacts.

(** X1. First creation.  When the server runs the statement, the two
    names match exactly one node each, and no edge of the type joins them
    yet, [create_relationship] adds exactly one edge from the source to the
    target, of the requested type; the edge carries [created_date], set to
    the instant of the statement even when the supplied properties name a
    [created_date] of their own, and otherwise exactly the supplied
    properties; the record returned names the two endpoints and the
    type. *)
Theorem create_relationship_first_creation srv rel w a b :
  faults srv (w_tick w) = None →
  match_pairs (VStr (source_name rel)) (VStr (target_name rel)) (w_store w) = [(a, b)] →
  existsb (links (relationship_type rel) a b) (edges (w_store w)) = false →
  ∃ e,
    edges (w_store (after (create_relationship srv rel) w)) = edges (w_store w) ++ [e]
    ∧ nodes (w_store (after (create_relationship srv rel) w)) = nodes (w_store w)
    ∧ edge_key e = (node_id a, node_id b, relationship_type rel)
    ∧ (∀ k, prop (edge_props e) k
            = if decide (k = "created_date") then VDateTime (clock srv (w_tick w))
              else prop (properties rel) k)
    ∧ outcome (create_relationship srv rel) w
      = inr {[ "source" := VStr (source_name rel);
               "target" := VStr (target_name rel);
               "relationship_type" := VStr (relationship_type rel) ]}.
Proof.
  intros Hok Hrows Hnew.
  assert (Ha : named (VStr (source_name rel)) a = true
               ∧ named (VStr (target_name rel)) b = true).
  { assert (Hin : (a, b) ∈ match_pairs (VStr (source_name rel))
                                        (VStr (target_name rel)) (w_store w))
      by (rewrite Hrows; left).
    unfold match_pairs in Hin.
    apply list_elem_of_bind in Hin as (a' & Hin & Ha').
    apply list_elem_of_bind in Hin as (b' & Hin & Hb').
    apply list_elem_of_singleton in Hin. injection Hin as -> ->.
    apply list_elem_of_filter in Ha' as [Ha' _].
    apply list_elem_of_filter in Hb' as [Hb' _]. done. }
  destruct Ha as [Ha Hb].
  unfold after, outcome. rewrite create_relationship_spec, Hok, Hrows.
  cbn [for_rows merge_relationship]. rewrite Hnew. cbn.
  eexists. split; [reflexivity|]. split; [done|]. split; [done|]. split.
  - intros k. cbn [edge_props].
    change (<["created_date" := VDateTime (clock srv (w_tick w))]>
              (add_props (properties rel) ∅))
      with (set_prop "created_date" (VDateTime (clock srv (w_tick w)))
              (add_props (properties rel) ∅)).
    case_decide as Hk.
    + subst. apply prop_set_prop_eq.
    + rewrite prop_set_prop_ne by done.
      rewrite prop_add_props, prop_empty. unfold prop.
      by destruct (properties rel !! k).
  - by rewrite (named_name _ _ Ha), (named_name _ _ Hb).
Qed.

Lemma create_relationship_first_creation_witness :
  map (λ e, (edge_key e, prop (edge_props e) "created_date",
             prop (edge_props e) "strength"))
      (edges (w_store (after (create_relationship steady competes) two_companies)))
  = [((0%nat, 1%nat, "COMPETES_WITH"), VDateTime 1700000001, VFloat (8 # 10))].
Proof.
  destruct (create_relationship_first_creation steady competes two_companies
              (node_at two_companies 0) (node_at two_companies 1)
              eq_refl ltac:(vm_compute; reflexivity) ltac:(vm_compute; reflexivity))
    as (e & He & _ & Hk & Hp & _).
  rewrite He.
  replace (edges (w_store two_companies)) with ([] : list edge)
    by (vm_compute; reflexivity).
  cbn [map app]. rewrite Hk, !Hp. reflexivity.
Defined.

(** X2. Merge.  When the server runs the statement, the two names match
    exactly one node each and edges of the type already join them,
    [create_relationship] adds and removes nothing: every such edge keeps
    its identity and has the supplied properties written over its own
    ([null] removing), [last_updated] set to the instant of the statement,
    and every property the call does not name kept; all other edges are
    untouched. *)
Theorem create_relationship_merges_properties srv rel w a b :
  faults srv (w_tick w) = None →
  match_pairs (VStr (source_name rel)) (VStr (target_name rel)) (w_store w) = [(a, b)] →
  existsb (links (relationship_type rel) a b) (edges (w_store w)) = true →
  let s' := w_store (after (create_relationship srv rel) w) in
  nodes s' = nodes (w_store w)
  ∧ length (edges s') = length (edges (w_store w))
  ∧ ∀ i e, edges (w_store w) !! i = Some e →
      ∃ e', edges s' !! i = Some e'
            ∧ edge_id e' = edge_id e ∧ edge_key e' = edge_key e
            ∧ (edge_key e ≠ (node_id a, node_id b, relationship_type rel) → e' = e)
            ∧ (edge_key e = (node_id a, node_id b, relationship_type rel) →
               ∀ k, prop (edge_props e') k
                    = if decide (k = "last_updated")
                      then VDateTime (clock srv (w_tick w))
                      else match properties rel !! k with
                           | Some v => v
                           | None => prop (edge_props e) k
                           end).
Proof.
  intros Hok Hrows Hhit s'. subst s'.
  unfold after. rewrite create_relationship_spec, Hok, Hrows.
  cbn [for_rows merge_relationship]. rewrite Hhit. cbn [fst snd set_store counted next_tick w_store nodes edges].
  split; [done|]. split; [by rewrite length_map|].
  intros i e Hi. rewrite list_lookup_fmap, Hi. cbn [fmap option_fmap option_map].
  eexists. split; [reflexivity|].
  destruct (links (relationship_type rel) a b e) eqn:El.
  - split; [done|]. split; [done|]. split.
    + intros Hne. apply links_key in El. contradiction.
    + intros _ k. cbn [edge_props edge_with_props]. case_decide as Hk.
      * subst. apply prop_set_prop_eq.
      * rewrite prop_set_prop_ne by done. apply prop_add_props.
  - split; [done|]. split; [done|]. split; [done|].
    intros Hkey. apply links_key in Hkey. congruence.
Qed.

Lemma create_relationship_merges_properties_witness :
  let rel := {| source_name := "ARM Holdings"; target_name := "MediaTek";
                relationship_type := "COMPETES_WITH";
                properties := {[ "strength" := VFloat (9 # 10) ]} |} in
  ∃ e', edges (w_store (after (create_relationship steady rel) two_rivals)) !! 0%nat
        = Some e'
        ∧ prop (edge_props e') "strength" = VFloat (9 # 10)
        ∧ prop (edge_props e') "created_date" = VDateTime 1700000001
        ∧ prop (edge_props e') "last_updated" = VDateTime 1700000002.
Proof.
  intros rel.
  destruct (create_relationship_merges_properties steady rel
              two_rivals (node_at two_rivals 0) (node_at two_rivals 1)
              eq_refl ltac:(vm_compute; reflexivity) ltac:(vm_compute; reflexivity))
    as (_ & _ & H).
  destruct (H 0%nat (edge_at two_rivals 0) ltac:(vm_compute; reflexivity))
    as (e' & He' & _ & _ & _ & Hp).
  specialize (Hp ltac:(vm_compute; reflexivity)).
  exists e'. split; [exact He'|]. rewrite !Hp. repeat split; vm_compute; reflexivity.
Defined.

(** ** Invariants of the store *)

Lemma match_pairs_elem src tgt s a b :
  (a, b) ∈ match_pairs src tgt s → a ∈ nodes s ∧ b ∈ nodes s.
Proof.
  unfold match_pairs. intros Hin.
  apply list_elem_of_bind in Hin as (a' & Hin & Ha').
  apply list_elem_of_bind in Hin as (b' & Hin & Hb').
  apply list_elem_of_singleton in Hin. injection Hin as -> ->.
  apply list_elem_of_filter in Ha' as [_ Ha'].
  apply list_elem_of_filter in Hb' as [_ Hb']. done.
Qed.

(** A clause that keeps the nodes and a property of the store, run for
    rows of nodes of the store, keeps both. *)
Lemma for_rows_preserves {X} (P : store → Prop)
    (step : node * node → store → store * list X) rows s :
  (∀ r s0, r.1 ∈ nodes s0 → r.2 ∈ nodes s0 → P s0 →
     P (step r s0).1 ∧ nodes (step r s0).1 = nodes s0) →
  (∀ r, r ∈ rows → r.1 ∈ nodes s ∧ r.2 ∈ nodes s) →
  P s →
  P (for_rows step rows s).1 ∧ nodes (for_rows step rows s).1 = nodes s.
Proof.
  intros Hstep. revert s. induction rows as [|r rows IH]; intros s Hrows HP; [done|].
  cbn [for_rows].
  destruct (Hrows r ltac:(left)) as [Ha Hb].
  destruct (Hstep r s Ha Hb HP) as [HP1 HN1].
  destruct (step r s) as [s1 xs]. cbn [fst] in *.
  destruct (IH s1) as [HP2 HN2]; [|done|].
  { intros r' Hr'. rewrite HN1. apply Hrows. by right. }
  destruct (for_rows step rows s1) as [s2 ys]. cbn [fst] in *.
  split; [done|congruence].
Qed.

Lemma merge_relationship_nodes ty props now ab s :
  nodes (merge_relationship ty props now ab s).1 = nodes s.
Proof.
  unfold merge_relationship. destruct ab as [a b].
  by destruct (existsb (links ty a b) (edges s)).
Qed.

Lemma merge_supply_nodes now ab s : nodes (merge_supply now ab s).1 = nodes s.
Proof. apply merge_supply_spec. Qed.

(** *** Identifiers *)

Lemma well_formed_empty : well_formed empty_store.
Proof. repeat split; constructor. Qed.

Lemma well_formed_same_shape s s' :
  node_ids s' = node_ids s →
  map edge_id (edges s') = map edge_id (edges s) →
  map (λ e, (edge_src e, edge_tgt e)) (edges s')
  = map (λ e, (edge_src e, edge_tgt e)) (edges s) →
  next_id s' = next_id s →
  well_formed s → well_formed s'.
Proof.
  intros Hn He Hst Hx (W1 & W2 & W3 & W4 & W5).
  assert (W3' : Forall (λ i, (i < next_id s)%nat) (node_ids s))
    by (unfold node_ids; by apply Forall_fmap).
  assert (W4' : Forall (λ i, (i < next_id s)%nat) (map edge_id (edges s)))
    by (by apply Forall_fmap).
  assert (W5' : Forall (λ st : nat * nat, st.1 ∈ node_ids s ∧ st.2 ∈ node_ids s)
                       (map (λ e, (edge_src e, edge_tgt e)) (edges s)))
    by (by apply Forall_fmap).
  unfold well_formed. rewrite Hn, He, Hx.
  split; [done|]. split; [done|]. split.
  { rewrite <- Hn in W3'. unfold node_ids in W3'. by apply Forall_fmap in W3'. }
  split.
  { rewrite <- He in W4'. by apply Forall_fmap in W4'. }
  rewrite <- Hst in W5'. by apply Forall_fmap in W5'.
Qed.

Lemma Forall_lt_fresh (l : list nat) (x : nat) :
  Forall (λ i, (i < x)%nat) l → (x ∉ l) ∧ Forall (λ i, (i < S x)%nat) l.
Proof.
  intros H. split.
  - intros Hin. rewrite Forall_forall in H. specialize (H _ Hin). lia.
  - eapply Forall_impl; [exact H|]. cbn. lia.
Qed.

(** Adding an edge with the next identifier between two nodes of the
    store. *)
Lemma well_formed_add_edge s e :
  edge_id e = next_id s → edge_src e ∈ node_ids s → edge_tgt e ∈ node_ids s →
  well_formed s →
  well_formed {| nodes := nodes s; edges := edges s ++ [e]; next_id := S (next_id s) |}.
Proof.
  intros Hid Hs Ht (W1 & W2 & W3 & W4 & W5).
  assert (W4' : Forall (λ i, (i < next_id s)%nat) (map edge_id (edges s)))
    by (by apply Forall_fmap).
  destruct (Forall_lt_fresh _ _ W4') as [Hfresh W4''].
  unfold well_formed, node_ids in *. cbn [nodes edges next_id].
  split; [done|]. split.
  { rewrite map_app. apply NoDup_app. split; [done|]. split.
    - intros x Hx Hx'. cbn in Hx'. apply list_elem_of_singleton in Hx'.
      subst. by rewrite Hid in Hx.
    - apply NoDup_singleton. }
  split.
  { eapply Forall_impl; [exact W3|]. cbn. lia. }
  split.
  { apply Forall_app. split.
    - eapply Forall_impl; [exact W4|]. cbn. lia.
    - apply Forall_singleton. lia. }
  apply Forall_app. split; [done|]. by apply Forall_singleton.
Qed.

Lemma well_formed_merge_node p created_by now ent s :
  well_formed s → well_formed (merge_node p created_by now ent s).1.
Proof.
  intros W. unfold merge_node.
  destruct (existsb (is_company p) (nodes s)); cbn [fst].
  - apply (well_formed_same_shape s); try done.
    unfold node_ids. cbn [nodes]. rewrite map_map. apply map_ext.
    intros n. by destruct (is_company p n).
  - destruct W as (W1 & W2 & W3 & W4 & W5).
    assert (W3' : Forall (λ i, (i < next_id s)%nat) (node_ids s))
      by (unfold node_ids; by apply Forall_fmap).
    destruct (Forall_lt_fresh _ _ W3') as [Hfresh W3''].
    unfold well_formed, node_ids in *. cbn [nodes edges next_id].
    rewrite map_app. cbn [map node_id].
    split.
    { apply NoDup_app. split; [done|]. split; [|apply NoDup_singleton].
      intros x Hx Hx'. apply list_elem_of_singleton in Hx'. by subst. }
    split; [done|]. split.
    { apply Forall_app. split.
      - eapply Forall_impl; [exact W3|]. cbn. lia.
      - apply Forall_singleton. cbn. lia. }
    split.
    { eapply Forall_impl; [exact W4|]. cbn. lia. }
    eapply Forall_impl; [exact W5|]. cbn. intros e [? ?].
    split; apply elem_of_app; by left.
Qed.

Lemma well_formed_upsert_all created_by now companies s :
  well_formed s → well_formed (upsert_all created_by now companies s).
Proof.
  revert s. induction companies as [|c cs IH]; intros s W; [done|].
  rewrite upsert_all_cons. apply IH. by apply well_formed_merge_node.
Qed.

Lemma well_formed_merge_relationship ty props now ab s :
  ab.1 ∈ nodes s → ab.2 ∈ nodes s → well_formed s →
  well_formed (merge_relationship ty props now ab s).1.
Proof.
  intros Ha Hb W. unfold merge_relationship. destruct ab as [a b]. cbn [fst snd] in *.
  destruct (existsb (links ty a b) (edges s)); cbn [fst].
  - apply (well_formed_same_shape s); try done; cbn [edges];
      rewrite map_map; apply map_ext; intros e; by destruct (links ty a b e).
  - apply well_formed_add_edge; try done; cbn;
      unfold node_ids; by apply list_elem_of_fmap_2.
Qed.

Lemma well_formed_merge_supply now ab s :
  ab.1 ∈ nodes s → ab.2 ∈ nodes s → well_formed s →
  well_formed (merge_supply now ab s).1.
Proof.
  intros Ha Hb W. unfold merge_supply. destruct ab as [a b]. cbn [fst snd] in *.
  destruct (existsb _ (edges s)); cbn [fst]; [done|].
  apply well_formed_add_edge; try done; cbn;
    unfold node_ids; by apply list_elem_of_fmap_2.
Qed.

(** *** The four methods keep what their statements keep *)

Section MethodsPreserve.

Variable srv : server.
Variable P : store → Prop.

Hypothesis P_merge_node :
  ∀ (p : Z) created_by now ent s, P s → P (merge_node (VInt p) created_by now ent s).1.
Hypothesis P_merge_relationship :
  ∀ ty props now ab s, ab.1 ∈ nodes s → ab.2 ∈ nodes s → P s →
    P (merge_relationship ty props now ab s).1.
Hypothesis P_merge_supply :
  ∀ now ab s, ab.1 ∈ nodes s → ab.2 ∈ nodes s → P s → P (merge_supply now ab s).1.

Lemma ingest_company_entity_preserves c w :
  P (w_store w) → P (w_store (after (ingest_company_entity srv c) w)).
Proof.
  intros HP. unfold after. rewrite ingest_company_entity_spec.
  destruct (faults srv (w_tick w)); [done|]. by apply P_merge_node.
Qed.

Lemma batch_ingest_companies_preserves companies w :
  P (w_store w) → P (w_store (after (batch_ingest_companies srv companies) w)).
Proof.
  intros HP. unfold after. destruct companies as [|c cs]; [done|].
  rewrite batch_ingest_companies_spec.
  destruct (faults srv (w_tick w)); [done|]. cbn [snd w_store counted next_tick set_store].
  generalize (c :: cs). intros l. revert HP. generalize (w_store w).
  induction l as [|x l IH]; intros s HP; [done|].
  rewrite upsert_all_cons. apply IH. by apply P_merge_node.
Qed.

Lemma create_relationship_preserves rel w :
  P (w_store w) → P (w_store (after (create_relationship srv rel) w)).
Proof.
  intros HP. unfold after. rewrite create_relationship_spec.
  destruct (faults srv (w_tick w)); [done|]. cbn [snd w_store counted next_tick set_store].
  apply for_rows_preserves; [| |done].
  - intros r s0 Ha Hb HP0. split; [by apply P_merge_relationship|].
    apply merge_relationship_nodes.
  - intros [a b] Hr. by apply match_pairs_elem in Hr.
Qed.

Lemma run_all_supply_preserves n pairs s :
  P s → P (run_all srv n (supply_queries pairs) s).
Proof.
  revert n s. induction pairs as [|sc pairs IH]; intros n s HP; [done|].
  cbn [supply_queries map run_all]. fold (supply_queries pairs).
  unfold supply_query at 1. apply IH.
  apply for_rows_preserves; [| |done].
  - intros r s0 Ha Hb HP0. split; [by apply P_merge_supply|].
    apply merge_supply_nodes.
  - intros [a b] Hr. by apply match_pairs_elem in Hr.
Qed.

Lemma create_supply_chain_relationships_store pairs w :
  w_store (after (create_supply_chain_relationships srv pairs) w) = w_store w
  ∨ ∃ n, w_store (after (create_supply_chain_relationships srv pairs) w)
         = run_all srv n (supply_queries pairs) (w_store w).
Proof.
  destruct (create_supply_chain_relationships_last srv pairs w) as (n & _ & H).
  destruct (attempt srv n (supply_queries pairs) (w_store w))
    as [[e i]|[s1 rs]] eqn:E.
  - left. by destruct H as [_ ->].
  - right. exists n. destruct H as [_ ->]. by apply attempt_run_all in E as [-> _].
Qed.

Lemma create_supply_chain_relationships_preserves pairs w :
  P (w_store w) → P (w_store (after (create_supply_chain_relationships srv pairs) w)).
Proof.
  intros HP.
  destruct (create_supply_chain_relationships_store pairs w) as [-> | [n ->]];
    [done|]. by apply run_all_supply_preserves.
Qed.

End MethodsPreserve.

(** X3. Whatever the server does, each of the four methods leaves a store
    that is well formed when it was: identifiers of nodes and of edges stay
    distinct and below the next identifier, and every edge starts and ends
    at a node of the store (no method leaves a dangling edge). *)
Theorem methods_keep_store_well_formed srv w :
  well_formed (w_store w) →
  (∀ c, well_formed (w_store (after (ingest_company_entity srv c) w)))
  ∧ (∀ companies, well_formed (w_store (after (batch_ingest_companies srv companies) w)))
  ∧ (∀ rel, well_formed (w_store (after (create_relationship srv rel) w)))
  ∧ (∀ pairs,
       well_formed (w_store (after (create_supply_chain_relationships srv pairs) w))).
Proof.
  intros W. split; [|split; [|split]]; intros.
  - apply ingest_company_entity_preserves; [|done].
    intros. by apply well_formed_merge_node.
  - apply batch_ingest_companies_preserves; [|done].
    intros. by apply well_formed_merge_node.
  - apply create_relationship_preserves; [|done].
    intros. by apply well_formed_merge_relationship.
  - apply create_supply_chain_relationships_preserves; [|done].
    intros. by apply well_formed_merge_supply.
Qed.

Lemma methods_keep_store_well_formed_witness :
  well_formed (w_store (after (create_relationship steady competes) two_companies)).
Proof.
  assert (W : well_formed (w_store two_companies)).
  { apply (proj1 (proj2 (methods_keep_store_well_formed steady fresh well_formed_empty))). }
  exact (proj1 (proj2 (proj2 (methods_keep_store_well_formed steady two_companies W)))
               competes).
Defined.

(** *** One node for a [permid] *)

Lemma permid_unique_nodes s s' : nodes s' = nodes s → permid_unique s → permid_unique s'.
Proof. unfold permid_unique, company_nodes. by intros ->. Qed.

(** X4. Whatever the server does, each of the four methods leaves at most
    one [Company] node for every [permid] when the store had at most one:
    the upserts never add a second node for a key, and the relationship
    methods add no node at all. *)
Theorem methods_keep_permid_unique srv w :
  permid_unique (w_store w) →
  (∀ c, permid_unique (w_store (after (ingest_company_entity srv c) w)))
  ∧ (∀ companies, permid_unique (w_store (after (batch_ingest_companies srv companies) w)))
  ∧ (∀ rel, permid_unique (w_store (after (create_relationship srv rel) w)))
  ∧ (∀ pairs,
       permid_unique (w_store (after (create_supply_chain_relationships srv pairs) w))).
Proof.
  intros U. split; [|split; [|split]]; intros.
  - apply ingest_company_entity_preserves; [|done].
    intros p cb now ent s Hs q. by apply merge_node_keeps_unique.
  - apply batch_ingest_companies_preserves; [|done].
    intros p cb now ent s Hs q. by apply merge_node_keeps_unique.
  - apply create_relationship_preserves; [|done].
    intros ty props now ab s _ _. apply permid_unique_nodes, merge_relationship_nodes.
  - apply create_supply_chain_relationships_preserves; [|done].
    intros now ab s _ _. apply permid_unique_nodes, merge_supply_nodes.
Qed.

Lemma methods_keep_permid_unique_witness :
  permid_unique (w_store two_companies).
Proof.
  refine (proj1 (proj2 (methods_keep_permid_unique steady fresh _)) _).
  intros p. vm_compute. lia.
Defined.

(** *** One edge for a triple *)

Lemma merge_relationship_one_edge ty props now ab s :
  one_edge_per_triple s → one_edge_per_triple (merge_relationship ty props now ab s).1.
Proof.
  unfold one_edge_per_triple, merge_relationship. destruct ab as [a b]. intros Hs.
  destruct (existsb (links ty a b) (edges s)) eqn:E; cbn [fst edges].
  - rewrite map_map.
    replace (map _ (edges s)) with (map edge_key (edges s)); [done|].
    apply map_ext. intros e. by destruct (links ty a b e).
  - rewrite map_app. apply NoDup_app. split; [done|]. split; [|apply NoDup_singleton].
    intros k Hk Hk'. cbn in Hk'. apply list_elem_of_singleton in Hk'. subst k.
    apply list_elem_of_fmap in Hk as (e & He & Hin).
    assert (Hl : links ty a b e = true) by (apply links_key; by rewrite <- He).
    assert (existsb (links ty a b) (edges s) = true); [|congruence].
    apply existsb_exists. exists e. split; [by apply list_elem_of_In|done].
Qed.

(** X5. Whatever the server does, [ingest_company_entity],
    [batch_ingest_companies] and [create_relationship] leave at most one
    edge for every (source, target, type) triple when the store had at most
    one: [create_relationship] adds an edge only for a triple that has
    none. *)
Theorem create_relationship_keeps_one_edge_per_triple srv w :
  one_edge_per_triple (w_store w) →
  (∀ rel, one_edge_per_triple (w_store (after (create_relationship srv rel) w)))
  ∧ (∀ c, one_edge_per_triple (w_store (after (ingest_company_entity srv c) w)))
  ∧ (∀ companies,
       one_edge_per_triple (w_store (after (batch_ingest_companies srv companies) w))).
Proof.
  intros H1. split; [|split]; intros.
  - apply create_relationship_preserves; [|done].
    intros. by apply merge_relationship_one_edge.
  - apply ingest_company_entity_preserves; [|done].
    intros p cb now ent s Hs. unfold one_edge_per_triple. by rewrite merge_node_edges.
  - apply batch_ingest_companies_preserves; [|done].
    intros p cb now ent s Hs. unfold one_edge_per_triple. by rewrite merge_node_edges.
Qed.

Lemma create_relationship_keeps_one_edge_per_triple_witness :
  one_edge_per_triple
    (w_store (after (create_relationship steady competes) two_rivals)).
Proof.
  refine (proj1 (create_relationship_keeps_one_edge_per_triple steady two_rivals _)
                competes).
  refine (proj1 (create_relationship_keeps_one_edge_per_triple steady two_companies _)
                competes).
  vm_compute. constructor.
Defined.

(** ** Write transactions *)


(** A batch whose second statement the server refuses once, as busy, is
    run again from its first statement and commits: four statements are
    submitted for the two of the batch, and the store is that of the
    second attempt alone. *)
Example transient_fault_is_retried :
  outcome (create_supply_chain_relationships (busy_at 2)
             [("ARM Holdings", "MediaTek"); ("MediaTek", "ARM Holdings")]) two_companies
  = inr {[ "relationships_created" := VInt 2; "status" := VStr "SUCCESS" ]}
  ∧ w_tick (after (create_supply_chain_relationships (busy_at 2)
                     [("ARM Holdings", "MediaTek"); ("MediaTek", "ARM Holdings")])
                  two_companies) = 5%nat
  ∧ map (λ e, prop (edge_props e) "created_date")
        (edges (w_store (after (create_supply_chain_relationships (busy_at 2)
                     [("ARM Holdings", "MediaTek"); ("MediaTek", "ARM Holdings")])
                  two_companies)))
    = [VDateTime 1700000003; VDateTime 1700000004].
Proof. vm_compute. done. Qed.

(** A server that is never available: the attempts stop once the timer
    has passed 30 seconds since the first failure, here at the fifth, the
    [ERROR] result carries the message, and the store is untouched. *)
Example unavailable_server_gives_up :
  outcome (create_supply_chain_relationships down [("ARM Holdings", "MediaTek")])
          two_companies
  = inr {[ "status" := VStr "ERROR"; "error" := VStr "down" ]}
  ∧ w_tick (after (create_supply_chain_relationships down
                     [("ARM Holdings", "MediaTek")]) two_companies) = 6%nat
  ∧ w_store (after (create_supply_chain_relationships down
                      [("ARM Holdings", "MediaTek")]) two_companies)
    = w_store two_companies.
Proof. vm_compute. done. Qed.

(** ** The consistency checks *)

Lemma run_check_spec srv count w :
  run_check srv count w
  = (inr (match faults srv (w_tick w) with
          | Some e => VStr ("ERROR: " ++ exn_msg e)
          | None => VInt (Z.of_nat (count (w_store w)))
          end),
     match faults srv (w_tick w) with
     | Some _ => next_tick w
     | None => counted (next_tick w)
     end).
Proof.
  unfold run_check. unfold_client.
  rewrite await_execute_query_body, execute_query_body_spec.
  destruct (faults srv (w_tick w)); [done|].
  unfold count_query_of, dict_get. by rewrite lookup_singleton_eq.
Qed.

Lemma run_checks_spec srv checks results w :
  NoDup (map fst checks) →
  ∃ d, outcome (run_checks srv checks results) w = inr d
       ∧ w_store (after (run_checks srv checks results) w) = w_store w
       ∧ w_tick (after (run_checks srv checks results) w)
         = (w_tick w + length checks)%nat
       ∧ (∀ k, k ∉ map fst checks → d !! k = results !! k)
       ∧ ∀ i check_name count, checks !! i = Some (check_name, count) →
           d !! check_name
           = Some (match faults srv (w_tick w + i) with
                   | Some e => VStr ("ERROR: " ++ exn_msg e)
                   | None => VInt (Z.of_nat (count (w_store w)))
                   end).
Proof.
  revert results w. induction checks as [|[name count] rest IH]; intros results w Hnd.
  - exists results. cbn. repeat split; try lia; done.
  - apply NoDup_cons in Hnd as [Hname Hnd]. cbn [map fst] in Hname.
    unfold outcome, after in *. cbn [run_checks]. unfold mbind, M_bind.
    rewrite run_check_spec.
    set (v := match faults srv (w_tick w) with
              | Some e => VStr ("ERROR: " ++ exn_msg e)
              | None => VInt (Z.of_nat (count (w_store w)))
              end).
    set (w1 := match faults srv (w_tick w) with
               | Some _ => next_tick w
               | None => counted (next_tick w)
               end).
    assert (Hs1 : w_store w1 = w_store w ∧ w_tick w1 = S (w_tick w)).
    { unfold w1. by destruct (faults srv (w_tick w)). }
    destruct Hs1 as [Hs1 Ht1].
    destruct (IH (<[name := v]> results) w1 Hnd) as (d & Hd & Hst & Htk & Hout & Hin).
    exists d. split; [exact Hd|]. split; [congruence|]. split.
    { rewrite Htk, Ht1. cbn [length]. lia. }
    split.
    { intros k Hk. cbn [map fst] in Hk. apply not_elem_of_cons in Hk as [Hk1 Hk2].
      rewrite (Hout k Hk2). by rewrite lookup_insert_ne. }
    intros i check_name c Hi. destruct i as [|i].
    + cbn in Hi. injection Hi as <- <-. rewrite (Hout name Hname).
      rewrite lookup_insert_eq, Nat.add_0_r. done.
    + cbn in Hi. rewrite (Hin i check_name c Hi), Ht1, Hs1.
      by replace (S (w_tick w) + i)%nat with (w_tick w + S i)%nat by lia.
Qed.

(** X7. Whatever the server does, [validate_graph_consistency] raises
    nothing, leaves the store as it was, submits its five queries, and
    returns a dictionary with exactly the five check names; each entry is
    the count its query gives on the store, or the string ["ERROR: ..."]
    with the message of the error of that query alone: a failed check does
    not disturb the others. *)
Theorem validate_graph_consistency_reports srv w :
  ∃ d, outcome (validate_graph_consistency srv) w = inr d
       ∧ w_store (after (validate_graph_consistency srv) w) = w_store w
       ∧ w_tick (after (validate_graph_consistency srv) w) = (w_tick w + 5)%nat
       ∧ dom d = list_to_set (map fst validation_counts)
       ∧ ∀ i check_name count, validation_counts !! i = Some (check_name, count) →
           d !! check_name
           = Some (match faults srv (w_tick w + i) with
                   | Some e => VStr ("ERROR: " ++ exn_msg e)
                   | None => VInt (Z.of_nat (count (w_store w)))
                   end).
Proof.
  destruct (run_checks_spec srv validation_counts ∅ w) as (d & Hd & Hs & Ht & Hout & Hin).
  { apply (bool_decide_unpack _). by vm_compute. }
  exists d. split; [exact Hd|]. split; [exact Hs|]. split; [exact Ht|].
  split; [|exact Hin].
  apply set_eq. intros k. rewrite elem_of_dom, elem_of_list_to_set. split.
  - intros [v Hv]. destruct (decide (k ∈ map fst validation_counts)); [done|].
    rewrite Hout in Hv by done. by rewrite lookup_empty in Hv.
  - intros Hk. apply list_elem_of_fmap in Hk as ([name count] & -> & Hk).
    apply list_elem_of_lookup in Hk as [i Hi]. cbn [fst].
    rewrite (Hin i name count Hi). by eexists.
Qed.

Lemma same_group_int (a b : Z) : same_group (VInt a) (VInt b) = bool_decide (a = b).
Proof.
  unfold same_group. rewrite cypher_eq_int. by case_bool_decide.
Qed.

Lemma existsb_same_group_int (z : Z) (l : list Z) :
  existsb (same_group (VInt z)) (map VInt l) = bool_decide (z ∈ l).
Proof.
  induction l as [|x l IH].
  - cbn. by rewrite bool_decide_eq_false_2 by apply not_elem_of_nil.
  - cbn [map existsb]. rewrite same_group_int, IH.
    destruct (decide (z = x)) as [->|Hne].
    + rewrite (bool_decide_eq_true_2 (x = x)) by done.
      rewrite (bool_decide_eq_true_2 (x ∈ x :: l)) by left. done.
    + rewrite (bool_decide_eq_false_2 (z = x)) by done. cbn.
      apply bool_decide_ext. rewrite elem_of_cons.
      split; [by right|intros [?|?]; done].
Qed.

Lemma filter_eq_absent (v : Z) (zs : list Z) :
  v ∉ zs → filter (λ z, z = v) zs = [].
Proof.
  induction zs as [|z zs IH]; [done|]. intros Hv.
  apply not_elem_of_cons in Hv as [Hne Hv].
  rewrite filter_cons, decide_False by done. by apply IH.
Qed.

Lemma duplicate_groups_zero (seen zs : list Z) :
  duplicate_groups (map VInt seen) (map VInt zs) = 0%nat
  ↔ ∀ v, v ∉ seen → (length (filter (λ z, z = v) zs) ≤ 1)%nat.
Proof.
  revert seen. induction zs as [|z zs IH]; intros seen.
  - cbn. split; [intros _ v _; lia|done].
  - cbn [map duplicate_groups is_null negb andb].
    change (VInt z :: map VInt seen) with (map VInt (z :: seen)).
    rewrite !existsb_same_group_int.
    split.
    + intros H v Hv.
      assert (H2 : duplicate_groups (map VInt (z :: seen)) (map VInt zs) = 0%nat) by lia.
      rewrite filter_cons. destruct (decide (z = v)) as [->|Hne].
      * cbn [length].
        assert (Hz : v ∉ zs).
        { intros Hin. rewrite (bool_decide_eq_false_2 (v ∈ seen)) in H by done.
          rewrite (bool_decide_eq_true_2 (v ∈ zs)) in H by done. cbn in H. lia. }
        rewrite filter_eq_absent by done. cbn. lia.
      * apply (proj1 (IH (z :: seen)) H2). rewrite not_elem_of_cons. by split.
    + intros H.
      assert (H2 : duplicate_groups (map VInt (z :: seen)) (map VInt zs) = 0%nat).
      { apply IH. intros v Hv. apply not_elem_of_cons in Hv as [Hvz Hv].
        specialize (H v Hv). rewrite filter_cons, decide_False in H by done. done. }
      rewrite H2, Nat.add_0_r.
      destruct (decide (z ∈ seen)) as [Hs|Hs].
      { by rewrite (bool_decide_eq_true_2 (z ∈ seen)). }
      rewrite (bool_decide_eq_false_2 (z ∈ seen)) by done. cbn [negb].
      rewrite bool_decide_eq_false_2; [done|].
      intros Hin. specialize (H z Hs). rewrite filter_cons, decide_True in H by done.
      cbn [length] in H.
      assert (z ∈ filter (λ x, x = z) zs) as Hf by (by apply list_elem_of_filter).
      destruct (filter (λ x, x = z) zs); [by apply elem_of_nil in Hf|cbn in H; lia].
Qed.

Lemma integer_permids_keys ns :
  Forall (λ n, labelled_company n = true → ∃ z, prop (node_props n) "permid" = VInt z) ns →
  map (λ n, prop (node_props n) "permid") (filter (λ n, labelled_company n = true) ns)
  = map VInt (map int_permid (filter (λ n, labelled_company n = true) ns)).
Proof.
  induction 1 as [|n ns Hn Hns IH]; [done|].
  rewrite filter_cons. destruct (decide (labelled_company n = true)) as [Hl|Hl]; [|done].
  cbn [map]. rewrite IH. destruct (Hn Hl) as [z Hz]. unfold int_permid. by rewrite Hz.
Qed.

Lemma integer_permids_count (p : Z) ns :
  Forall (λ n, labelled_company n = true → ∃ z, prop (node_props n) "permid" = VInt z) ns →
  length (filter (λ n, is_company (VInt p) n = true) ns)
  = length (filter (λ z, z = p)
                   (map int_permid (filter (λ n, labelled_company n = true) ns))).
Proof.
  induction 1 as [|n ns Hn Hns IH]; [done|].
  rewrite (filter_cons (λ n, labelled_company n = true)).
  destruct (decide (labelled_company n = true)) as [Hl|Hl].
  - destruct (Hn Hl) as [z Hz].
    assert (E : is_company (VInt p) n = bool_decide (z = p)).
    { unfold is_company. fold (labelled_company n). rewrite Hl.
      unfold prop_matches. rewrite Hz, cypher_eq_int. by case_bool_decide. }
    assert (Ez : int_permid n = z) by (unfold int_permid; by rewrite Hz).
    cbn [map]. rewrite Ez, !filter_cons.
    destruct (decide (z = p)) as [->|Hne].
    + rewrite decide_True by (rewrite E; by apply bool_decide_eq_true_2).
      cbn [length]. by rewrite IH.
    + rewrite decide_False; [done|].
      rewrite E. by rewrite bool_decide_eq_false_2.
  - rewrite filter_cons, decide_False; [done|].
    unfold is_company. fold (labelled_company n).
    apply not_true_is_false in Hl. by rewrite Hl.
Qed.

(** X8. On a store whose [Company] nodes carry integer [permid]s, the
    [duplicate_permids] query of [validate_graph_consistency] counts 0
    exactly when no two [Company] nodes share a [permid]. *)
Theorem duplicate_permids_zero_iff_unique s :
  integer_permids s → (duplicate_permids s = 0%nat ↔ permid_unique s).
Proof.
  intros Hint. unfold duplicate_permids, permid_unique, company_nodes.
  rewrite (integer_permids_keys _ Hint).
  change (@nil value) with (map VInt []).
  rewrite duplicate_groups_zero. split.
  - intros H p. rewrite (integer_permids_count p _ Hint). apply H, not_elem_of_nil.
  - intros H v _. rewrite <- (integer_permids_count v _ Hint). apply H.
Qed.

(** *** What the client writes passes its own checks *)

Lemma clean_empty : clean empty_store.
Proof.
  split; [constructor|]. split; [|constructor].
  intros p. cbn. lia.
Qed.

Lemma clean_passes_checks s : clean s → passes_checks s.
Proof.
  intros (Hint & Hu & Hd). split; [|split].
  - unfold companies_without_permid.
    assert (filter (λ n, labelled_company n
                         && is_null (prop (node_props n) "permid") = true) (nodes s) = [])
      as ->; [|done].
    unfold integer_permids in Hint.
    induction Hint as [|n ns Hn Hns IH]; [done|].
    rewrite filter_cons, decide_False; [done|].
    destruct (labelled_company n) eqn:E; [|done].
    destruct (Hn eq_refl) as [z ->]. done.
  - by apply duplicate_permids_zero_iff_unique.
  - unfold relationships_without_dates.
    assert (filter (λ e, is_null (prop (edge_props e) "created_date") = true) (edges s) = [])
      as ->; [|done].
    unfold all_dated in Hd.
    induction Hd as [|e es He Hes IH]; [done|].
    rewrite filter_cons, decide_False; [done|].
    by destruct (prop (edge_props e) "created_date").
Qed.

Lemma integer_permids_merge_node (p : Z) created_by now ent s :
  integer_permids s → integer_permids (merge_node (VInt p) created_by now ent s).1.
Proof.
  unfold integer_permids, merge_node. intros H.
  destruct (existsb (is_company (VInt p)) (nodes s)); cbn [fst nodes].
  - apply Forall_fmap. eapply Forall_impl; [exact H|].
    intros n Hn. unfold compose. cbn beta. destruct (is_company (VInt p) n); [|done].
    unfold labelled_company, has_label in *. cbn [node_labels node_props with_props].
    intros Hl. destruct (Hn Hl) as [z Hz]. exists z.
    by rewrite prop_on_match_other.
  - apply Forall_app. split; [done|]. apply Forall_singleton. intros _. exists p.
    cbn [node_props]. unfold on_create. rewrite !prop_set_prop_ne by done.
    unfold prop. by rewrite lookup_singleton_eq.
Qed.

Lemma clean_merge_node (p : Z) created_by now ent s :
  clean s → clean (merge_node (VInt p) created_by now ent s).1.
Proof.
  intros (Hint & Hu & Hd). split; [by apply integer_permids_merge_node|].
  split; [intros q; by apply merge_node_keeps_unique|].
  unfold all_dated. by rewrite merge_node_edges.
Qed.

Lemma clean_same_nodes s s' :
  nodes s' = nodes s → all_dated s' → clean s → clean s'.
Proof.
  intros Hn Hd' (Hint & Hu & _). split; [|split; [|done]].
  - unfold integer_permids. by rewrite Hn.
  - by apply (permid_unique_nodes s).
Qed.

Lemma all_dated_merge_supply now ab s :
  all_dated s → all_dated (merge_supply now ab s).1.
Proof.
  unfold all_dated, merge_supply. destruct ab as [a b]. intros H.
  destruct (existsb _ (edges s)); cbn [fst edges]; [done|].
  apply Forall_app. split; [done|]. apply Forall_singleton. by vm_compute.
Qed.

Lemma all_dated_merge_relationship ty props now ab s :
  props !! "created_date" ≠ Some VNull →
  all_dated s → all_dated (merge_relationship ty props now ab s).1.
Proof.
  unfold all_dated, merge_relationship. destruct ab as [a b]. intros Hp H.
  destruct (existsb (links ty a b) (edges s)); cbn [fst edges].
  - apply Forall_fmap. eapply Forall_impl; [exact H|]. intros e He.
    unfold compose. cbn beta.
    destruct (links ty a b e); [|done]. cbn [edge_props edge_with_props].
    rewrite prop_set_prop_ne by done. rewrite prop_add_props.
    destruct (props !! "created_date") as [v|]; [|done]. intros ->. done.
  - apply Forall_app. split; [done|]. apply Forall_singleton. cbn [edge_props].
    by rewrite prop_set_prop_eq.
Qed.

(** X9. The client's writes pass the client's checks.  On a store whose
    [Company] nodes carry integer [permid]s, one node for each, and whose
    relationships all carry a [created_date], each of the four methods,
    whatever the server does, leaves a store on which the queries
    [companies_without_permid], [duplicate_permids] and
    [relationships_without_dates] of [validate_graph_consistency] count 0;
    for [create_relationship] this needs that the supplied properties do
    not set [created_date] to [None], which would remove the date of an
    existing relationship. *)
Theorem client_writes_pass_checks srv w :
  clean (w_store w) →
  (∀ c, passes_checks (w_store (after (ingest_company_entity srv c) w)))
  ∧ (∀ companies, passes_checks (w_store (after (batch_ingest_companies srv companies) w)))
  ∧ (∀ pairs,
       passes_checks (w_store (after (create_supply_chain_relationships srv pairs) w)))
  ∧ (∀ rel, properties rel !! "created_date" ≠ Some VNull →
       passes_checks (w_store (after (create_relationship srv rel) w))).
Proof.
  intros C. split; [|split; [|split]]; intros; apply clean_passes_checks.
  - apply ingest_company_entity_preserves; [|done]. intros. by apply clean_merge_node.
  - apply batch_ingest_companies_preserves; [|done]. intros. by apply clean_merge_node.
  - apply create_supply_chain_relationships_preserves; [|done].
    intros now ab s _ _ Hs. apply (clean_same_nodes s); [|..|done].
    + apply merge_supply_nodes.
    + apply all_dated_merge_supply, Hs.
  - unfold after. rewrite create_relationship_spec.
    destruct (faults srv (w_tick w)); [done|].
    cbn [snd w_store counted next_tick set_store].
    apply for_rows_preserves; [| |done].
    + intros r s0 _ _ Hs. split; [|apply merge_relationship_nodes].
      apply (clean_same_nodes s0); [apply merge_relationship_nodes| |done].
      apply all_dated_merge_relationship; [done|apply Hs].
    + intros [a b] Hr. by apply match_pairs_elem in Hr.
Qed.

Lemma clean_two_companies : clean (w_store two_companies).
Proof.
  apply (batch_ingest_companies_preserves steady clean); [|apply clean_empty].
  intros. by apply clean_merge_node.
Qed.

Lemma client_writes_pass_checks_witness :
  passes_checks (w_store (after (create_relationship steady competes) two_companies)).
Proof.
  exact (proj2 (proj2 (proj2 (client_writes_pass_checks steady two_companies
                                clean_two_companies)))
               competes ltac:(vm_compute; discriminate)).
Defined.

Lemma duplicate_permids_zero_iff_unique_witness :
  duplicate_permids (w_store two_companies) = 0%nat ↔ permid_unique (w_store two_companies).
Proof.
  exact (duplicate_permids_zero_iff_unique (w_store two_companies)
           (proj1 clean_two_companies)).
Defined.

(** A [created_date] of [None] among the properties removes the date of
    the relationship it is merged into, and the check finds the
    relationship from both of its ends. *)
Example create_relationship_erases_date :
  relationships_without_dates
    (w_store (after (create_relationship steady
                       {| source_name := "ARM Holdings"; target_name := "MediaTek";
                          relationship_type := "COMPETES_WITH";
                          properties := {[ "created_date" := VNull ]} |})
                    two_rivals))
  = 2%nat.
Proof. vm_compute. reflexivity. Qed.


(** * The WIKIDATA ingester *)

(** ** One entity for each label *)

Lemma fold_dedup_step (l : list Wikidata.WikidataEntity) acc seen :
  (fold_left Wikidata.dedup_step l (acc, seen)).1 = acc ++ Wikidata.fresh_labels seen l.
Proof.
  revert acc seen. induction l as [|e l IH]; intros acc seen.
  - cbn. by rewrite app_nil_r.
  - cbn [fold_left Wikidata.fresh_labels Wikidata.dedup_step].
    destruct (decide (Wikidata.label e ∈ seen)); [apply IH|].
    rewrite IH, <- app_assoc. done.
Qed.

Lemma fresh_labels_sublist seen l : Wikidata.fresh_labels seen l `sublist_of` l.
Proof.
  revert seen. induction l as [|e l IH]; intros seen; cbn; [constructor|].
  destruct (decide (Wikidata.label e ∈ seen)).
  - apply sublist_cons, IH.
  - apply sublist_skip, IH.
Qed.

Lemma fresh_labels_unseen seen l e :
  e ∈ Wikidata.fresh_labels seen l → Wikidata.label e ∉ seen.
Proof.
  revert seen. induction l as [|a l IH]; intros seen; cbn.
  - by intros ?%elem_of_nil.
  - destruct (decide (Wikidata.label a ∈ seen)); [apply IH|].
    intros [->|H]%elem_of_cons; [done|].
    apply IH in H. set_solver.
Qed.

Lemma fresh_labels_NoDup seen l :
  NoDup (Wikidata.label <$> Wikidata.fresh_labels seen l).
Proof.
  revert seen. induction l as [|a l IH]; intros seen; cbn; [constructor|].
  destruct (decide (Wikidata.label a ∈ seen)); [apply IH|].
  rewrite fmap_cons. constructor; [|apply IH].
  intros (e & He & Hin)%list_elem_of_fmap.
  apply fresh_labels_unseen in Hin. set_solver.
Qed.

Lemma fresh_labels_covers seen l e :
  e ∈ l → Wikidata.label e ∉ seen →
  Wikidata.label e ∈ (Wikidata.label <$> Wikidata.fresh_labels seen l).
Proof.
  revert seen. induction l as [|a l IH]; intros seen; cbn.
  - by intros ?%elem_of_nil.
  - intros [->|H]%elem_of_cons Hun.
    + rewrite decide_False by done. rewrite fmap_cons. left.
    + destruct (decide (Wikidata.label a ∈ seen)); [by apply IH|].
      rewrite fmap_cons.
      destruct (decide (Wikidata.label e = Wikidata.label a)) as [->|Hne]; [left|].
      right. apply IH; [done|].
      intros [?|?%elem_of_singleton]%elem_of_union; done.
Qed.

Lemma fresh_labels_first seen l e :
  e ∈ Wikidata.fresh_labels seen l →
  head (filter (λ x, Wikidata.label x = Wikidata.label e) l) = Some e.
Proof.
  revert seen. induction l as [|a l IH]; intros seen; cbn [Wikidata.fresh_labels].
  - by intros ?%elem_of_nil.
  - rewrite filter_cons.
    destruct (decide (Wikidata.label a ∈ seen)) as [Ha|Ha].
    + intros H. pose proof (fresh_labels_unseen _ _ _ H) as Hun.
      rewrite decide_False by (intros E; rewrite E in Ha; done).
      by apply IH in H.
    + intros [->|H]%elem_of_cons.
      * by rewrite decide_True.
      * pose proof (fresh_labels_unseen _ _ _ H) as Hun.
        rewrite decide_False by (intros E; apply Hun; rewrite <- E; set_solver).
        by apply IH in H.
Qed.

(** X10. The loop of [run_wikidata_ingestion_pipeline] that removes
    duplicates keeps, for every label among the entities found, exactly
    the first entity that carries it: the entities kept have pairwise
    distinct labels, they are entities of the input in the input's order,
    every label of the input is still there, and each entity kept is the
    first of the input with its label. *)
Theorem unique_entities_first_of_each_label (all_entities : list Wikidata.WikidataEntity) :
  NoDup (Wikidata.label <$> Wikidata.unique_entities all_entities)
  ∧ Wikidata.unique_entities all_entities `sublist_of` all_entities
  ∧ (∀ e, e ∈ all_entities →
       Wikidata.label e ∈ (Wikidata.label <$> Wikidata.unique_entities all_entities))
  ∧ (∀ e, e ∈ Wikidata.unique_entities all_entities →
       head (filter (λ x, Wikidata.label x = Wikidata.label e) all_entities) = Some e).
Proof.
  unfold Wikidata.unique_entities. rewrite fold_dedup_step, app_nil_l.
  split; [apply fresh_labels_NoDup|].
  split; [apply fresh_labels_sublist|].
  split.
  - intros e He. apply fresh_labels_covers; [done|]. set_solver.
  - intros e. apply fresh_labels_first.
Qed.

(** ** Texts *)

Lemma append_cons (x : ascii) (a b : string) : String x a +:+ b = String x (a +:+ b).
Proof. reflexivity. Qed.

Lemma append_nil (b : string) : "" +:+ b = b.
Proof. reflexivity. Qed.

Lemma append_assoc (a b c : string) : (a +:+ b) +:+ c = a +:+ b +:+ c.
Proof.
  induction a as [|x a IH]; [done|]. by rewrite !append_cons, IH.
Qed.

Lemma prefix_app (n q : string) : String.prefix n (n +:+ q) = true.
Proof.
  induction n as [|a n IH]; [by destruct q|].
  rewrite append_cons. cbn [String.prefix].
  destruct (ascii_dec a a); [done|congruence].
Qed.

Lemma prefix_app_r (k a b : string) :
  String.prefix k a = true → String.prefix k (a +:+ b) = true.
Proof.
  revert a. induction k as [|x k IH]; intros a; [by destruct (a +:+ b)|].
  destruct a as [|y a]; [done|].
  rewrite append_cons. cbn [String.prefix].
  destruct (ascii_dec x y); [apply IH|done].
Qed.

Lemma contains_unfold (needle hay : string) :
  Wikidata.contains needle hay
  = String.prefix needle hay
    || match hay with
       | EmptyString => false
       | String _ rest => Wikidata.contains needle rest
       end.
Proof. by destruct hay. Qed.

Lemma contains_app_l (k a b : string) :
  Wikidata.contains k b = true → Wikidata.contains k (a +:+ b) = true.
Proof.
  intros H. induction a as [|x a IH]; [done|].
  rewrite append_cons, contains_unfold, IH. apply orb_true_r.
Qed.

Lemma contains_app_r (k a b : string) :
  Wikidata.contains k a = true → Wikidata.contains k (a +:+ b) = true.
Proof.
  induction a as [|x a IH]; rewrite contains_unfold.
  - rewrite orb_false_r. intros H. rewrite append_nil.
    rewrite contains_unfold. replace (String.prefix k b) with true; [done|].
    destruct k; [by destruct b|by destruct b].
  - intros [H|H]%orb_true_iff; rewrite contains_unfold.
    + by rewrite prefix_app_r.
    + rewrite append_cons, IH by done. apply orb_true_r.
Qed.

Lemma contains_app (p n q : string) : Wikidata.contains n (p +:+ n +:+ q) = true.
Proof.
  apply contains_app_l. by rewrite contains_unfold, prefix_app.
Qed.

Lemma all_chars_app cls (a b : string) :
  Wikidata.all_chars cls (a +:+ b) = Wikidata.all_chars cls a && Wikidata.all_chars cls b.
Proof.
  induction a as [|x a IH]; [done|].
  rewrite append_cons. cbn [Wikidata.all_chars]. by rewrite IH, andb_assoc.
Qed.

Lemma lower_app (a b : string) :
  Wikidata.lower (a +:+ b) = Wikidata.lower a +:+ Wikidata.lower b.
Proof.
  induction a as [|x a IH]; [done|].
  rewrite append_cons. cbn [Wikidata.lower]. by rewrite IH.
Qed.

(** ** The identifier of an entity *)

Lemma split_on_whole sep (s : string) :
  Wikidata.all_chars (λ c, negb (Ascii.eqb c sep)) s = true →
  Wikidata.split_on sep s = [s].
Proof.
  induction s as [|c s IH]; cbn; [done|].
  intros [Hc Hs]%andb_true_iff. apply negb_true_iff in Hc. rewrite Hc.
  by rewrite IH.
Qed.

Lemma split_on_last sep (p q : string) :
  Wikidata.all_chars (λ c, negb (Ascii.eqb c sep)) q = true →
  ∃ piece pieces,
    Wikidata.split_on sep (p +:+ String sep q) = piece :: pieces
    ∧ pieces ≠ [] ∧ List.last pieces "" = q.
Proof.
  intros Hq. induction p as [|c p (piece & pieces & E & Hne & Hlast)];
    rewrite ?append_cons, ?append_nil; cbn [Wikidata.split_on].
  - rewrite Ascii.eqb_refl, split_on_whole by done. by exists "", [q].
  - rewrite E. destruct (Ascii.eqb c sep).
    + exists "", (piece :: pieces). split; [done|]. split; [done|].
      by destruct pieces.
    + by exists (String c piece), pieces.
Qed.

(** X11. [_extract_wikidata_id] gives back the identifier of an entity
    URI: for a binding whose value is any text ending in
    [wikidata.org/entity/] followed by an identifier without a slash, the
    result is that identifier. *)
Theorem extract_wikidata_id_of_entity_uri (uri_data : gmap string string)
    (front qid : string) :
  uri_data !! "value" = Some (front +:+ "wikidata.org/entity/" +:+ qid) →
  Wikidata.all_chars (λ c, negb (Wikidata.is_slash c)) qid = true →
  Wikidata.extract_wikidata_id uri_data = qid.
Proof.
  intros Hv Hq. unfold Wikidata.extract_wikidata_id. rewrite Hv. cbn [default from_option id].
  rewrite contains_app.
  change ("wikidata.org/entity/" +:+ qid)
    with ("wikidata.org/entity" +:+ String "/" qid).
  rewrite <- append_assoc.
  destruct (split_on_last "/" (front +:+ "wikidata.org/entity") qid Hq)
    as (piece & pieces & -> & Hne & Hlast).
  by destruct pieces.
Qed.

Lemma extract_wikidata_id_of_entity_uri_witness :
  Wikidata.extract_wikidata_id {[ "value" := "http://www.wikidata.org/entity/Q312" ]}
  = "Q312".
Proof.
  exact (extract_wikidata_id_of_entity_uri
           {[ "value" := "http://www.wikidata.org/entity/Q312" ]}
           "http://www." "Q312" eq_refl eq_refl).
Defined.

(** ** Final assemblers *)

Lemma is_final_assembler_keyword (self : Wikidata.WikidataEntity) (keyword : string) :
  keyword ∈ Wikidata.final_assembler_keywords →
  Wikidata.contains keyword
    (Wikidata.lower (default "" (Wikidata.description self)) +:+ " "
     +:+ Wikidata.lower (default "" (Wikidata.industry self))) = true →
  Wikidata.is_final_assembler self = true.
Proof.
  intros Hk Hc. unfold Wikidata.is_final_assembler.
  apply existsb_exists. exists keyword. split; [by apply list_elem_of_In|done].
Qed.

(** X12. [_is_final_assembler] finds a keyword whatever its case and in
    either field: when the description or the industry of an entity,
    lowered, contains one of the five keywords, the entity is a final
    assembler. *)
Theorem is_final_assembler_ignores_case (self : Wikidata.WikidataEntity)
    (keyword text : string) :
  keyword ∈ Wikidata.final_assembler_keywords →
  Wikidata.description self = Some text ∨ Wikidata.industry self = Some text →
  Wikidata.contains keyword (Wikidata.lower text) = true →
  Wikidata.is_final_assembler self = true.
Proof.
  intros Hk [H|H] Hc; apply (is_final_assembler_keyword self keyword Hk);
    rewrite H; cbn [default from_option id].
  - by apply contains_app_r.
  - by apply contains_app_l, contains_app_l.
Qed.

Lemma is_final_assembler_ignores_case_witness :
  Wikidata.is_final_assembler Wikidata.apple_record = true.
Proof.
  exact (is_final_assembler_ignores_case Wikidata.apple_record
           "consumer electronics" "Consumer Electronics"
           ltac:(apply (bool_decide_unpack _); vm_compute; reflexivity)
           ltac:(right; reflexivity) eq_refl).
Defined.

(** X13. The two fields are searched as one text with a blank between
    them, so a keyword of two words is also found across them: every
    entity whose description ends in [Mobile] and whose industry begins
    with [phone] is a final assembler, whatever else the two fields
    hold. *)
Theorem is_final_assembler_across_fields (label_text d i : string) :
  Wikidata.is_final_assembler
    (Wikidata.described label_text (d +:+ "Mobile") ("phone" +:+ i)) = true.
Proof.
  apply (is_final_assembler_keyword _ "mobile phone").
  - apply (bool_decide_unpack _). by vm_compute.
  - cbn [Wikidata.described Wikidata.description Wikidata.industry default from_option id].
    rewrite !lower_app.
    change (Wikidata.lower "Mobile") with "mobile".
    change (Wikidata.lower "phone") with "phone".
    rewrite (append_assoc (Wikidata.lower d) "mobile").
    change ("mobile" +:+ " " +:+ "phone" +:+ Wikidata.lower i)
      with ("mobile phone" +:+ Wikidata.lower i).
    apply contains_app.
Qed.

(** ** Revenue *)

Lemma remove_commas_keeps cls (s : string) :
  Wikidata.all_chars cls s = true →
  Wikidata.all_chars cls (Wikidata.remove_commas s) = true.
Proof.
  induction s as [|c s IH]; cbn; [done|].
  intros [Hc Hs]%andb_true_iff.
  destruct (Wikidata.is_comma c); cbn; [by apply IH|].
  by rewrite Hc, IH.
Qed.

Lemma remove_commas_no_comma (s : string) :
  Wikidata.all_chars (λ c, negb (Wikidata.is_comma c)) (Wikidata.remove_commas s) = true.
Proof.
  induction s as [|c s IH]; cbn; [done|].
  destruct (Wikidata.is_comma c) eqn:E; cbn; [done|]. by rewrite E, IH.
Qed.

Lemma search_digits_skip (front s : string) :
  Wikidata.all_chars (λ c, negb (Wikidata.is_digit c)) front = true →
  Wikidata.all_chars (λ c, negb (Wikidata.is_comma c)) front = true →
  Wikidata.search_digits (front +:+ s) = Wikidata.search_digits s.
Proof.
  induction front as [|c front IH]; [done|].
  cbn [Wikidata.all_chars].
  intros [Hd Hf]%andb_true_iff [Hc Hf']%andb_true_iff.
  rewrite append_cons. cbn [Wikidata.search_digits].
  apply negb_true_iff in Hd, Hc. rewrite Hd, Hc. cbn [orb]. by apply IH.
Qed.

Lemma search_digits_none (s : string) :
  Wikidata.all_chars (λ c, negb (Wikidata.is_digit c)) s = true →
  Wikidata.all_chars (λ c, negb (Wikidata.is_comma c)) s = true →
  Wikidata.search_digits s = None.
Proof.
  induction s as [|c s IH]; [done|].
  cbn [Wikidata.all_chars Wikidata.search_digits].
  intros [Hd Hs]%andb_true_iff [Hc Hs']%andb_true_iff.
  apply negb_true_iff in Hd, Hc. rewrite Hd, Hc. by apply IH.
Qed.

Lemma leading_run cls (run rest : string) :
  Wikidata.all_chars cls run = true →
  Wikidata.leading cls rest = "" →
  Wikidata.leading cls (run +:+ rest) = run.
Proof.
  intros Hr Hrest. induction run as [|c run IH]; [done|].
  cbn [Wikidata.all_chars] in Hr. apply andb_true_iff in Hr as [Hc Hr].
  rewrite append_cons. cbn [Wikidata.leading]. by rewrite Hc, IH.
Qed.

Lemma leading_weaken (cls cls' : ascii → bool) (rest : string) :
  Wikidata.leading cls rest = "" →
  Wikidata.all_chars (λ c, negb (cls' c)) rest = true →
  Wikidata.leading (λ c, cls c || cls' c) rest = "".
Proof.
  destruct rest as [|c rest]; [done|]. cbn.
  destruct (cls c); [done|]. intros _ [Hc _]%andb_true_iff.
  apply negb_true_iff in Hc. by rewrite Hc.
Qed.

Lemma number_from_last_snoc (l : list ascii) (c : ascii) :
  Wikidata.number_from_last (l ++ [c])
  = Wikidata.number_from_last l + 10 ^ Z.of_nat (length l) * Wikidata.digit_value c.
Proof.
  induction l as [|a l IH]; cbn [app Wikidata.number_from_last length].
  - cbn. lia.
  - rewrite IH, Nat2Z.inj_succ, Z.pow_succ_r by lia. lia.
Qed.

Lemma number_cons (c : ascii) (s : string) :
  Wikidata.number (String c s)
  = Wikidata.digit_value c * 10 ^ Z.of_nat (String.length s) + Wikidata.number s.
Proof.
  unfold Wikidata.number. cbn [list_ascii_of_string rev].
  rewrite number_from_last_snoc, length_rev.
  replace (length (list_ascii_of_string s)) with (String.length s); [lia|].
  clear. induction s as [|a s IH]; cbn; [done|by rewrite IH].
Qed.

Lemma value_of_digits_number (s : string) (acc : Z) :
  Wikidata.all_chars Wikidata.is_digit s = true →
  Wikidata.value_of_digits acc s
  = Some (acc * 10 ^ Z.of_nat (String.length s) + Wikidata.number s).
Proof.
  revert acc. induction s as [|c s IH]; intros acc.
  - intros _. cbn. f_equal. lia.
  - cbn [Wikidata.all_chars Wikidata.value_of_digits].
    intros [Hc Hs]%andb_true_iff. rewrite Hc, IH by done. f_equal.
    rewrite number_cons. cbn [String.length].
    rewrite Nat2Z.inj_succ, Z.pow_succ_r by lia.
    unfold Wikidata.digit_value.
    unfold Wikidata.is_digit in Hc. apply andb_true_iff in Hc as [Hlo _].
    apply Nat.leb_le in Hlo. rewrite Nat2Z.inj_sub by done. lia.
Qed.

Lemma number_nonneg (s : string) :
  Wikidata.all_chars Wikidata.is_digit s = true → 0 ≤ Wikidata.number s.
Proof.
  induction s as [|c s IH]; [done|].
  cbn [Wikidata.all_chars]. intros [Hc Hs]%andb_true_iff.
  rewrite number_cons. specialize (IH Hs).
  unfold Wikidata.is_digit in Hc. apply andb_true_iff in Hc as [Hlo _].
  apply Nat.leb_le in Hlo. unfold Wikidata.digit_value.
  assert (0 ≤ 10 ^ Z.of_nat (String.length s)) by (apply Z.pow_nonneg; lia).
  nia.
Qed.

(** X14. [to_company_entity] reads the revenue from the first run of
    digits of the text, commas removed, and counts it in millions: when
    the text without its commas is a part without digits, then a row of
    digits (at most 4300 of them), then a rest that does not begin with
    a digit, the revenue is the number the digits write times 1,000,000,
    whatever unit the text names and whatever follows the digits (a
    decimal part is dropped). *)
Theorem revenue_value_first_number_in_millions (self : Wikidata.WikidataEntity)
    (text front digits rest : string) :
  Wikidata.revenue self = Some text →
  Wikidata.remove_commas text = front +:+ digits +:+ rest →
  Wikidata.all_chars (λ c, negb (Wikidata.is_digit c)) front = true →
  Wikidata.all_chars Wikidata.is_digit digits = true →
  digits ≠ "" →
  (String.length digits ≤ 4300)%nat →
  Wikidata.leading Wikidata.is_digit rest = "" →
  Wikidata.revenue_value self = Some (Wikidata.number digits * 1000000)
  ∧ 0 ≤ Wikidata.number digits.
Proof.
  intros Hrev Htext Hfront Hdigits Hne Hlen Hrest.
  split; [|by apply number_nonneg].
  unfold Wikidata.revenue_value. rewrite Hrev. cbn [Wikidata.truthy default from_option id].
  destruct text as [|t text].
  { destruct front; [|done]. by destruct digits. }
  cbn [String.eqb negb].
  pose proof (remove_commas_no_comma (String t text)) as Hnc.
  rewrite Htext in *. rewrite !all_chars_app in Hnc.
  apply andb_true_iff in Hnc as [Hf Hnc]. apply andb_true_iff in Hnc as [_ Hr].
  rewrite search_digits_skip by done.
  destruct digits as [|d digits]; [done|].
  rewrite append_cons. cbn [Wikidata.search_digits].
  pose proof Hdigits as Hd. cbn [Wikidata.all_chars] in Hd.
  apply andb_true_iff in Hd as [Hd _]. rewrite Hd. cbn [orb].
  rewrite <- append_cons, leading_run.
  - unfold Wikidata.py_int.
    rewrite (proj2 (Nat.ltb_ge _ _) Hlen). by rewrite value_of_digits_number.
  - clear -Hdigits. induction (String d digits) as [|c s IH]; [done|].
    cbn [Wikidata.all_chars] in *. apply andb_true_iff in Hdigits as [-> Hs].
    by rewrite IH.
  - by apply leading_weaken.
Qed.

Lemma revenue_value_first_number_in_millions_witness :
  Wikidata.revenue_value Wikidata.apple_record = Some (394328 * 1000000)
  ∧ 0 ≤ 394328.
Proof.
  exact (revenue_value_first_number_in_millions Wikidata.apple_record
           "394,328 million USD" "" "394328" " million USD"
           eq_refl eq_refl eq_refl eq_refl ltac:(discriminate)
           ltac:(cbn; lia) eq_refl).
Defined.

(** X15. A revenue text without any digit, like no text at all, gives a
    company without revenue: the conversion raises nothing and leaves the
    field empty. *)
Theorem revenue_value_without_digits (self : Wikidata.WikidataEntity) :
  (∀ text, Wikidata.revenue self = Some text →
           Wikidata.all_chars (λ c, negb (Wikidata.is_digit c)) text = true) →
  Wikidata.revenue_value self = None.
Proof.
  intros H. unfold Wikidata.revenue_value.
  destruct (Wikidata.revenue self) as [text|]; [|done].
  destruct (Wikidata.truthy (Some text)); [|done].
  cbn [default from_option id].
  rewrite search_digits_none; [done| |apply remove_commas_no_comma].
  apply remove_commas_keeps. by apply H.
Qed.

Lemma revenue_value_without_digits_witness :
  Wikidata.revenue_value Wikidata.private_record = None.
Proof.
  exact (revenue_value_without_digits Wikidata.private_record
           ltac:(intros text H; injection H as <-; reflexivity)).
Defined.

(** ** Match score *)

(** X16. The score [_calculate_match_score] gives lies between 0.5 and
    1, the decimal sums taken exactly: it starts at 0.5, every field that
    is present only adds to it, and the result is capped at 1.  An entity
    with none of the optional fields scores 0.5. *)
Theorem calculate_match_score_range (entity : Wikidata.WikidataEntity) :
  ((5 # 10) <= Wikidata.calculate_match_score entity)%Q
  ∧ (Wikidata.calculate_match_score entity <= 1)%Q
  ∧ (Wikidata.truthy (Wikidata.description entity)
     || Wikidata.truthy (Wikidata.industry entity)
     || Wikidata.truthy (Wikidata.country entity)
     || Wikidata.truthy (Wikidata.founded entity)
     || Wikidata.truthy (Wikidata.headquarters entity)
     || Wikidata.truthy (Wikidata.revenue entity)
     || Wikidata.truthy (Wikidata.employees entity)
     || Wikidata.truthy (Wikidata.website entity)
     || Wikidata.truthy (Wikidata.stock_symbol entity) = false →
     (Wikidata.calculate_match_score entity == 5 # 10)%Q).
Proof.
  unfold Wikidata.calculate_match_score.
  destruct (Wikidata.truthy (Wikidata.description entity)),
           (Wikidata.truthy (Wikidata.industry entity)),
           (Wikidata.truthy (Wikidata.country entity)),
           (Wikidata.truthy (Wikidata.founded entity)),
           (Wikidata.truthy (Wikidata.headquarters entity)),
           (Wikidata.truthy (Wikidata.revenue entity)),
           (Wikidata.truthy (Wikidata.employees entity)),
           (Wikidata.truthy (Wikidata.website entity)),
           (Wikidata.truthy (Wikidata.stock_symbol entity));
    (split; [apply Qle_bool_imp_le; vm_compute; reflexivity|]);
    (split; [apply Qle_bool_imp_le; vm_compute; reflexivity|]);
    cbn [orb]; intros H; try discriminate H; reflexivity.
Qed.

(** ** Ingestion of the entities found *)

Lemma companies_of_cons e es base :
  Wikidata.companies_of (e :: es) base
  = Wikidata.to_company_entity e base (Wikidata.calculate_match_score e)
    :: Wikidata.companies_of es (base + 1).
Proof.
  unfold Wikidata.companies_of. rewrite imap_cons. f_equal.
  - by rewrite Z.add_0_r.
  - apply imap_ext. intros i x _. unfold compose. cbn beta.
    by replace (base + Z.of_nat (S i)) with (base + 1 + Z.of_nat i) by lia.
Qed.

Lemma companies_of_length es base :
  length (Wikidata.companies_of es base) = length es.
Proof. unfold Wikidata.companies_of. by rewrite length_imap. Qed.

Lemma companies_of_permid es base c :
  c ∈ Wikidata.companies_of es base →
  base ≤ permid c < base + Z.of_nat (length es).
Proof.
  revert base. induction es as [|e es IH]; intros base.
  - by intros ?%elem_of_nil.
  - rewrite companies_of_cons. intros [->|H]%elem_of_cons; cbn [length permid Wikidata.to_company_entity].
    + lia.
    + apply IH in H. lia.
Qed.

Lemma merge_node_rows (p : Z) created_by now ent s :
  (merge_node (VInt p) created_by now ent s).2
  = company_nodes p (merge_node (VInt p) created_by now ent s).1.
Proof.
  unfold company_nodes, merge_node.
  destruct (existsb (is_company (VInt p)) (nodes s)) eqn:E; cbn [fst snd nodes]; [done|].
  rewrite filter_app. apply existsb_filter_nil in E. rewrite E.
  rewrite filter_cons, filter_nil, decide_True; [done|].
  rewrite is_company_created. by apply bool_decide_eq_true.
Qed.

Lemma unwind_merge_rows created_by now companies s :
  permid_unique s →
  ∃ rows, unwind_merge created_by now (map company_parameters companies) s
          = inr (upsert_all created_by now companies s, rows)
          ∧ length rows = length companies.
Proof.
  revert s. induction companies as [|c cs IH]; intros s Hu.
  - by exists [].
  - cbn [map unwind_merge]. rewrite merge_company_entity.
    pose proof (merge_node_rows (permid c) created_by now (company_parameters c) s) as Hr.
    pose proof (merge_node_count (permid c) created_by now (company_parameters c) s) as Hc.
    pose proof (merge_node_keeps_unique (permid c) created_by now (company_parameters c) s Hu) as Hu'.
    destruct (merge_node _ _ _ _ s) as [s1 r1] eqn:E. cbn [fst snd] in *.
    destruct (IH s1 Hu') as (rows & -> & Hlen).
    exists (r1 ++ rows). split; [by rewrite upsert_all_cons, E|].
    rewrite length_app, Hlen, Hr, Hc. specialize (Hu (permid c)). cbn [length]. lia.
Qed.

Lemma upsert_all_other (q : Z) created_by now companies s :
  (∀ c, c ∈ companies → permid c ≠ q) →
  company_nodes q (upsert_all created_by now companies s) = company_nodes q s.
Proof.
  revert s. induction companies as [|c cs IH]; intros s H; [done|].
  rewrite upsert_all_cons, IH.
  - apply merge_node_other, H. left.
  - intros c' Hc'. apply H. by right.
Qed.

Lemma upsert_all_length created_by now companies s :
  (length (nodes s) ≤ length (nodes (upsert_all created_by now companies s)))%nat.
Proof.
  revert s. induction companies as [|c cs IH]; intros s; [done|].
  rewrite upsert_all_cons. etrans; [|apply IH].
  rewrite merge_node_length. lia.
Qed.

Lemma ingest_to_neo4j_run srv entities base w :
  Wikidata.ingest_to_neo4j (Some srv) entities base w
  = match batch_ingest_companies srv (Wikidata.companies_of entities base) w with
    | (inr result, w') =>
        (inr {[ "source" := VStr "WIKIDATA";
                "entities_processed" := VInt (Z.of_nat (length entities));
                "companies_ingested" := default (VInt 0) (result !! "success_count");
                "errors" := default (VInt 0) (result !! "error_count");
                "status" := default (VStr "UNKNOWN") (result !! "status") ]}, w')
    | (inl e, w') =>
        (inr {[ "source" := VStr "WIKIDATA";
                "entities_processed" := VInt (Z.of_nat (length entities));
                "companies_ingested" := VInt 0;
                "errors" := VInt (Z.of_nat (length entities));
                "status" := VStr "ERROR";
                "error_message" := VStr (exn_msg e) ]}, w')
    end.
Proof.
  unfold Wikidata.ingest_to_neo4j. unfold_client.
  by destruct (batch_ingest_companies srv _ w) as [[e|result] w'].
Qed.

Lemma batch_query_rows companies now s :
  permid_unique s →
  batch_query (map company_parameters companies) now s
  = inr (upsert_all "python_etl_batch" now companies s,
         [ {[ "ingested_count" := VInt (Z.of_nat (length companies)) ]} ]).
Proof.
  intros Hu. unfold batch_query.
  destruct (unwind_merge_rows "python_etl_batch" now companies s Hu) as (rows & -> & ->).
  done.
Qed.

(** X17. With a client, [ingest_to_neo4j] never raises and always
    returns its report, whatever the server does: the report counts the
    entities given and never holds an [error_message], because the client
    has already turned the failure into a result.  For no entity the
    status is UNKNOWN and nothing is sent; when the server fails the
    status is ERROR, no company counts as ingested, every entity counts as
    an error, and the store is unchanged. *)
Theorem ingest_to_neo4j_always_reports srv entities base w :
  ∃ d, outcome (Wikidata.ingest_to_neo4j (Some srv) entities base) w = inr d
     ∧ d !! "source" = Some (VStr "WIKIDATA")
     ∧ d !! "entities_processed" = Some (VInt (Z.of_nat (length entities)))
     ∧ d !! "error_message" = None
     ∧ (entities = [] →
          d !! "status" = Some (VStr "UNKNOWN")
          ∧ d !! "companies_ingested" = Some (VInt 0)
          ∧ after (Wikidata.ingest_to_neo4j (Some srv) entities base) w = w)
     ∧ (∀ e, entities ≠ [] → faults srv (w_tick w) = Some e →
          d !! "status" = Some (VStr "ERROR")
          ∧ d !! "companies_ingested" = Some (VInt 0)
          ∧ d !! "errors" = Some (VInt (Z.of_nat (length entities)))
          ∧ w_store (after (Wikidata.ingest_to_neo4j (Some srv) entities base) w)
            = w_store w).
Proof.
  unfold outcome, after. rewrite ingest_to_neo4j_run.
  destruct entities as [|e es].
  - eexists. split; [reflexivity|]. repeat (split; [reflexivity|]).
    split; [done|]. by intros ? ?.
  - rewrite companies_of_cons, batch_ingest_companies_spec.
    destruct (faults srv (w_tick w)) as [ex|].
    + eexists. split; [reflexivity|]. repeat (split; [reflexivity|]).
      split; [done|]. intros e' _ _.
      rewrite <- companies_of_cons, companies_of_length.
      repeat (split; [reflexivity|]). reflexivity.
    + destruct (batch_query _ _ _) as [?|[? [|r ?]]];
        (eexists; split; [reflexivity|]; repeat (split; [reflexivity|]);
         split; [done|]); intros ? ? ?; done.
Qed.

(** X18. When the server runs the batch on a store with at most one
    [Company] node for every [permid], the report of [ingest_to_neo4j]
    counts every entity as ingested: status SUCCESS, as many companies
    ingested as entities given, no error, and the store still has at most
    one node for every [permid]. *)
Theorem ingest_to_neo4j_counts_every_entity srv entities base w :
  entities ≠ [] →
  faults srv (w_tick w) = None →
  permid_unique (w_store w) →
  ∃ d, outcome (Wikidata.ingest_to_neo4j (Some srv) entities base) w = inr d
     ∧ d !! "status" = Some (VStr "SUCCESS")
     ∧ d !! "companies_ingested" = Some (VInt (Z.of_nat (length entities)))
     ∧ d !! "errors" = Some (VInt 0)
     ∧ permid_unique (w_store (after (Wikidata.ingest_to_neo4j (Some srv) entities base) w)).
Proof.
  intros Hne Hf Hu. unfold outcome, after. rewrite ingest_to_neo4j_run.
  destruct entities as [|e es]; [done|].
  rewrite companies_of_cons, batch_ingest_companies_spec, Hf.
  rewrite batch_query_rows by done.
  rewrite <- companies_of_cons, companies_of_length.
  eexists. split; [reflexivity|]. repeat (split; [reflexivity|]).
  intros q. cbn [snd w_store counted next_tick set_store].
  by apply upsert_all_keeps_unique.
Qed.

Lemma ingest_to_neo4j_counts_every_entity_witness :
  ∃ d, outcome (Wikidata.ingest_to_neo4j (Some steady)
                  [Wikidata.apple_record; Wikidata.samsung_record] 5000000000) fresh
       = inr d
     ∧ d !! "status" = Some (VStr "SUCCESS")
     ∧ d !! "companies_ingested" = Some (VInt (Z.of_nat 2))
     ∧ d !! "errors" = Some (VInt 0)
     ∧ permid_unique (w_store (after (Wikidata.ingest_to_neo4j (Some steady)
                  [Wikidata.apple_record; Wikidata.samsung_record] 5000000000) fresh)).
Proof.
  exact (ingest_to_neo4j_counts_every_entity steady
           [Wikidata.apple_record; Wikidata.samsung_record] 5000000000 fresh
           ltac:(discriminate) eq_refl ltac:(intros p; apply Nat.le_0_l)).
Defined.

Lemma ingest_to_neo4j_store srv entities base w :
  faults srv (w_tick w) = None →
  w_store (after (Wikidata.ingest_to_neo4j (Some srv) entities base) w)
  = upsert_all "python_etl_batch" (clock srv (w_tick w))
      (Wikidata.companies_of entities base) (w_store w).
Proof.
  intros Hf. rewrite <- (batch_store srv _ w Hf).
  unfold after. rewrite ingest_to_neo4j_run.
  by destruct (batch_ingest_companies srv _ w) as [[e|result] w'].
Qed.

Lemma upsert_all_new_range now es : ∀ base s,
  (∀ i, (i < length es)%nat → company_nodes (base + Z.of_nat i) s = []) →
  length (nodes (upsert_all "python_etl_batch" now (Wikidata.companies_of es base) s))
  = (length (nodes s) + length es)%nat
  ∧ ∀ i e, es !! i = Some e →
      ∃ n, company_nodes (base + Z.of_nat i)
             (upsert_all "python_etl_batch" now (Wikidata.companies_of es base) s) = [n]
         ∧ prop (node_props n) "name" = VStr (Wikidata.label e)
         ∧ prop (node_props n) "match_score" = VFloat (Wikidata.calculate_match_score e)
         ∧ prop (node_props n) "is_final_assembler" = VBool (Wikidata.is_final_assembler e)
         ∧ prop (node_props n) "created_by" = VStr "python_etl_batch".
Proof.
  induction es as [|e es IH]; intros base s Hfresh.
  - split; [cbn; lia|]. intros i e H. by rewrite lookup_nil in H.
  - rewrite companies_of_cons, upsert_all_cons.
    cbn [permid Wikidata.to_company_entity].
    set (c := Wikidata.to_company_entity e base (Wikidata.calculate_match_score e)).
    change (Build_CompanyEntity base (Wikidata.label e) (Wikidata.is_final_assembler e)
              (Wikidata.calculate_match_score e) (Wikidata.industry e)
              (Wikidata.country e) None (Wikidata.revenue_value e)) with c.
    set (s1 := (merge_node (VInt base) "python_etl_batch" now (company_parameters c) s).1).
    pose proof (Hfresh 0%nat ltac:(cbn; lia)) as H0. rewrite Z.add_0_r in H0.
    assert (Hs1 : ∀ i, (i < length es)%nat →
                       company_nodes (base + 1 + Z.of_nat i) s1 = []).
    { intros i Hi. unfold s1. rewrite merge_node_other by lia.
      replace (base + 1 + Z.of_nat i) with (base + Z.of_nat (S i)) by lia.
      apply Hfresh. cbn. lia. }
    destruct (IH (base + 1) s1 Hs1) as [Hlen Hnodes].
    split.
    + rewrite Hlen. unfold s1. rewrite merge_node_length.
      apply existsb_filter_nil in H0. unfold company_nodes in H0.
      replace (existsb (is_company (VInt base)) (nodes s)) with false.
      cbn [length]. lia.
    + intros [|i] e' He'.
      * injection He' as <-. rewrite Z.add_0_r.
        rewrite upsert_all_other.
        2:{ intros c' Hc'%companies_of_permid. lia. }
        unfold s1. rewrite merge_node_company_nodes, H0.
        eexists. split; [reflexivity|]. cbn [node_props]. unfold on_create.
        split; [by rewrite !prop_set_prop_ne, prop_set_prop_eq by done|].
        split; [by rewrite !prop_set_prop_ne, prop_set_prop_eq by done|].
        split; [by rewrite !prop_set_prop_ne, prop_set_prop_eq by done|].
        by rewrite prop_set_prop_eq.
      * replace (base + Z.of_nat (S i)) with (base + 1 + Z.of_nat i) by lia.
        by apply Hnodes.
Qed.

(** X19. On a store with no [Company] node for any of the [permid]s
    [base_permid], ..., [base_permid + n - 1], a run of [ingest_to_neo4j]
    that the server executes creates exactly one node for each of the [n]
    entities and no other: the node of the entity at position [i] has
    [permid] [base_permid + i], the entity's label as its name, the score
    of [_calculate_match_score], the flag of [_is_final_assembler], and
    [created_by] "python_etl_batch". *)
Theorem ingest_to_neo4j_creates_one_node_each srv entities base w :
  faults srv (w_tick w) = None →
  (∀ i, (i < length entities)%nat →
        company_nodes (base + Z.of_nat i) (w_store w) = []) →
  length (nodes (w_store (after (Wikidata.ingest_to_neo4j (Some srv) entities base) w)))
  = (length (nodes (w_store w)) + length entities)%nat
  ∧ ∀ i e, entities !! i = Some e →
      ∃ n, company_nodes (base + Z.of_nat i)
             (w_store (after (Wikidata.ingest_to_neo4j (Some srv) entities base) w)) = [n]
         ∧ prop (node_props n) "name" = VStr (Wikidata.label e)
         ∧ prop (node_props n) "match_score" = VFloat (Wikidata.calculate_match_score e)
         ∧ prop (node_props n) "is_final_assembler" = VBool (Wikidata.is_final_assembler e)
         ∧ prop (node_props n) "created_by" = VStr "python_etl_batch".
Proof.
  intros Hf Hfresh. rewrite ingest_to_neo4j_store by done.
  by apply upsert_all_new_range.
Qed.

Lemma ingest_to_neo4j_creates_one_node_each_witness :
  length (nodes (w_store (after (Wikidata.ingest_to_neo4j (Some steady)
            [Wikidata.apple_record; Wikidata.samsung_record] 5000000000) fresh)))
  = (length (nodes (w_store fresh)) + 2)%nat
  ∧ ∀ i e, [Wikidata.apple_record; Wikidata.samsung_record] !! i = Some e →
      ∃ n, company_nodes (5000000000 + Z.of_nat i)
             (w_store (after (Wikidata.ingest_to_neo4j (Some steady)
                [Wikidata.apple_record; Wikidata.samsung_record] 5000000000) fresh)) = [n]
         ∧ prop (node_props n) "name" = VStr (Wikidata.label e)
         ∧ prop (node_props n) "match_score" = VFloat (Wikidata.calculate_match_score e)
         ∧ prop (node_props n) "is_final_assembler" = VBool (Wikidata.is_final_assembler e)
         ∧ prop (node_props n) "created_by" = VStr "python_etl_batch".
Proof.
  exact (ingest_to_neo4j_creates_one_node_each steady
           [Wikidata.apple_record; Wikidata.samsung_record] 5000000000 fresh
           eq_refl (λ i _, eq_refl)).
Defined.

(** X20. [ingest_to_neo4j] numbers the entities by their position, and
    a [permid] that already has a node keeps what is stored: whatever
    entities a run brings and whatever the server does, the nodes of a
    [permid] present before the run are still there and keep their name
    and every property other than [match_score] and [last_updated], so a
    second run with the entities in another order does not rename the
    nodes of the first. *)
Theorem ingest_to_neo4j_keeps_stored_names srv entities base w (p : Z) (k : string) :
  company_nodes p (w_store w) ≠ [] →
  k ≠ "match_score" → k ≠ "last_updated" →
  map (λ n, prop (node_props n) k)
      (company_nodes p (w_store (after (Wikidata.ingest_to_neo4j (Some srv) entities base) w)))
  = map (λ n, prop (node_props n) k) (company_nodes p (w_store w)).
Proof.
  intros Hp Hk1 Hk2.
  destruct (faults srv (w_tick w)) as [e|] eqn:Hf.
  - replace (w_store (after (Wikidata.ingest_to_neo4j (Some srv) entities base) w))
      with (w_store w); [done|].
    unfold after. rewrite ingest_to_neo4j_run.
    destruct entities as [|e0 es]; [done|].
    by rewrite companies_of_cons, batch_ingest_companies_spec, Hf.
  - rewrite ingest_to_neo4j_store by done.
    by apply upsert_all_keeps.
Qed.

Lemma ingest_to_neo4j_keeps_stored_names_witness :
  map (λ n, prop (node_props n) "name")
      (company_nodes 7 (w_store (after (Wikidata.ingest_to_neo4j (Some steady)
                                          [Wikidata.apple_record] 7) seven)))
  = map (λ n, prop (node_props n) "name") (company_nodes 7 (w_store seven)).
Proof.
  exact (ingest_to_neo4j_keeps_stored_names steady [Wikidata.apple_record] 7 seven
           7 "name" ltac:(vm_compute; discriminate)
           ltac:(discriminate) ltac:(discriminate)).
Defined.


(** * From ingestion to relationships *)

Lemma filter_imap_none {A B} (g : nat → A → B) (P : B → Prop)
    `{!∀ y, Decision (P y)} (l : list A) :
  (∀ j y, l !! j = Some y → ¬ P (g j y)) → filter P (imap g l) = [].
Proof.
  revert g. induction l as [|a l IH]; intros g Hnone; [done|].
  rewrite imap_cons, filter_cons, decide_False by (apply (Hnone 0%nat a); done).
  apply IH. intros j y Hj. apply (Hnone (S j) y Hj).
Qed.

Lemma filter_imap_one {A B} (g : nat → A → B) (P : B → Prop)
    `{!∀ y, Decision (P y)} (l : list A) (i : nat) (x : A) :
  l !! i = Some x → P (g i x) →
  (∀ j y, l !! j = Some y → j ≠ i → ¬ P (g j y)) →
  filter P (imap g l) = [g i x].
Proof.
  revert g i. induction l as [|a l IH]; intros g i Hi Hx Hother; [done|].
  rewrite imap_cons, filter_cons. destruct i as [|i]; cbn in Hi.
  - injection Hi as ->. rewrite decide_True by done. f_equal.
    apply filter_imap_none. intros j y Hj. by apply (Hother (S j) y Hj).
  - rewrite decide_False by (by apply (Hother 0%nat a)).
    apply (IH (g ∘ S) i Hi Hx). intros j y Hj Hne.
    apply (Hother (S j) y Hj). lia.
Qed.

Lemma named_created nm created_by now id c :
  named (VStr nm) (created_node created_by now id c) = bool_decide (name c = nm).
Proof.
  unfold named, has_label, prop_matches, created_node, on_create.
  cbn [node_labels node_props existsb].
  rewrite !prop_set_prop_ne by done. rewrite prop_set_prop_eq.
  replace (prop (company_parameters c) "name") with (VStr (name c)) by reflexivity.
  cbn [cypher_eq String.eqb Ascii.eqb Bool.eqb andb orb].
  destruct (String.eqb_spec (name c) nm); by case_bool_decide.
Qed.

Lemma is_company_created_node (q : Z) created_by now id c :
  is_company (VInt q) (created_node created_by now id c) = bool_decide (permid c = q).
Proof. apply is_company_created. Qed.

Lemma upsert_all_fresh_nodes created_by now companies : ∀ s,
  NoDup (map permid companies) →
  (∀ c, c ∈ companies → company_nodes (permid c) s = []) →
  nodes (upsert_all created_by now companies s)
  = nodes s ++ imap (λ k c, created_node created_by now (next_id s + k) c) companies
  ∧ edges (upsert_all created_by now companies s) = edges s.
Proof.
  induction companies as [|c cs IH]; intros s Hnd Hfresh.
  - cbn. by rewrite app_nil_r.
  - rewrite upsert_all_cons. cbn [map] in Hnd. apply NoDup_cons in Hnd as [Hc Hnd].
    assert (Hmiss : existsb (is_company (VInt (permid c))) (nodes s) = false).
    { apply existsb_filter_nil. apply (Hfresh c). left. }
    destruct (IH (merge_node (VInt (permid c)) created_by now (company_parameters c) s).1 Hnd)
      as [Hn He].
    { intros c' Hc'. rewrite merge_node_other; [apply Hfresh; by right|].
      intros E. apply Hc. rewrite E. apply list_elem_of_fmap. by exists c'. }
    rewrite Hn, He, merge_node_edges. split; [|done].
    unfold merge_node. rewrite Hmiss. cbn [fst nodes next_id].
    rewrite <- app_assoc, imap_cons, Nat.add_0_r. cbn [app]. do 2 f_equal.
    apply imap_ext. intros k x _. unfold compose. cbn beta. f_equal. lia.
Qed.

Lemma NoDup_fmap_lookup {A B} (f : A → B) (l : list A) i j x y :
  NoDup (map f l) → l !! i = Some x → l !! j = Some y → f x = f y → i = j.
Proof.
  intros Hnd Hi Hj E.
  apply (NoDup_lookup (map f l) i j (f x)); [done|..].
  - change (map f l) with (f <$> l). by rewrite list_lookup_fmap, Hi.
  - change (map f l) with (f <$> l). by rewrite list_lookup_fmap, Hj, E.
Qed.

(** X21. Companies that [batch_ingest_companies] has created can be
    linked by name.  On a well-formed store that holds no [Company] node
    with the [permid] or the name of any company of a batch whose
    [permid]s and names are pairwise distinct, when the server runs both
    statements, the batch followed by [create_relationship] between the
    names of two of its companies adds exactly one edge, of the requested
    type, from the one node of the first company's [permid] to the one
    node of the second's, adds no node, and returns the two names and the
    type. *)
Theorem ingested_companies_can_be_linked srv companies rel w i j c1 c2 :
  well_formed (w_store w) →
  faults srv (w_tick w) = None →
  faults srv (w_tick (after (batch_ingest_companies srv companies) w)) = None →
  NoDup (map permid companies) →
  NoDup (map name companies) →
  (∀ c, c ∈ companies →
        company_nodes (permid c) (w_store w) = []
        ∧ filter (λ n, named (VStr (name c)) n = true) (nodes (w_store w)) = []) →
  companies !! i = Some c1 →
  companies !! j = Some c2 →
  source_name rel = name c1 →
  target_name rel = name c2 →
  ∃ a b e,
    company_nodes (permid c1) (w_store (after (batch_ingest_companies srv companies) w)) = [a]
    ∧ company_nodes (permid c2) (w_store (after (batch_ingest_companies srv companies) w)) = [b]
    ∧ edges (w_store (after (create_relationship srv rel)
                        (after (batch_ingest_companies srv companies) w)))
      = edges (w_store w) ++ [e]
    ∧ nodes (w_store (after (create_relationship srv rel)
                        (after (batch_ingest_companies srv companies) w)))
      = nodes (w_store (after (batch_ingest_companies srv companies) w))
    ∧ edge_key e = (node_id a, node_id b, relationship_type rel)
    ∧ outcome (create_relationship srv rel)
              (after (batch_ingest_companies srv companies) w)
      = inr {[ "source" := VStr (name c1);
               "target" := VStr (name c2);
               "relationship_type" := VStr (relationship_type rel) ]}.
Proof.
  intros W Hf Hf1 Hp Hn Hfresh Hi Hj Hsrc Htgt.
  pose proof (batch_store srv companies w Hf) as Hs1.
  set (w1 := after (batch_ingest_companies srv companies) w) in *.
  set (now := clock srv (w_tick w)) in *.
  destruct (upsert_all_fresh_nodes "python_etl_batch" now companies (w_store w) Hp)
    as [Hnodes Hedges].
  { intros c Hc. by apply Hfresh. }
  rewrite <- Hs1 in Hnodes, Hedges.
  set (g := λ (k : nat) c, created_node "python_etl_batch" now (next_id (w_store w) + k) c) in *.
  assert (Hperm : ∀ k c, companies !! k = Some c →
            company_nodes (permid c) (w_store w1) = [g k c]).
  { intros k c Hk. unfold company_nodes. rewrite Hnodes, filter_app.
    assert (Hc : c ∈ companies) by (by apply list_elem_of_lookup; exists k).
    destruct (Hfresh c Hc) as [H0 _]. unfold company_nodes in H0. rewrite H0.
    cbn [app]. apply filter_imap_one; [done|..].
    - unfold g. rewrite is_company_created_node. by apply bool_decide_eq_true.
    - intros k' c' Hk' Hne. unfold g. rewrite is_company_created_node.
      intros E%bool_decide_eq_true.
      apply Hne. by apply (NoDup_fmap_lookup permid companies k' k c' c). }
  assert (Hname : ∀ k c, companies !! k = Some c →
            filter (λ n, named (VStr (name c)) n = true) (nodes (w_store w1)) = [g k c]).
  { intros k c Hk. rewrite Hnodes, filter_app.
    assert (Hc : c ∈ companies) by (by apply list_elem_of_lookup; exists k).
    destruct (Hfresh c Hc) as [_ H0]. rewrite H0.
    cbn [app]. apply filter_imap_one; [done|..].
    - unfold g. rewrite named_created. by apply bool_decide_eq_true.
    - intros k' c' Hk' Hne. unfold g. rewrite named_created.
      intros E%bool_decide_eq_true.
      apply Hne. by apply (NoDup_fmap_lookup name companies k' k c' c). }
  exists (g i c1), (g j c2).
  assert (Hnew : existsb (links (relationship_type rel) (g i c1) (g j c2))
                         (edges (w_store w1)) = false).
  { rewrite Hedges. apply not_true_is_false. intros (e & He & Hl)%existsb_exists.
    destruct W as (_ & _ & W3 & _ & W5).
    rewrite Forall_forall in W5. apply list_elem_of_In in He.
    destruct (W5 e He) as [Hsrc' _].
    unfold node_ids in Hsrc'. apply list_elem_of_fmap in Hsrc' as (n & Hid & Hin).
    rewrite Forall_forall in W3. specialize (W3 n Hin).
    unfold links in Hl. apply andb_true_iff in Hl as [Hl _].
    apply andb_true_iff in Hl as [Hl _]. apply Nat.eqb_eq in Hl.
    unfold g in Hl. cbn [created_node node_id] in Hl. lia. }
  unfold after, outcome. rewrite create_relationship_spec, Hf1.
  unfold match_pairs. rewrite Hsrc, Htgt, (Hname i c1 Hi), (Hname j c2 Hj).
  cbn [mbind list_bind app for_rows merge_relationship fst snd].
  rewrite Hnew. cbn [fst snd set_store counted next_tick w_store nodes edges map app].
  eexists. split; [by apply Hperm|]. split; [by apply Hperm|].
  split; [by rewrite Hedges|]. split; [done|]. split; [done|].
  cbn [edge_type]. f_equal.
  assert (Nm : ∀ k c, prop (node_props (g k c)) "name" = VStr (name c)).
  { intros k c. unfold g, created_node, on_create. cbn [node_props].
    rewrite !prop_set_prop_ne by done. by rewrite prop_set_prop_eq. }
  by rewrite !Nm.
Qed.

Lemma ingested_companies_can_be_linked_witness :
  ∃ a b e,
    company_nodes 4295908001 (w_store two_companies) = [a]
    ∧ company_nodes 4295908002 (w_store two_companies) = [b]
    ∧ edges (w_store two_rivals) = edges (w_store fresh) ++ [e]
    ∧ nodes (w_store two_rivals) = nodes (w_store two_companies)
    ∧ edge_key e = (node_id a, node_id b, "COMPETES_WITH")
    ∧ outcome (create_relationship steady competes) two_companies
      = inr {[ "source" := VStr "ARM Holdings";
               "target" := VStr "MediaTek";
               "relationship_type" := VStr "COMPETES_WITH" ]}.
Proof.
  exact (ingested_companies_can_be_linked steady
           [company 4295908001 "ARM Holdings" (89 # 100);
            company 4295908002 "MediaTek" (87 # 100)]
           competes fresh 0%nat 1%nat
           (company 4295908001 "ARM Holdings" (89 # 100))
           (company 4295908002 "MediaTek" (87 # 100))
           well_formed_empty eq_refl eq_refl
           ltac:(apply (bool_decide_unpack _); vm_compute; reflexivity)
           ltac:(apply (bool_decide_unpack _); vm_compute; reflexivity)
           (λ c _, conj eq_refl eq_refl) eq_refl eq_refl eq_refl eq_refl).
Defined.
